(** * Mustache: a shallow embedding of [mustache.hpp]

    The development follows the header top to bottom: the two string
    utilities ([trim], [escape]), the [Data] variant, [DelimiterSet], [Tag],
    [Component], the [Context] stack, the parser ([parse] and its helpers),
    the generic walker ([walkChildren], [walkComponent]) and the renderer
    ([renderComponent], [renderLambda], [renderVariable], [renderSection]).

    Conventions.
    - [StringType] is [string]; offsets ([StringSizeType]) are [nat];
      a search that yields [npos] in C++ yields [None] here.
    - A C++ statement that asserts, throws or has undefined behaviour is
      the outcome [Fault]; a model loop that ran out of its step budget is
      [OutOfFuel]; everything else is [Ret]. *)

From Stdlib Require Import String Ascii List Arith Bool Lia DecimalString.
Import ListNotations.
Open Scope string_scope.
Set Warnings "-register-all".

(** ** Outcomes *)

Inductive result (A : Type) : Type :=
| Ret (a : A)
| OutOfFuel
| Fault.
Arguments Ret {A} a.
Arguments OutOfFuel {A}.
Arguments Fault {A}.

Definition bind {A B : Type} (m : result A) (k : A -> result B) : result B :=
  match m with
  | Ret a => k a
  | OutOfFuel => OutOfFuel
  | Fault => Fault
  end.

Notation "x <- m ;; k" := (bind m (fun x => k))
  (at level 61, m at next level, right associativity).
Notation "' p <- m ;; k" := (bind m (fun p => k))
  (at level 61, p pattern, m at next level, right associativity).

(** ** std::basic_string operations used by the header *)

(** [isspace] in the "C" locale: HT, LF, VT, FF, CR and the space; no byte
    above 127 is whitespace there. *)
Definition isspace (c : ascii) : bool :=
  let n := nat_of_ascii c in
  (((9 <=? n) && (n <=? 13)) || (n =? 32))%nat.

(** [s.find(needle, pos)]. *)
Definition find (s needle : string) (pos : nat) : option nat :=
  index pos needle s.

(** [s.find_first_not_of(ch, pos)]. *)
Fixpoint find_first_not_of (s : string) (ch : ascii) (pos : nat) : option nat :=
  match s with
  | EmptyString => None
  | String c s' =>
      match pos with
      | 0 => if Ascii.eqb c ch then option_map S (find_first_not_of s' ch 0)
             else Some 0
      | S p => option_map S (find_first_not_of s' ch p)
      end
  end.

(** [s.substr(pos, n)] and the constructor [StringType{s, pos, n}]; every
    call site of the header has [pos <= s.size()], where C++ does not throw. *)
Definition substr (s : string) (pos n : nat) : string := substring pos n s.

(** [s.at(i)]: [None] is the [std::out_of_range] case. *)
Definition at_ (s : string) (i : nat) : option ascii := get i s.

(** [s.back()]. *)
Definition back (s : string) : option ascii := get (String.length s - 1) s.

Definition empty (s : string) : bool :=
  match s with EmptyString => true | _ => false end.

(** [stream << n] for an offset: its decimal digits. *)
Definition dec (n : nat) : string := NilEmpty.string_of_uint (Nat.to_uint n).

(** The double quote, for the messages that quote a section name. *)
Definition dquote : string := String "034"%char EmptyString.

(** ** trim (lines 40-51) *)

(** The first loop: advance [it] over leading whitespace. *)
Fixpoint ltrim (s : string) : string :=
  match s with
  | EmptyString => EmptyString
  | String c s' => if isspace c then ltrim s' else s
  end.

(** The second loop: move [rit] back from the end over whitespace, never
    past [it]; this is what remains of the range that starts at [it]. *)
Fixpoint rtrim (s : string) : string :=
  match s with
  | EmptyString => EmptyString
  | String c s' =>
      match rtrim s' with
      | EmptyString => if isspace c then EmptyString else String c EmptyString
      | r => String c r
      end
  end.

Definition trim (s : string) : string := rtrim (ltrim s).

(** ** escape (lines 53-80) *)

Definition escape_char (ch : ascii) : string :=
  if Ascii.eqb ch "&" then "&amp;"
  else if Ascii.eqb ch "<" then "&lt;"
  else if Ascii.eqb ch ">" then "&gt;"
  else if Ascii.eqb ch "034" then "&quot;"
  else if Ascii.eqb ch "'" then "&apos;"
  else String ch EmptyString.

Fixpoint escape (s : string) : string :=
  match s with
  | EmptyString => EmptyString
  | String ch s' => escape_char ch ++ escape s'
  end.

(** ** Data (lines 86-292) *)

(** The variant: one constructor per [Data::Type], each with the payload the
    class keeps behind the matching pointer.  An object is the sequence of
    its entries; keys are unique because [set] never adds a second entry for
    a key.  A partial is a nullary producer, a lambda a function on strings. *)
Inductive Data : Type :=
| DObject (obj : list (string * Data))
| DString (str : string)
| DList (list_ : list Data)
| DTrue
| DFalse
| DPartial (partial : unit -> string)
| DLambda (lambda : string -> string)
| DInvalid.

Definition isObject (d : Data) : bool := match d with DObject _ => true | _ => false end.
Definition isString (d : Data) : bool := match d with DString _ => true | _ => false end.
Definition isList (d : Data) : bool := match d with DList _ => true | _ => false end.
Definition isTrue (d : Data) : bool := match d with DTrue => true | _ => false end.
Definition isFalse (d : Data) : bool := match d with DFalse => true | _ => false end.
Definition isPartial (d : Data) : bool := match d with DPartial _ => true | _ => false end.
Definition isLambda (d : Data) : bool := match d with DLambda _ => true | _ => false end.
Definition isEmptyList (d : Data) : bool :=
  match d with DList [] => true | _ => false end.
Definition isNonEmptyList (d : Data) : bool :=
  match d with DList (_ :: _) => true | _ => false end.

(** [obj_->find(name)]. *)
Fixpoint obj_find (obj : list (string * Data)) (name : string) : option Data :=
  match obj with
  | [] => None
  | (k, v) :: rest => if String.eqb k name then Some v else obj_find rest name
  end.

(** [Data::get]: [None] is the null pointer. *)
Definition Data_get (d : Data) (name : string) : option Data :=
  match d with
  | DObject obj => obj_find obj name
  | _ => None
  end.

(** [Data::set]: [unordered_map::insert] keeps an entry that is already there. *)
Definition Data_set (d : Data) (name : string) (var : Data) : Data :=
  match d with
  | DObject obj =>
      match obj_find obj name with
      | Some _ => d
      | None => DObject (obj ++ [(name, var)])%list
      end
  | _ => d
  end.

(** [Data::callLambda]: the returned string converts to a String [Data], so
    the caller's [assert(lambdaResult.isString())] holds by construction. *)
Definition callLambda (lambda : string -> string) (text : string) : Data :=
  DString (lambda text).

(** ** DelimiterSet (lines 329-347) *)

Record DelimiterSet : Type := mkDelimiterSet {
  begin_ : string;
  end_ : string
}.

Definition defaultBegin : string := "{{".
Definition defaultEnd : string := "}}".
Definition defaultDelimiterSet : DelimiterSet := mkDelimiterSet defaultBegin defaultEnd.

Definition isDefault (d : DelimiterSet) : bool :=
  String.eqb (begin_ d) defaultBegin && String.eqb (end_ d) defaultEnd.

(** ** Tag and Component (lines 349-385) *)

Module Tag.
Inductive Type_ : Type :=
| Invalid
| Variable_
| UnescapedVariable
| SectionBegin
| SectionEnd
| SectionBeginInverted
| Comment
| Partial
| SetDelimiter.

Definition eqb (a b : Type_) : bool :=
  match a, b with
  | Invalid, Invalid | Variable_, Variable_
  | UnescapedVariable, UnescapedVariable | SectionBegin, SectionBegin
  | SectionEnd, SectionEnd | SectionBeginInverted, SectionBeginInverted
  | Comment, Comment | Partial, Partial | SetDelimiter, SetDelimiter => true
  | _, _ => false
  end.
End Tag.

(** The two [shared_ptr] members are [option]s: [None] is the null pointer. *)
Record Tag : Type := mkTag {
  name : string;
  type : Tag.Type_;
  sectionText : option string;
  delimiterSet : option DelimiterSet
}.

Definition defaultTag : Tag := mkTag "" Tag.Invalid None None.

Definition isSectionBegin (t : Tag) : bool :=
  Tag.eqb (type t) Tag.SectionBegin || Tag.eqb (type t) Tag.SectionBeginInverted.
Definition isSectionEnd (t : Tag) : bool := Tag.eqb (type t) Tag.SectionEnd.

(** [position] is [None] where the C++ member still holds [npos]. *)
Inductive Component : Type := mkComponent {
  text : string;
  tag : Tag;
  children : list Component;
  position : option nat
}.

Definition isText (c : Component) : bool := Tag.eqb (type (tag c)) Tag.Invalid.

(** [Component()] and [Component(t, p)]. *)
Definition emptyComponent : Component := mkComponent "" defaultTag [] None.
Definition textComponent (t : string) (p : nat) : Component :=
  mkComponent t defaultTag [] (Some p).

Definition push_back_child (parent child : Component) : Component :=
  mkComponent (text parent) (tag parent) (children parent ++ [child])%list (position parent).

(** [stream << comp.position]. *)
Definition dec_position (p : option nat) : string :=
  match p with
  | Some n => dec n
  | None => "18446744073709551615"
  end.

(** ** Context (lines 387-457) *)

Record Context : Type := mkContext {
  items_ : list Data;          (* front of the vector first: innermost frame *)
  ctx_delimiterSet : DelimiterSet
}.

Definition Context_push (ctx : Context) (data : Data) : Context :=
  mkContext (data :: items_ ctx) (ctx_delimiterSet ctx).

Definition Context_pop (ctx : Context) : Context :=
  mkContext (tl (items_ ctx)) (ctx_delimiterSet ctx).

(** [split]: repeated [std::getline(ss, item, delim)].  Each call takes the
    characters up to the next [delim] (consumed) or the end of the stream and
    fails, ending the loop, when it could take nothing at all. *)
Fixpoint getline (s : string) (delim : ascii) : string * option string :=
  match s with
  | EmptyString => (EmptyString, None)
  | String c s' =>
      if Ascii.eqb c delim then (EmptyString, Some s')
      else let '(item, rest) := getline s' delim in (String c item, rest)
  end.

Fixpoint split_fuel (fuel : nat) (s : string) (delim : ascii) : list string :=
  match fuel with
  | 0 => []
  | S fuel' =>
      match s with
      | EmptyString => []
      | _ =>
          match getline s delim with
          | (item, None) => [item]
          | (item, Some rest) => item :: split_fuel fuel' rest delim
          end
      end
  end.

Definition split (s : string) (delim : ascii) : list string :=
  split_fuel (String.length s) s delim.

(** Lines 420-423: the names of a dotted name; [resize(1)] makes an empty
    result one empty name. *)
Definition dotted_names (name_ : string) : list string :=
  match split name_ "." with
  | [] => [EmptyString]
  | names => names
  end.

(** The inner loop of [Context::get]: follow the names from one frame. *)
Fixpoint get_path (var : Data) (names : list string) : option Data :=
  match names with
  | [] => Some var
  | n :: names' =>
      match Data_get var n with
      | None => None
      | Some var' => get_path var' names'
      end
  end.

(** The outer loop of [Context::get]. *)
Fixpoint get_frames (items : list Data) (names : list string) : option Data :=
  match items with
  | [] => None
  | item :: items' =>
      match get_path item names with
      | Some var => Some var
      | None => get_frames items' names
      end
  end.

(** [Context::get].  [items_.front()] of an empty vector is undefined; every
    render starts with the root frame and pops only what it pushed, and the
    model answers the null pointer there. *)
Definition Context_get (ctx : Context) (name_ : string) : option Data :=
  if (String.length name_ =? 1)%nat
     && (match at_ name_ 0 with Some c => Ascii.eqb c "." | None => false end)
  then hd_error (items_ ctx)
  else get_frames (items_ ctx) (dotted_names name_).

(** [Context::get_partial]. *)
Fixpoint get_partial_frames (items : list Data) (name_ : string) : option Data :=
  match items with
  | [] => None
  | item :: items' =>
      match Data_get item name_ with
      | Some var => Some var
      | None => get_partial_frames items' name_
      end
  end.

Definition Context_get_partial (ctx : Context) (name_ : string) : option Data :=
  get_partial_frames (items_ ctx) name_.

(** ** The template object (lines 813-816) *)

Record Template : Type := mkTemplate {
  errorMessage : string;
  rootComponent : Component
}.

Definition isValid (t : Template) : bool := empty (errorMessage t).

(** ** The walker (lines 579-617) *)

Inductive WalkControl : Type :=
| Continue
| Stop
| Skip.

(** A callback receives the component by reference and may change it; both
    loops of the walker hand it a copy ([for (auto childComp : ...)]), so the
    callback returns the copy as it left it, and nothing is written back to
    the tree.  The [int] depth argument is ignored by every callback of the
    header and is left out.  [St] is what the callback captures by reference. *)
Definition WalkCallback (St : Type) : Type :=
  Component -> St -> result (WalkControl * Component * St).

(** The [for] loop of [walkComponent] over the children of the copy. *)
Fixpoint walkComponent_loop {St : Type}
    (visit : Component -> St -> result (WalkControl * St))
    (cs : list Component) (control : WalkControl) (s : St)
  : result (WalkControl * St) :=
  match cs with
  | [] => Ret (control, s)
  | childComp :: cs' =>
      '(control', s') <- visit childComp s ;;
      match control' with
      | Stop => Ret (Stop, s')
      | Skip => Ret (Continue, s')
      | Continue => walkComponent_loop visit cs' Continue s'
      end
  end.

(** [walkComponent]; the fuel bounds the depth of the descent. *)
Fixpoint walkComponent {St : Type} (fuel : nat) (callback : WalkCallback St)
    (comp : Component) (s : St) : result (WalkControl * St) :=
  match fuel with
  | 0 => OutOfFuel
  | S fuel' =>
      '(control, comp', s') <- callback comp s ;;
      match control with
      | Stop => Ret (Stop, s')
      | Skip => Ret (Continue, s')
      | Continue =>
          walkComponent_loop (walkComponent fuel' callback) (children comp') Continue s'
      end
  end.

(** The [for] loop of [walkChildren]: it stops at the first child whose walk
    is not [Continue], and the function returns nothing. *)
Fixpoint walkChildren_loop {St : Type}
    (visit : Component -> St -> result (WalkControl * St))
    (cs : list Component) (s : St) : result St :=
  match cs with
  | [] => Ret s
  | childComp :: cs' =>
      '(control, s') <- visit childComp s ;;
      match control with
      | Continue => walkChildren_loop visit cs' s'
      | _ => Ret s'
      end
  end.

Definition walkChildren {St : Type} (fuel : nat) (callback : WalkCallback St)
    (comp : Component) (s : St) : result St :=
  walkChildren_loop (walkComponent fuel callback) (children comp) s.

(** ** Parser helpers (lines 619-693) *)

Fixpoint isSetDelimiterValid (delimiter : string) : bool :=
  match delimiter with
  | EmptyString => true
  | String ch rest =>
      if Ascii.eqb ch "=" || isspace ch then false else isSetDelimiterValid rest
  end.

(** [parseSetDelimiterTag]: the boolean it returns and the delimiter set as it
    leaves it.  [Fault] is a failed [assert] (or [back()] of an empty string). *)
Definition parseSetDelimiterTag (contents : string) (delimiterSet : DelimiterSet)
  : result (bool * DelimiterSet) :=
  if (String.length contents <? 5)%nat then Ret (false, delimiterSet)
  else
    match back contents with
    | None => Fault
    | Some last_ =>
        if negb (Ascii.eqb last_ "=") then Ret (false, delimiterSet)
        else
          let contentsSubstr := trim (substr contents 1 (String.length contents - 2)) in
          match find contentsSubstr " " 0 with
          | None => Ret (false, delimiterSet)
          | Some spacepos =>
              match find_first_not_of contentsSubstr " " (spacepos + 1) with
              | None => Fault
              | Some nonspace =>
                  let begin := substr contentsSubstr 0 spacepos in
                  let end' := substr contentsSubstr nonspace
                                (String.length contentsSubstr - nonspace) in
                  if negb (isSetDelimiterValid begin) || negb (isSetDelimiterValid end')
                  then Ret (false, delimiterSet)
                  else Ret (true, mkDelimiterSet begin end')
              end
          end
    end.

(** [name.erase(name.begin())]. *)
Definition erase_first (s : string) : string :=
  match s with
  | EmptyString => EmptyString
  | String _ rest => rest
  end.

Definition sigil_type (c : ascii) : Tag.Type_ :=
  if Ascii.eqb c "#" then Tag.SectionBegin
  else if Ascii.eqb c "^" then Tag.SectionBeginInverted
  else if Ascii.eqb c "/" then Tag.SectionEnd
  else if Ascii.eqb c ">" then Tag.Partial
  else if Ascii.eqb c "&" then Tag.UnescapedVariable
  else if Ascii.eqb c "!" then Tag.Comment
  else Tag.Variable_.

Definition set_name_type (t : Tag) (n : string) (ty : Tag.Type_) : Tag :=
  mkTag n ty (sectionText t) (delimiterSet t).

Definition parseTagContents (isUnescapedVar : bool) (contents : string) (tag : Tag) : Tag :=
  if isUnescapedVar then set_name_type tag contents Tag.UnescapedVariable
  else
    match contents with
    | EmptyString => set_name_type tag EmptyString Tag.Variable_
    | String c _ =>
        let ty := sigil_type c in
        if Tag.eqb ty Tag.Variable_ then set_name_type tag contents ty
        else set_name_type tag (trim (erase_first contents)) ty
    end.

(** ** parse (lines 477-577) *)

(** The locals of [parse] that live across iterations, with the two members
    it writes.  Both vectors are kept back first.

    [sections]: C++ appends an opened section to its parent's children and
    pushes a pointer to that last child; while the section is open every
    append goes to it or to its descendants, so it stays its parent's last
    child.  The model keeps each open section on the stack with the children
    it has so far and appends it to its parent when it is popped or when
    [parse] leaves the loop ([rootOf]); a parent on the stack lists the
    children that precede the open one. *)
Record ParseState : Type := mkParseState {
  ps_delimiterSet : DelimiterSet;       (* ctx.delimiterSet *)
  currentDelimiterIsBrace : bool;
  sections : list Component;
  sectionStarts : list nat;
  inputPosition : nat;
  ps_errorMessage : string              (* errorMessage_ *)
}.

Inductive LoopControl : Type :=
| Next      (* reached the end of the loop body *)
| Break     (* break *)
| Return.   (* return from parse *)

Fixpoint attach (inner : Component) (outer : list Component) : Component :=
  match outer with
  | [] => inner
  | parent :: rest => attach (push_back_child parent inner) rest
  end.

(** [rootComponent_] as the stack of open sections describes it. *)
Definition rootOf (secs : list Component) : Component :=
  match secs with
  | [] => emptyComponent
  | top :: rest => attach top rest
  end.

(** [sections.back()->children.push_back(comp)]. *)
Definition push_back_top (secs : list Component) (comp : Component)
  : result (list Component) :=
  match secs with
  | [] => Fault
  | top :: rest => Ret (push_back_child top comp :: rest)
  end.

Definition set_sectionText (c : Component) (t : string) : Component :=
  mkComponent (text c)
    (mkTag (name (tag c)) (type (tag c)) (Some t) (delimiterSet (tag c)))
    (children c) (position c).

(** Lines 491-502: the text in front of the next tag, or the remaining text.
    The result is the tag's start, [None] after [break]. *)
Definition parse_text (input : string) (st : ParseState)
  : result (option nat * list Component) :=
  let inputSize := String.length input in
  let pos := inputPosition st in
  match find input (begin_ (ps_delimiterSet st)) pos with
  | None =>
      secs <- push_back_top (sections st)
                (textComponent (substr input pos (inputSize - pos)) pos) ;;
      Ret (None, secs)
  | Some tagLocationStart =>
      if (tagLocationStart =? pos)%nat then Ret (Some tagLocationStart, sections st)
      else
        secs <- push_back_top (sections st)
                  (textComponent (substr input pos (tagLocationStart - pos)) pos) ;;
        Ret (Some tagLocationStart, secs)
  end.

(** Line 506, with its short-circuit order.  [tagLocationStart != inputSize - 2]
    is computed on unsigned offsets; on offsets that do not overflow it is
    [tagLocationStart + 2 <> inputSize], also when [inputSize < 2]. *)
Definition tagIsUnescapedVar (input : string) (st : ParseState) (tagLocationStart : nat)
  : result bool :=
  let begin := begin_ (ps_delimiterSet st) in
  let tagContentsLocation := tagLocationStart + String.length begin in
  if currentDelimiterIsBrace st
     && negb (tagLocationStart + 2 =? String.length input)%nat
  then
    match at_ input tagContentsLocation with
    | None => Fault
    | Some c =>
        match at_ begin 0 with
        | None => Fault
        | Some b => Ret (Ascii.eqb c b)
        end
    end
  else Ret false.

Definition braceDelimiterEndUnescaped : string := "}}}".

(** Lines 543-557, after the component was appended: push or pop sections. *)
Definition parse_sections (input : string) (comp : Component)
    (tagLocationStart : nat) (st : ParseState) : result (LoopControl * ParseState) :=
  if isSectionEnd (tag comp) then
    match sections st with
    | [] => Fault
    | [_] =>
        Ret (Return,
             mkParseState (ps_delimiterSet st) (currentDelimiterIsBrace st)
               (sections st) (sectionStarts st) (inputPosition st)
               ("Unopened section " ++ dquote ++ name (tag comp) ++ dquote
                  ++ " at " ++ dec_position (position comp)))
    | top :: parent :: rest =>
        match sectionStarts st with
        | [] => Fault
        | start :: starts =>
            let top' := set_sectionText top
                          (substr input start (tagLocationStart - start)) in
            Ret (Next,
                 mkParseState (ps_delimiterSet st) (currentDelimiterIsBrace st)
                   (push_back_child parent top' :: rest) starts
                   (inputPosition st) (ps_errorMessage st))
        end
    end
  else Ret (Next, st).

(** Lines 537-546: give the component its position, append it, move on, and
    open a section.  An opened section goes on the stack (see [ParseState]). *)
Definition parse_append (input : string) (st : ParseState) (secs : list Component)
    (delims : DelimiterSet) (brace : bool) (tag_ : Tag)
    (tagLocationStart next : nat) : result (LoopControl * ParseState) :=
  let comp := mkComponent "" tag_ [] (Some tagLocationStart) in
  if isSectionBegin tag_ then
    match secs with
    | [] => Fault
    | _ =>
        Ret (Next,
             mkParseState delims brace (comp :: secs) (next :: sectionStarts st)
               next (ps_errorMessage st))
    end
  else
    secs' <- push_back_top secs comp ;;
    parse_sections input comp tagLocationStart
      (mkParseState delims brace secs' (sectionStarts st) next (ps_errorMessage st)).

Definition fail_with (st : ParseState) (secs : list Component) (msg : string)
  : result (LoopControl * ParseState) :=
  Ret (Return,
       mkParseState (ps_delimiterSet st) (currentDelimiterIsBrace st) secs
         (sectionStarts st) (inputPosition st) msg).

(** Lines 504-541: one tag, from its start delimiter on. *)
Definition parse_tag (input : string) (st : ParseState) (secs : list Component)
    (tagLocationStart : nat) : result (LoopControl * ParseState) :=
  let delims := ps_delimiterSet st in
  unescaped <- tagIsUnescapedVar input st tagLocationStart ;;
  let currentTagDelimiterEnd :=
    if unescaped then braceDelimiterEndUnescaped else end_ delims in
  let currentTagDelimiterEndSize := String.length currentTagDelimiterEnd in
  let tagContentsLocation :=
    if unescaped then S (tagLocationStart + String.length (begin_ delims))
    else tagLocationStart + String.length (begin_ delims) in
  match find input currentTagDelimiterEnd tagContentsLocation with
  | None => fail_with st secs ("Unclosed tag at " ++ dec tagLocationStart)
  | Some tagLocationEnd =>
      let tagContents :=
        trim (substr input tagContentsLocation (tagLocationEnd - tagContentsLocation)) in
      let next := tagLocationEnd + currentTagDelimiterEndSize in
      match tagContents with
      | String "=" _ =>
          '(ok, delims') <- parseSetDelimiterTag tagContents delims ;;
          if negb ok
          then fail_with st secs ("Invalid set delimiter tag at " ++ dec tagLocationStart)
          else
            parse_append input st secs delims' (isDefault delims')
              (mkTag "" Tag.SetDelimiter None (Some delims'))
              tagLocationStart next
      | _ =>
          parse_append input st secs delims (currentDelimiterIsBrace st)
            (parseTagContents unescaped tagContents defaultTag)
            tagLocationStart next
      end
  end.

(** One iteration of the [while] loop. *)
Definition parse_step (input : string) (st : ParseState)
  : result (LoopControl * ParseState) :=
  '(found, secs) <- parse_text input st ;;
  match found with
  | None =>
      Ret (Break,
           mkParseState (ps_delimiterSet st) (currentDelimiterIsBrace st) secs
             (sectionStarts st) (inputPosition st) (ps_errorMessage st))
  | Some tagLocationStart => parse_tag input st secs tagLocationStart
  end.

(** The [while] loop; the result says whether [parse] returned from inside. *)
Fixpoint parse_loop (fuel : nat) (input : string) (st : ParseState)
  : result (bool * ParseState) :=
  if (inputPosition st =? String.length input)%nat then Ret (false, st)
  else
    match fuel with
    | 0 => OutOfFuel
    | S fuel' =>
        '(control, st') <- parse_step input st ;;
        match control with
        | Next => parse_loop fuel' input st'
        | Break => Ret (false, st')
        | Return => Ret (true, st')
        end
    end.

(** The locals of lines 483-488 on a fresh object, whose root has no children
    and whose message is empty. *)
Definition parse_init (ctx_delims : DelimiterSet) : ParseState :=
  mkParseState ctx_delims (isDefault ctx_delims) [emptyComponent] [] 0 "".

(** The callback of lines 561-573; it captures [errorMessage_]. *)
Definition checkSection : WalkCallback string :=
  fun comp err =>
    if negb (isSectionBegin (tag comp)) then Ret (Continue, comp, err)
    else
      match rev (children comp) with
      | [] =>
          Ret (Stop, comp,
               "Unclosed section " ++ dquote ++ name (tag comp) ++ dquote
                 ++ " at " ++ dec_position (position comp))
      | last_ :: _ =>
          if negb (isSectionEnd (tag last_))
             || negb (String.eqb (name (tag last_)) (name (tag comp)))
          then
            Ret (Stop, comp,
                 "Unclosed section " ++ dquote ++ name (tag comp) ++ dquote
                   ++ " at " ++ dec_position (position comp))
          else
            Ret (Continue,
                 mkComponent (text comp) (tag comp) (removelast (children comp))
                   (position comp),
                 err)
      end.

Fixpoint depth (c : Component) : nat :=
  match c with
  | mkComponent _ _ cs _ => S (list_max (map depth cs))
  end.

(** [parse(input, ctx)] on a fresh object: the template it leaves and
    [ctx.delimiterSet] afterwards.  An iteration that does not return moves
    [inputPosition] forward, so the loop makes at most [input.size()] of them;
    the walk descends no deeper than the tree. *)
Definition parse (input : string) (ctx_delims : DelimiterSet)
  : result (Template * DelimiterSet) :=
  '(returned, st) <- parse_loop (String.length input) input (parse_init ctx_delims) ;;
  let root := rootOf (sections st) in
  if (returned : bool) then Ret (mkTemplate (ps_errorMessage st) root, ps_delimiterSet st)
  else
    err <- walkChildren (depth root) checkSection root (ps_errorMessage st) ;;
    Ret (mkTemplate err root, ps_delimiterSet st).

(** [BasicMustache(input)]: parse under a fresh context. *)
Definition compile (input : string) : result Template :=
  '(tmpl, _) <- parse input defaultDelimiterSet ;;
  Ret tmpl.

(** ** Renderer (lines 695-811) *)

(** What a render callback captures by reference: the handler (the text it
    has received so far), the context, and [errorMessage_] of the template
    being rendered. *)
Record RenderState : Type := mkRenderState {
  out : string;
  ctx : Context;
  rs_errorMessage : string
}.

(** [handler(str)]. *)
Definition handler (st : RenderState) (str : string) : RenderState :=
  mkRenderState (out st ++ str) (ctx st) (rs_errorMessage st).

Definition set_errorMessage (st : RenderState) (msg : string) : RenderState :=
  mkRenderState (out st) (ctx st) msg.

Definition set_ctx (st : RenderState) (c : Context) : RenderState :=
  mkRenderState (out st) c (rs_errorMessage st).

Section RenderBody.

(** [renderComponent] one level further down, and the depth left to the
    walker at that level. *)
Variable renderComponent_rec : Component -> RenderState -> result (WalkControl * RenderState).
Variable fuel : nat.

(** The lambda of lines 696-698 and 797-799; it leaves its argument alone. *)
Definition renderCallback : WalkCallback RenderState :=
  fun comp st =>
    '(control, st') <- renderComponent_rec comp st ;;
    Ret (control, comp, st').

(** [tmpl.render(handler, ctx)] (line 695) on a template of its own: the
    text sent to [handler_out], the context and [tmpl.errorMessage_] after. *)
Definition render_template (tmpl : Template) (handler_out : string) (c : Context)
  : result RenderState :=
  walkChildren fuel renderCallback (rootComponent tmpl)
    (mkRenderState handler_out c (errorMessage tmpl)).

(** [renderLambda] for the function held by [var]. *)
Definition renderLambda (lambda : string -> string) (st : RenderState)
    (escaped : bool) (text_ : string) (parseWithSameContext : bool)
  : result (bool * RenderState) :=
  match callLambda lambda text_ with
  | DString lambdaResult =>
      '(tmpl, c) <-
         (if parseWithSameContext
          then '(t, d) <- parse lambdaResult (ctx_delimiterSet (ctx st)) ;;
               Ret (t, mkContext (items_ (ctx st)) d)
          else '(t, _) <- parse lambdaResult defaultDelimiterSet ;;
               Ret (t, ctx st)) ;;
      if negb (isValid tmpl)
      then Ret (false, mkRenderState (out st) c (errorMessage tmpl))
      else
        (* StringType render(Context&): a stream of its own *)
        sub <- render_template tmpl "" c ;;
        if negb (empty (rs_errorMessage sub))
        then Ret (false, mkRenderState (out st) (ctx sub) (rs_errorMessage sub))
        else
          Ret (true,
               mkRenderState
                 (out st ++ (if escaped then escape (out sub) else out sub))
                 (ctx sub) (rs_errorMessage st))
  | _ => Fault
  end.

Definition renderVariable (var : Data) (st : RenderState) (escaped : bool)
  : result (bool * RenderState) :=
  match var with
  | DString varstr => Ret (true, handler st (if escaped then escape varstr else varstr))
  | DLambda lambda => renderLambda lambda st escaped "" false
  | _ => Ret (true, st)
  end.

(** The loop of lines 801-804: a [ContextPusher] around each walk. *)
Fixpoint renderSection_list (incomp : Component) (l : list Data) (st : RenderState)
  : result RenderState :=
  match l with
  | [] => Ret st
  | item :: l' =>
      st' <- walkChildren fuel renderCallback incomp
               (set_ctx st (Context_push (ctx st) item)) ;;
      renderSection_list incomp l' (set_ctx st' (Context_pop (ctx st')))
  end.

Definition renderSection (st : RenderState) (incomp : Component) (var : option Data)
  : result RenderState :=
  match var with
  | Some v =>
      if isNonEmptyList v then
        match v with
        | DList l => renderSection_list incomp l st
        | _ => Fault
        end
      else
        st' <- walkChildren fuel renderCallback incomp
                 (set_ctx st (Context_push (ctx st) v)) ;;
        Ret (set_ctx st' (Context_pop (ctx st')))
  | None => walkChildren fuel renderCallback incomp st
  end.

(** Lines 742-758. *)
Definition renderPartial (st : RenderState) (tag_ : Tag) : result (WalkControl * RenderState) :=
  match Context_get_partial (ctx st) (name tag_) with
  | Some (DPartial partial) =>
      '(tmpl, _) <- parse (partial tt) defaultDelimiterSet ;;
      if negb (isValid tmpl)
      then Ret (Stop, set_errorMessage st (errorMessage tmpl))
      else
        sub <- render_template tmpl (out st) (ctx st) ;;
        if negb (empty (rs_errorMessage sub))
        then Ret (Stop, mkRenderState (out sub) (ctx sub) (rs_errorMessage sub))
        else Ret (Continue, mkRenderState (out sub) (ctx sub) (rs_errorMessage st))
  | _ => Ret (Continue, st)
  end.

Definition renderComponent_body (comp : Component) (st : RenderState)
  : result (WalkControl * RenderState) :=
  if isText comp then Ret (Continue, handler st (text comp))
  else
    let tag_ := tag comp in
    match type tag_ with
    | Tag.Variable_ | Tag.UnescapedVariable =>
        match Context_get (ctx st) (name tag_) with
        | Some var =>
            '(ok, st') <- renderVariable var st (Tag.eqb (type tag_) Tag.Variable_) ;;
            if (ok : bool) then Ret (Continue, st') else Ret (Stop, st')
        | None => Ret (Continue, st)
        end
    | Tag.SectionBegin =>
        match Context_get (ctx st) (name tag_) with
        | Some var =>
            match var with
            | DLambda lambda =>
                match sectionText tag_ with
                | None => Fault
                | Some text_ =>
                    '(ok, st') <- renderLambda lambda st false text_ true ;;
                    if (ok : bool) then Ret (Skip, st') else Ret (Stop, st')
                end
            | _ =>
                if negb (isFalse var) && negb (isEmptyList var) then
                  st' <- renderSection st comp (Some var) ;;
                  Ret (Skip, st')
                else Ret (Skip, st)
            end
        | None => Ret (Skip, st)
        end
    | Tag.SectionBeginInverted =>
        let var := Context_get (ctx st) (name tag_) in
        if match var with
           | None => true
           | Some v => isFalse v || isEmptyList v
           end
        then
          st' <- renderSection st comp var ;;
          Ret (Skip, st')
        else Ret (Skip, st)
    | Tag.Partial => renderPartial st tag_
    | Tag.SetDelimiter =>
        match delimiterSet tag_ with
        | None => Fault
        | Some d => Ret (Continue, set_ctx st (mkContext (items_ (ctx st)) d))
        end
    | _ => Ret (Continue, st)
    end.

End RenderBody.

(** [renderComponent]: the fuel pays for each level of nesting, of sections
    and of the templates that lambdas and partials bring in. *)
Fixpoint renderComponent (fuel : nat) (comp : Component) (st : RenderState)
  : result (WalkControl * RenderState) :=
  match fuel with
  | 0 => OutOfFuel
  | S fuel' => renderComponent_body (renderComponent fuel') fuel' comp st
  end.

(** [render(data, handler)] and [render(data)]: the rendered text, with
    [errorMessage_] as the render leaves it. *)
Definition render (fuel : nat) (tmpl : Template) (data : Data)
  : result (string * string) :=
  st <- render_template (renderComponent fuel) fuel tmpl "" (mkContext [data] defaultDelimiterSet) ;;
  Ret (out st, rs_errorMessage st).

(** The client sequence [BasicMustache tmpl{input}; tmpl.render(data)]. *)
Definition compile_render (fuel : nat) (input : string) (data : Data)
  : result (string * string) :=
  tmpl <- compile input ;;
  render fuel tmpl data.

(** ** The set-delimiter form, as the specification words it *)

(** [p] is the first position of [t] that holds a space. *)
Definition first_space (t : string) (p : nat) : Prop :=
  get p t = Some " "%char /\ forall i, i < p -> get i t <> Some " "%char.

(** [q] is the first position after [p] that holds something else. *)
Definition first_nonspace_after (t : string) (p q : nat) : Prop :=
  p < q /\ (exists c, get q t = Some c /\ c <> " "%char) /\
  forall i, p < i -> i < q -> get i t = Some " "%char.

Definition no_whitespace_no_equals (s : string) : Prop :=
  forall i c, get i s = Some c -> c <> "="%char /\ isspace c = false.

(** "=<begin> <end>=": at least five characters, the last one '='; the
    interior (first and last character stripped, then trimmed) has a space;
    [b] is what precedes the first space, [e] runs from the first non-space
    after it to the end; both are non-empty, free of whitespace and of '='. *)
Definition set_delimiter_form (contents b e : string) : Prop :=
  5 <= String.length contents /\
  back contents = Some "="%char /\
  let t := trim (substring 1 (String.length contents - 2) contents) in
  exists p q,
    first_space t p /\ first_nonspace_after t p q /\
    b = substring 0 p t /\ e = substring q (String.length t - q) t /\
    b <> EmptyString /\ e <> EmptyString /\
    no_whitespace_no_equals b /\ no_whitespace_no_equals e.

(** ** Name resolution, as the specification words it *)

(** From [d], every name of the list resolves in turn, and [v] is the last
    value reached. *)
Inductive resolves : Data -> list string -> Data -> Prop :=
| resolves_nil (d : Data) : resolves d [] d
| resolves_cons (d : Data) (n : string) (d' : Data) (names : list string) (v : Data) :
    Data_get d n = Some d' -> resolves d' names v -> resolves d (n :: names) v.

(** [v] is the value from the first frame in which every name resolves. *)
Definition first_frame_resolving (items : list Data) (names : list string) (v : Data)
  : Prop :=
  exists pre frame post,
    items = (pre ++ frame :: post)%list /\
    Forall (fun g => forall w, ~ resolves g names w) pre /\
    resolves frame names v.

Definition no_frame_resolving (items : list Data) (names : list string) : Prop :=
  Forall (fun g => forall w, ~ resolves g names w) items.

(** ** States of the parser named in the statements below *)

(** The innermost open component once the text in front of the tag that
    starts at [tagLocationStart] is in (lines 498-502). *)
Definition top_with_text (input : string) (st : ParseState) (top : Component)
    (tagLocationStart : nat) : Component :=
  if (tagLocationStart =? inputPosition st)%nat then top
  else push_back_child top
         (textComponent
            (substr input (inputPosition st) (tagLocationStart - inputPosition st))
            (inputPosition st)).

(** The state after an accepted set-delimiter tag, and after a rejected one. *)
Definition set_delimiter_accepted (st : ParseState) (top : Component)
    (rest : list Component) (tagLocationStart next : nat) (b e : string) : ParseState :=
  mkParseState (mkDelimiterSet b e) (isDefault (mkDelimiterSet b e))
    (push_back_child top
       (mkComponent ""
          (mkTag "" Tag.SetDelimiter None (Some (mkDelimiterSet b e)))
          [] (Some tagLocationStart)) :: rest)
    (sectionStarts st) next (ps_errorMessage st).

Definition set_delimiter_rejected (st : ParseState) (top : Component)
    (rest : list Component) (tagLocationStart : nat) : ParseState :=
  mkParseState (ps_delimiterSet st) (currentDelimiterIsBrace st) (top :: rest)
    (sectionStarts st) (inputPosition st)
    ("Invalid set delimiter tag at " ++ dec tagLocationStart).

(** The state after a tag that is neither a section tag nor a set-delimiter
    tag was appended (lines 537-541). *)
Definition tag_appended (st : ParseState) (top : Component) (rest : list Component)
    (tag_ : Tag) (tagLocationStart next : nat) : ParseState :=
  mkParseState (ps_delimiterSet st) (currentDelimiterIsBrace st)
    (push_back_child top (mkComponent "" tag_ [] (Some tagLocationStart)) :: rest)
    (sectionStarts st) next (ps_errorMessage st).

(** The state in which [parse] returns for a tag that has no end (line 517). *)
Definition unclosed_tag (st : ParseState) (top : Component) (rest : list Component)
    (tagLocationStart : nat) : ParseState :=
  mkParseState (ps_delimiterSet st) (currentDelimiterIsBrace st) (top :: rest)
    (sectionStarts st) (inputPosition st)
    ("Unclosed tag at " ++ dec tagLocationStart).

(** The state after a section-begin tag named [n] (lines 537-546): the new
    section is open and the offset after its tag is its start. *)
Definition section_opened (st : ParseState) (top : Component) (rest : list Component)
    (ty : Tag.Type_) (n : string) (tagLocationStart next : nat) : ParseState :=
  mkParseState (ps_delimiterSet st) (currentDelimiterIsBrace st)
    (mkComponent "" (mkTag n ty None None) [] (Some tagLocationStart) :: top :: rest)
    (next :: sectionStarts st) next (ps_errorMessage st).

(** The state after a section-end tag named [n] closed the open section
    [top], which started at [start] (lines 537-557). *)
Definition section_closed (input : string) (st : ParseState)
    (top parent : Component) (rest : list Component) (start : nat) (starts : list nat)
    (n : string) (tagLocationStart next : nat) : ParseState :=
  mkParseState (ps_delimiterSet st) (currentDelimiterIsBrace st)
    (push_back_child parent
       (set_sectionText
          (push_back_child top
             (mkComponent "" (mkTag n Tag.SectionEnd None None) []
                (Some tagLocationStart)))
          (substr input start (tagLocationStart - start))) :: rest)
    starts next (ps_errorMessage st).

(** ** Invariants of the parser *)

(** [currentDelimiterIsBrace] agrees with [isDefault()] of the context's
    delimiters. *)
Definition brace_consistent (st : ParseState) : Prop :=
  currentDelimiterIsBrace st = isDefault (ps_delimiterSet st).

(** What the loop of [parse] maintains: the flag agrees with the delimiters,
    [sectionStarts] has one entry per open section, both delimiters are
    non-empty, and the scan offset is inside the input. *)
Definition parse_inv (input : string) (st : ParseState) : Prop :=
  brace_consistent st /\
  S (List.length (sectionStarts st)) = List.length (sections st) /\
  begin_ (ps_delimiterSet st) <> EmptyString /\
  end_ (ps_delimiterSet st) <> EmptyString /\
  inputPosition st <= String.length input.

(** The loop gets from one state to another by iterations that reach the end
    of the loop body. *)
Inductive reaches (input : string) : ParseState -> ParseState -> Prop :=
| reaches_here (st : ParseState) : reaches input st st
| reaches_next (st st' st'' : ParseState) :
    inputPosition st <> String.length input ->
    parse_step input st = Ret (Next, st') ->
    reaches input st' st'' ->
    reaches input st st''.

(** ** Render states and outcomes named in the statements below *)

(** What [renderLambda] leaves for a section: the text of the sub-render is
    written as it is, or the sub-template's message is taken over. *)
Definition lambda_section_result (fuel : nat) (st : RenderState)
    (lambdaResult : string) : result (WalkControl * RenderState) :=
  '(tmpl, d) <- parse lambdaResult (ctx_delimiterSet (ctx st)) ;;
  if isValid tmpl then
    sub <- render_template (renderComponent fuel) fuel tmpl ""
             (mkContext (items_ (ctx st)) d) ;;
    if empty (rs_errorMessage sub)
    then Ret (Skip, mkRenderState (out st ++ out sub) (ctx sub) (rs_errorMessage st))
    else Ret (Stop, mkRenderState (out st) (ctx sub) (rs_errorMessage sub))
  else
    Ret (Stop, mkRenderState (out st) (mkContext (items_ (ctx st)) d) (errorMessage tmpl)).

(** Two render states hold the same stack of frames. *)
Definition same_items (s s' : RenderState) : Prop :=
  items_ (ctx s') = items_ (ctx s).

(** [r'] is [r] when [r] did not run out of fuel. *)
Definition le_result {A : Type} (r r' : result A) : Prop :=
  r = OutOfFuel \/ r = r'.

(** The inverted section "{{^f}}{{.}}{{/f}}" as the parser leaves it. *)
Definition inverted_f_dot : Component :=
  mkComponent "" (mkTag "f" Tag.SectionBeginInverted (Some "{{.}}") None)
    [ mkComponent "" (mkTag "." Tag.Variable_ None None) [] (Some 6);
      mkComponent "" (mkTag "f" Tag.SectionEnd None None) [] (Some 11) ]
    (Some 0).

(** A render state whose stack has the String "hello" above an object in
    which "f" is False. *)
Definition hello_over_f_false : RenderState :=
  mkRenderState ""
    (mkContext [DString "hello"; DObject [("f", DFalse)]] defaultDelimiterSet) "".

(** ** Observations on templates *)

(** An error message "contains" a text. *)
Definition contains (s sub : string) : bool :=
  match find s sub 0 with
  | Some _ => true
  | None => false
  end.

(** The tag types of a sequence of components. *)
Definition types_of (cs : list Component) : list Tag.Type_ :=
  map (fun c => type (tag c)) cs.

(** ** Data: the rest of the class (lines 104-283) *)

(** [Data()]: an empty object; [Data::List()]: an empty list. *)
Definition Data_default : Data := DObject [].
Definition Data_List : Data := DList [].

(** [Data(name, var)]: [Data{}] followed by [set(name, var)]. *)
Definition Data_named (name_ : string) (var : Data) : Data :=
  Data_set Data_default name_ var.

(** The move constructor: the new object and what is left of its source,
    whose [type_] becomes [Invalid]. *)
Definition Data_move (data : Data) : Data * Data := (data, DInvalid).

Definition isBool (d : Data) : bool := isTrue d || isFalse d.

(** [push_back] and [operator<<]. *)
Definition Data_push_back (d : Data) (var : Data) : Data :=
  match d with
  | DList l => DList (l ++ [var])%list
  | _ => d
  end.

(** [list()] and [stringValue()] dereference [list_] and [str_], which are
    null in a value of another type. *)
Definition Data_list (d : Data) : result (list Data) :=
  match d with
  | DList l => Ret l
  | _ => Fault
  end.

Definition Data_stringValue (d : Data) : result string :=
  match d with
  | DString str_ => Ret str_
  | _ => Fault
  end.

(** [operator[]], the map's own subscript on [obj_], which adds a
    default-constructed value for a key that is not there.  The result is the object afterwards and the
    value the returned reference denotes; [obj_] is null in a value of another
    type. *)
Definition Data_index (d : Data) (key : string) : result (Data * Data) :=
  match d with
  | DObject obj =>
      match obj_find obj key with
      | Some v => Ret (d, v)
      | None => Ret (DObject (obj ++ [(key, Data_default)])%list, Data_default)
      end
  | _ => Fault
  end.

(** ** Predicates on strings used in the statements below *)

Fixpoint string_forall (P : ascii -> bool) (s : string) : bool :=
  match s with
  | EmptyString => true
  | String c s' => P c && string_forall P s'
  end.

(** One of the five characters [escape] replaces. *)
Definition escaped_char (c : ascii) : bool :=
  Ascii.eqb c "&" || Ascii.eqb c "<" || Ascii.eqb c ">"
  || Ascii.eqb c "034" || Ascii.eqb c "'".

(** A character that never occurs in what [escape] returns. *)
Definition markup_char (c : ascii) : bool :=
  Ascii.eqb c "<" || Ascii.eqb c ">" || Ascii.eqb c "034" || Ascii.eqb c "'".

(** [s] ends with the character [c]. *)
Definition ends_with (s : string) (c : ascii) : bool :=
  match back s with
  | Some c' => Ascii.eqb c' c
  | None => false
  end.

(** A delimiter set as a set-delimiter tag may install it: both markers
    non-empty and passed by [isSetDelimiterValid]. *)
Definition delimiters_valid (d : DelimiterSet) : bool :=
  negb (empty (begin_ d)) && negb (empty (end_ d))
  && isSetDelimiterValid (begin_ d) && isSetDelimiterValid (end_ d).

(** ** The shape of a parsed tree *)

Definition nonempty_delims (d : DelimiterSet) : bool :=
  negb (empty (begin_ d)) && negb (empty (end_ d)).

(** The last child is a section-end tag; with [n], one of that name. *)
Definition last_is_section_end (cs : list Component) : bool :=
  match rev cs with
  | last_ :: _ => isSectionEnd (tag last_)
  | [] => false
  end.

Definition last_closes (n : string) (cs : list Component) : bool :=
  match rev cs with
  | last_ :: _ => isSectionEnd (tag last_) && String.eqb (name (tag last_)) n
  | [] => false
  end.

(** A component as a finished parse leaves it: a section has its section
    text and ends with a section-end tag (with [named], one of its own name),
    and its children are such components; a set-delimiter component carries
    non-empty delimiters; only sections have children. *)
Fixpoint complete (named : bool) (c : Component) : bool :=
  match c with
  | mkComponent _ t cs _ =>
      match type t with
      | Tag.SectionBegin | Tag.SectionBeginInverted =>
          match sectionText t with Some _ => true | None => false end
          && (if named then last_closes (name t) cs else last_is_section_end cs)
          && forallb (complete named) cs
      | Tag.SetDelimiter =>
          match delimiterSet t with
          | Some d => nonempty_delims d
          | None => false
          end
          && match cs with [] => true | _ => false end
      | _ => match cs with [] => true | _ => false end
      end
  end.

(** A section that is still open on the parser's stack. *)
Definition open_section (s : Component) : Prop :=
  isSectionBegin (tag s) = true /\ last_is_section_end (children s) = false.

(** The parser's stack: open sections above the root, the children gathered
    so far all complete. *)
Fixpoint stack_inv (secs : list Component) : Prop :=
  match secs with
  | [] => False
  | s :: rest =>
      forallb (complete false) (children s) = true /\
      match rest with
      | [] => True
      | _ => open_section s /\ stack_inv rest
      end
  end.

Definition tree_inv (st : ParseState) : Prop :=
  ps_errorMessage st = "" /\ stack_inv (sections st).

(** ** Outcomes that are not faults *)

(** The outcome is no fault, and a value that is returned satisfies [I]. *)
Definition safe {A : Type} (I : A -> Prop) (r : result A) : Prop :=
  match r with
  | Ret a => I a
  | OutOfFuel => True
  | Fault => False
  end.

(** The context of a render state holds non-empty delimiters. *)
Definition ctx_ok (st : RenderState) : Prop :=
  nonempty_delims (ctx_delimiterSet (ctx st)) = true.

(** Data that holds no lambda and no partial, at any depth. *)
Fixpoint plain (d : Data) : bool :=
  match d with
  | DObject obj => forallb (fun p => plain (snd p)) obj
  | DList l => forallb plain l
  | DPartial _ | DLambda _ => false
  | _ => true
  end.

(** A render state over plain frames whose error message is [e]. *)
Definition plain_state (e : string) (st : RenderState) : Prop :=
  forallb plain (items_ (ctx st)) = true /\ rs_errorMessage st = e.

(** A template whose one partial names the template itself. *)
Definition self_partial : Data := DObject [("p", DPartial (fun _ => "{{>p}}"))].

(** * Properties *)

(** ** Strings *)

Lemma get_substring_one (p : nat) (t : string) (c : ascii) :
  substring p 1 t = String c EmptyString -> get p t = Some c.
Proof.
  revert p; induction t as [|a t IH]; intros [|p]; simpl; try discriminate.
  - intros H; inversion H; reflexivity.
  - apply IH.
Qed.

Lemma substring_one_get (p : nat) (t : string) (c : ascii) :
  get p t = Some c -> substring p 1 t = String c EmptyString.
Proof.
  revert p; induction t as [|a t IH]; intros [|p]; simpl; try discriminate.
  - intros H; inversion H; destruct t; reflexivity.
  - apply IH.
Qed.

Lemma get_Some_lt (s : string) (i : nat) (c : ascii) :
  get i s = Some c -> i < String.length s.
Proof.
  revert i; induction s as [|a s IH]; intros [|i]; simpl; try discriminate; try lia.
  intros H; apply IH in H; lia.
Qed.

Lemma get_lt_Some (s : string) (i : nat) :
  i < String.length s -> exists c, get i s = Some c.
Proof.
  revert i; induction s as [|a s IH]; intros [|i]; simpl; try lia.
  - eauto.
  - intros H; apply IH; lia.
Qed.

(** [find] of a one-character needle returns the first position holding it. *)
Lemma find_char_Some (t : string) (c : ascii) (n p : nat) :
  find t (String c EmptyString) n = Some p ->
  n <= p /\ get p t = Some c /\ forall i, n <= i -> i < p -> get i t <> Some c.
Proof.
  unfold find; intros H; split; [|split].
  - revert n p H; induction t as [|a t IH]; intros [|n] p; simpl; try discriminate; try lia.
    destruct (index n (String c EmptyString) t) eqn:E; try discriminate.
    intros H; inversion H; subst. apply IH in E. lia.
  - apply get_substring_one. exact (index_correct1 _ _ _ _ H).
  - intros i Hn Hp Hget.
    apply (index_correct2 _ _ _ _ H i Hn Hp).
    simpl. apply substring_one_get; assumption.
Qed.

Lemma find_char_None (t : string) (c : ascii) (n i : nat) :
  find t (String c EmptyString) n = None -> n <= i -> get i t <> Some c.
Proof.
  unfold find; intros H Hn Hget.
  apply (index_correct3 n i _ _ H); [discriminate | assumption |].
  simpl. apply substring_one_get; assumption.
Qed.

(** [find_first_not_of] returns the first position at or after [pos] that
    holds another character. *)
Lemma find_first_not_of_Some (s : string) (ch : ascii) (pos q : nat) :
  find_first_not_of s ch pos = Some q ->
  pos <= q /\ (exists c, get q s = Some c /\ c <> ch) /\
  forall i, pos <= i -> i < q -> get i s = Some ch.
Proof.
  revert pos q; induction s as [|a s IH]; intros pos q; simpl; try discriminate.
  destruct pos as [|pos].
  - destruct (Ascii.eqb a ch) eqn:E.
    + destruct (find_first_not_of s ch 0) eqn:F; simpl; try discriminate.
      intros H; inversion H; subst. destruct (IH _ _ F) as (_ & Hc & Hall).
      split; [lia | split; [exact Hc |]].
      intros [|i] _ Hi; simpl.
      * apply Ascii.eqb_eq in E; subst; reflexivity.
      * apply Hall; lia.
    + intros H; inversion H; subst. split; [lia | split].
      * exists a; split; [reflexivity | apply Ascii.eqb_neq; assumption].
      * intros; lia.
  - destruct (find_first_not_of s ch pos) eqn:F; simpl; try discriminate.
    intros H; inversion H; subst. destruct (IH _ _ F) as (Hle & Hc & Hall).
    split; [lia | split; [exact Hc |]].
    intros [|i] Hi1 Hi2; [lia |]. simpl. apply Hall; lia.
Qed.

Lemma find_first_not_of_None (s : string) (ch : ascii) (pos i : nat) (c : ascii) :
  find_first_not_of s ch pos = None -> pos <= i -> get i s = Some c -> c = ch.
Proof.
  revert pos i; induction s as [|a s IH]; intros pos i; simpl; try discriminate.
  destruct pos as [|pos].
  - destruct (Ascii.eqb a ch) eqn:E; try discriminate.
    destruct (find_first_not_of s ch 0) eqn:F; simpl; try discriminate.
    intros _ _. destruct i as [|i].
    + intros H; inversion H; subst. apply Ascii.eqb_eq; assumption.
    + apply (IH 0 i F); lia.
  - destruct (find_first_not_of s ch pos) eqn:F; simpl; try discriminate.
    intros _ Hi. destruct i as [|i]; [lia |].
    apply (IH pos i F); lia.
Qed.

(** What [trim] leaves neither starts nor ends with whitespace. *)
Lemma rtrim_last (s : string) :
  rtrim s = EmptyString \/
  exists c, get (String.length (rtrim s) - 1) (rtrim s) = Some c /\ isspace c = false.
Proof.
  induction s as [|a s IH]; simpl; [left; reflexivity |].
  destruct (rtrim s) as [|b r] eqn:E.
  - destruct (isspace a) eqn:Ha; [left; reflexivity | right].
    exists a; split; [reflexivity | assumption].
  - right. destruct IH as [IH | (c & Hc & Hs)]; [discriminate |].
    exists c; split; [| assumption].
    replace (String.length (String a (String b r)) - 1)
      with (S (String.length (String b r) - 1)) by (simpl; lia).
    exact Hc.
Qed.

Lemma trim_last (s : string) :
  trim s = EmptyString \/
  exists c, get (String.length (trim s) - 1) (trim s) = Some c /\ isspace c = false.
Proof. apply rtrim_last. Qed.

Lemma ltrim_first (s : string) :
  match ltrim s with
  | EmptyString => True
  | String c _ => isspace c = false
  end.
Proof.
  induction s as [|a s IH]; simpl; [exact I |].
  destruct (isspace a) eqn:Ha; [exact IH | exact Ha].
Qed.

Lemma rtrim_first (s : string) (c : ascii) (r : string) :
  rtrim s = String c r -> exists s', s = String c s'.
Proof.
  destruct s as [|a s]; simpl; [discriminate |].
  destruct (rtrim s); [destruct (isspace a); try discriminate |];
    intros H; inversion H; subst; eauto.
Qed.

Lemma trim_first (s : string) :
  match trim s with
  | EmptyString => True
  | String c _ => isspace c = false
  end.
Proof.
  unfold trim. destruct (rtrim (ltrim s)) as [|c r] eqn:E; [exact I |].
  destruct (rtrim_first _ _ _ E) as (s' & Hs').
  pose proof (ltrim_first s) as H. rewrite Hs' in H. exact H.
Qed.

Lemma substring_nonempty (s : string) (n m : nat) :
  0 < m -> n < String.length s -> substring n m s <> EmptyString.
Proof.
  intros Hm Hn E.
  pose proof (substring_correct1 s n m 0 Hm) as H.
  rewrite E in H; simpl in H.
  destruct (get_lt_Some s n Hn) as (c & Hc). congruence.
Qed.

Lemma isspace_space : isspace " " = true.
Proof. reflexivity. Qed.

(** ** The set-delimiter tag *)

(** In a trimmed string every space is followed by another character. *)
Lemma nonspace_after_space (s : string) (spacepos : nat) :
  find (trim s) " " 0 = Some spacepos ->
  exists nonspace, find_first_not_of (trim s) " " (spacepos + 1) = Some nonspace.
Proof.
  intros Hfind.
  destruct (find_char_Some _ _ _ _ Hfind) as (_ & Hsp & _).
  destruct (trim_last s) as [Hempty | (c & Hc & Hns)].
  - rewrite Hempty in Hsp; discriminate.
  - set (t := trim s) in *.
    destruct (find_first_not_of t " " (spacepos + 1)) as [q|] eqn:F; [eauto |].
    assert (Hlt : spacepos < String.length t)
      by (eapply get_Some_lt; eassumption).
    assert (Hne : spacepos <> String.length t - 1).
    { intros E. rewrite <- E in Hc. rewrite Hsp in Hc. inversion Hc; subst.
      rewrite isspace_space in Hns; discriminate. }
    assert (c = " "%char)
      by (eapply find_first_not_of_None; [exact F | | exact Hc]; lia).
    subst c. rewrite isspace_space in Hns; discriminate.
Qed.

Lemma back_Some (contents : string) :
  5 <= String.length contents -> exists c, back contents = Some c.
Proof. intros H. unfold back. apply get_lt_Some. lia. Qed.

(** Neither [back()] nor the [assert] of [parseSetDelimiterTag] goes wrong. *)
Lemma parseSetDelimiterTag_no_fault (contents : string) (d : DelimiterSet) :
  parseSetDelimiterTag contents d <> Fault.
Proof.
  unfold parseSetDelimiterTag.
  destruct (String.length contents <? 5)%nat eqn:L; [discriminate |].
  apply Nat.ltb_ge in L. destruct (back_Some contents L) as (c & ->).
  destruct (negb (Ascii.eqb c "=")); [discriminate |].
  destruct (find _ " " 0) as [spacepos|] eqn:F; [| discriminate].
  destruct (nonspace_after_space _ _ F) as (q & ->).
  destruct (_ || _); discriminate.
Qed.

(** C10: once the length, the trailing '=' and the space in the trimmed
    interior are checked, [find_first_not_of(' ', spacepos + 1)] finds a
    position, so [assert(nonspace != npos)] holds and [parseSetDelimiterTag]
    never stops at it. *)
Theorem parseSetDelimiterTag_assert_holds (contents : string) (spacepos : nat) :
  5 <= String.length contents ->
  back contents = Some "="%char ->
  find (trim (substr contents 1 (String.length contents - 2))) " " 0 = Some spacepos ->
  (exists nonspace,
      find_first_not_of (trim (substr contents 1 (String.length contents - 2)))
        " " (spacepos + 1) = Some nonspace) /\
  forall d, parseSetDelimiterTag contents d <> Fault.
Proof.
  intros _ _ Hfind. split.
  - apply nonspace_after_space; assumption.
  - intros d; apply parseSetDelimiterTag_no_fault.
Qed.

Lemma parseSetDelimiterTag_assert_holds_witness :
  (exists nonspace,
      find_first_not_of (trim (substr "=<% %>=" 1 (String.length "=<% %>=" - 2)))
        " " (2 + 1) = Some nonspace) /\
  forall d, parseSetDelimiterTag "=<% %>=" d <> Fault.
Proof.
  apply (parseSetDelimiterTag_assert_holds "=<% %>=" 2).
  - simpl; lia.
  - reflexivity.
  - reflexivity.
Defined.

Lemma isSetDelimiterValid_spec (s : string) :
  isSetDelimiterValid s = true <-> no_whitespace_no_equals s.
Proof.
  unfold no_whitespace_no_equals. induction s as [|a s IH]; simpl.
  - split; [intros _ [|i] c; discriminate | reflexivity].
  - destruct (Ascii.eqb a "=") eqn:Ea; simpl.
    + split; [discriminate |]. intros H.
      destruct (H 0 a eq_refl) as [Hne _].
      apply Ascii.eqb_eq in Ea; contradiction.
    + destruct (isspace a) eqn:Hs.
      * split; [discriminate |]. intros H.
        destruct (H 0 a eq_refl) as [_ Hf]; congruence.
      * rewrite IH. split.
        -- intros H [|i] c Hc.
           ++ inversion Hc; subst. split; [apply Ascii.eqb_neq |]; assumption.
           ++ apply (H i c Hc).
        -- intros H i c Hc. apply (H (S i) c Hc).
Qed.

Lemma first_space_find (t : string) (p : nat) :
  first_space t p <-> find t " " 0 = Some p.
Proof.
  split.
  - intros [Hp Hfirst].
    destruct (find t " " 0) as [p'|] eqn:F.
    + destruct (find_char_Some _ _ _ _ F) as (_ & Hp' & Hfirst').
      f_equal. destruct (Nat.lt_trichotomy p' p) as [H | [H | H]]; [| assumption |].
      * exfalso; apply (Hfirst p' H Hp').
      * exfalso; apply (Hfirst' p); [lia | assumption | assumption].
    + exfalso; apply (find_char_None _ _ _ p F); [lia | assumption].
  - intros F. destruct (find_char_Some _ _ _ _ F) as (_ & Hp & Hfirst).
    split; [assumption |]. intros i Hi; apply Hfirst; [lia | assumption].
Qed.

Lemma first_nonspace_after_find (t : string) (p q : nat) :
  first_nonspace_after t p q <-> find_first_not_of t " " (p + 1) = Some q.
Proof.
  split.
  - intros (Hlt & (c & Hc & Hne) & Hbetween).
    destruct (find_first_not_of t " " (p + 1)) as [q'|] eqn:F.
    + destruct (find_first_not_of_Some _ _ _ _ F) as (Hle & (c' & Hc' & Hne') & Hall).
      f_equal. destruct (Nat.lt_trichotomy q' q) as [H | [H | H]]; [| assumption |].
      * exfalso. rewrite (Hbetween q') in Hc' by lia. congruence.
      * exfalso. rewrite (Hall q) in Hc by lia. congruence.
    + exfalso. apply Hne. eapply find_first_not_of_None; [exact F | | exact Hc]. lia.
  - intros F.
    destruct (find_first_not_of_Some _ _ _ _ F) as (Hle & Hc & Hall).
    split; [lia | split; [assumption |]].
    intros i H1 H2; apply Hall; lia.
Qed.

(** The two markers a well-formed interior yields are never empty. *)
Lemma markers_nonempty (s : string) (p q : nat) :
  find (trim s) " " 0 = Some p ->
  find_first_not_of (trim s) " " (p + 1) = Some q ->
  substr (trim s) 0 p <> EmptyString /\
  substr (trim s) q (String.length (trim s) - q) <> EmptyString.
Proof.
  intros Fp Fq.
  destruct (find_char_Some _ _ _ _ Fp) as (_ & Hp & _).
  destruct (find_first_not_of_Some _ _ _ _ Fq) as (_ & (c & Hc & _) & _).
  pose proof (get_Some_lt _ _ _ Hp) as Lp.
  pose proof (get_Some_lt _ _ _ Hc) as Lq.
  split; apply substring_nonempty; try lia.
  destruct p as [|p]; [| lia].
  pose proof (trim_first s) as Hfirst.
  destruct (trim s) as [|a r]; [discriminate |].
  simpl in Hp; inversion Hp; subst. rewrite isspace_space in Hfirst; discriminate.
Qed.

(** [parseSetDelimiterTag] accepts exactly the tags of the specified form,
    with the markers the form names, and otherwise leaves the set alone. *)
Lemma parseSetDelimiterTag_spec (contents : string) (d : DelimiterSet) :
  (forall b e,
      parseSetDelimiterTag contents d = Ret (true, mkDelimiterSet b e)
      <-> set_delimiter_form contents b e) /\
  ((exists b e, set_delimiter_form contents b e) \/
   parseSetDelimiterTag contents d = Ret (false, d)).
Proof.
  assert (Hfwd : forall b e,
             parseSetDelimiterTag contents d = Ret (true, mkDelimiterSet b e) ->
             set_delimiter_form contents b e).
  { intros b e. unfold parseSetDelimiterTag, set_delimiter_form.
    destruct (String.length contents <? 5)%nat eqn:L; [discriminate |].
    apply Nat.ltb_ge in L. destruct (back contents) as [c|]; [| discriminate].
    destruct (Ascii.eqb c "=") eqn:Ec; simpl; [| discriminate].
    apply Ascii.eqb_eq in Ec; subst c.
    unfold substr. set (t := trim _).
    destruct (find t " " 0) as [p|] eqn:Fp; [| discriminate].
    destruct (find_first_not_of t " " (p + 1)) as [q|] eqn:Fq; [| discriminate].
    destruct (isSetDelimiterValid (substring 0 p t)) eqn:Vb; simpl; [| discriminate].
    destruct (isSetDelimiterValid (substring q (String.length t - q) t)) eqn:Ve;
      simpl; [| discriminate].
    intros H; inversion H; subst b e.
    destruct (markers_nonempty _ _ _ Fp Fq) as [Nb Ne].
    split; [assumption | split; [reflexivity |]].
    exists p, q.
    split; [apply first_space_find; assumption |].
    split; [apply first_nonspace_after_find; assumption |].
    split; [reflexivity |]. split; [reflexivity |].
    split; [exact Nb |]. split; [exact Ne |].
    split; apply isSetDelimiterValid_spec; assumption. }
  assert (Hbwd : forall b e,
             set_delimiter_form contents b e ->
             parseSetDelimiterTag contents d = Ret (true, mkDelimiterSet b e)).
  { intros b e (L & Hback & p & q & Hp & Hq & Hb & He & _ & _ & Vb & Ve).
    unfold parseSetDelimiterTag.
    apply Nat.ltb_ge in L; rewrite L, Hback. simpl.
    apply first_space_find in Hp. apply first_nonspace_after_find in Hq.
    unfold substr. rewrite Hp, Hq.
    apply isSetDelimiterValid_spec in Vb, Ve. rewrite <- Hb, <- He, Vb, Ve.
    reflexivity. }
  split; [intros b e; split; auto |].
  destruct (parseSetDelimiterTag contents d) as [[[|] [b e]] | |] eqn:P.
  - left; eauto.
  - right. revert P. unfold parseSetDelimiterTag.
    repeat match goal with
           | |- context [if ?c then _ else _] => destruct c
           | |- context [match ?c with _ => _ end] => destruct c
           end; intros P; inversion P; reflexivity.
  - exfalso. revert P. unfold parseSetDelimiterTag.
    destruct (String.length contents <? 5)%nat; [discriminate |].
    destruct (back contents); [| discriminate].
    destruct (negb _); [discriminate |].
    destruct (find _ " " 0); [| discriminate].
    destruct (find_first_not_of _ _ _); [| discriminate].
    destruct (_ || _); discriminate.
  - exfalso; apply (parseSetDelimiterTag_no_fault contents d P).
Qed.

(** ** One iteration of the parser on a tag *)

Section ParseStep.

Variable input : string.
Variable st : ParseState.
Variables (top : Component) (rest : list Component).
Variable tagLocationStart : nat.

Hypothesis Hsections : sections st = top :: rest.
Hypothesis Hbegin :
  find input (begin_ (ps_delimiterSet st)) (inputPosition st) = Some tagLocationStart.

Lemma parse_step_tag :
  parse_step input st =
    parse_tag input st (top_with_text input st top tagLocationStart :: rest)
      tagLocationStart.
Proof.
  unfold parse_step, parse_text, top_with_text. rewrite Hbegin, Hsections.
  destruct (tagLocationStart =? inputPosition st)%nat; reflexivity.
Qed.

(** A [return] inside the loop body ends the loop at once. *)
Lemma parse_loop_Return (fuel : nat) (st' : ParseState) :
  inputPosition st <> String.length input ->
  parse_step input st = Ret (Return, st') ->
  parse_loop (S fuel) input st = Ret (true, st').
Proof.
  intros Hpos Hstep. simpl.
  apply Nat.eqb_neq in Hpos; rewrite Hpos, Hstep. reflexivity.
Qed.

End ParseStep.


(** ** The triple-mustache form *)

Lemma find_within (s needle : string) (pos m : nat) (i : nat) :
  find s needle pos = Some m -> i < String.length needle ->
  get (m + i) s = get i needle.
Proof.
  unfold find; intros H Hi.
  pose proof (index_correct1 _ _ _ _ H) as Hsub.
  transitivity (get i (substring m (String.length needle) s));
    [| rewrite Hsub; reflexivity].
  rewrite substring_correct1 by assumption. f_equal; lia.
Qed.

Lemma find_bound (s needle : string) (pos m : nat) :
  find s needle pos = Some m -> m + String.length needle <= String.length s.
Proof.
  intros H. destruct needle as [|c nd].
  - unfold find in H. simpl. rewrite Nat.add_0_r.
    revert pos m H; induction s as [|a s IH]; intros [|pos] m; simpl.
    + intros H; inversion H; lia.
    + discriminate.
    + intros H; inversion H; lia.
    + destruct (index pos "" s) eqn:E; [| discriminate].
      intros H; inversion H; subst. apply IH in E; lia.
  - set (needle := String c nd) in *.
    assert (Hn : String.length nd < String.length needle) by (simpl; lia).
    pose proof (find_within _ _ _ _ _ H Hn) as Hget.
    destruct (get_lt_Some needle _ Hn) as (c' & Hc).
    rewrite Hc in Hget. apply get_Some_lt in Hget. simpl; lia.
Qed.

Lemma isDefault_true (d : DelimiterSet) :
  isDefault d = true -> begin_ d = "{{" /\ end_ d = "}}".
Proof.
  unfold isDefault. intros H. apply andb_prop in H as [Hb He].
  apply String.eqb_eq in Hb, He. auto.
Qed.

(** The test of line 506 in closed form; under the loop's own bookkeeping it
    never reaches an [at()] that throws. *)
Lemma tagIsUnescapedVar_eq (input : string) (st : ParseState) (ts : nat) :
  currentDelimiterIsBrace st = isDefault (ps_delimiterSet st) ->
  find input (begin_ (ps_delimiterSet st)) (inputPosition st) = Some ts ->
  tagIsUnescapedVar input st ts =
    Ret (isDefault (ps_delimiterSet st)
         && negb (ts + 2 =? String.length input)%nat
         && match at_ input (ts + String.length (begin_ (ps_delimiterSet st))) with
            | Some c => Ascii.eqb c "{"
            | None => false
            end).
Proof.
  intros Hbrace Hfind. unfold tagIsUnescapedVar. rewrite Hbrace.
  destruct (isDefault (ps_delimiterSet st)) eqn:D; [| reflexivity].
  destruct (isDefault_true _ D) as [Hb _]. rewrite Hb in *. simpl andb.
  destruct (ts + 2 =? String.length input)%nat eqn:E; [reflexivity |]. simpl.
  apply Nat.eqb_neq in E. pose proof (find_bound _ _ _ _ Hfind) as B. simpl in B.
  destruct (get_lt_Some input (ts + 2)) as (c & Hc); [lia |].
  unfold at_. rewrite Hc. reflexivity.
Qed.

Lemma parse_sections_brace input comp ts st control st' :
  brace_consistent st ->
  parse_sections input comp ts st = Ret (control, st') -> brace_consistent st'.
Proof.
  unfold parse_sections, brace_consistent. intros Hb.
  destruct (isSectionEnd (tag comp)).
  - destruct (sections st) as [|top [|parent rest]]; try discriminate.
    + intros H; inversion H; subst; exact Hb.
    + destruct (sectionStarts st); try discriminate.
      intros H; inversion H; subst; exact Hb.
  - intros H; inversion H; subst; exact Hb.
Qed.

Lemma parse_append_brace input st secs delims brace tag_ ts next control st' :
  brace = isDefault delims ->
  parse_append input st secs delims brace tag_ ts next = Ret (control, st') ->
  brace_consistent st'.
Proof.
  unfold parse_append. intros Hb.
  destruct (isSectionBegin tag_).
  - destruct secs; try discriminate. intros H; inversion H; subst; reflexivity.
  - destruct (push_back_top secs _) as [secs'| |]; simpl; try discriminate.
    apply parse_sections_brace. exact Hb.
Qed.

Lemma parse_step_brace (input : string) (st : ParseState) control st' :
  brace_consistent st ->
  parse_step input st = Ret (control, st') -> brace_consistent st'.
Proof.
  intros Hb. unfold parse_step.
  destruct (parse_text input st) as [[[ts|] secs]| |]; simpl; try discriminate.
  - unfold parse_tag.
    destruct (tagIsUnescapedVar input st ts) as [u| |]; simpl; try discriminate.
    destruct (find input _ _) as [te|].
    + destruct (trim _) as [|a r].
      * apply parse_append_brace; exact Hb.
      * destruct (Ascii.ascii_dec a "=") as [-> | Hne].
        -- destruct (parseSetDelimiterTag _ _) as [[[|] d']| |]; simpl; try discriminate.
           ++ apply parse_append_brace; reflexivity.
           ++ unfold fail_with. intros H; inversion H; subst; exact Hb.
        -- assert (Hm : forall (X : Type) (x y : X),
                      match a with "="%char => x | _ => y end = y).
           { intros X x y. destruct a as [[] [] [] [] [] [] [] []];
               try reflexivity; contradiction Hne; reflexivity. }
           rewrite Hm. apply parse_append_brace; exact Hb.
    + unfold fail_with. intros H; inversion H; subst; exact Hb.
  - intros H; inversion H; subst; exact Hb.
Qed.

Lemma parse_init_brace (d : DelimiterSet) : brace_consistent (parse_init d).
Proof. reflexivity. Qed.

Lemma match_not_equals_sign (X : Type) (contents : string) (x : string -> X) (y : X) :
  (forall c, contents <> String "=" c) ->
  match contents with
  | String "=" r => x r
  | _ => y
  end = y.
Proof.
  intros H. destruct contents as [|a r]; [reflexivity |].
  destruct a as [[] [] [] [] [] [] [] []]; try reflexivity.
  exfalso; apply (H r); reflexivity.
Qed.

Lemma equals_sign_dec (contents : string) :
  (exists r, contents = String "=" r) \/ (forall c, contents <> String "=" c).
Proof.
  destruct contents as [|a r]; [right; discriminate |].
  destruct (Ascii.ascii_dec a "=") as [-> | Hne]; [left; eauto | right].
  intros c H; inversion H; contradiction.
Qed.

(** C5, as the code has it: the triple-mustache form is recognized exactly
    when the delimiters are the default ones, the tag does not start at the
    last two bytes and the character after the begin delimiter is '{'; the
    end marker is then "}}}", and, unless the trimmed contents begin with '='
    (such a tag is a set-delimiter tag), the tag is an UnescapedVariable named
    by the whole trimmed contents; under other delimiters the form is not
    recognized. *)
Theorem triple_mustache_form
    (input : string) (st : ParseState) (top : Component) (rest : list Component)
    (tagLocationStart : nat) :
  let delims := ps_delimiterSet st in
  let recognized :=
    isDefault delims
    && negb (tagLocationStart + 2 =? String.length input)%nat
    && match at_ input (tagLocationStart + String.length (begin_ delims)) with
       | Some c => Ascii.eqb c "{"
       | None => false
       end in
  let top' := top_with_text input st top tagLocationStart in
  sections st = top :: rest ->
  brace_consistent st ->
  find input (begin_ delims) (inputPosition st) = Some tagLocationStart ->
  tagIsUnescapedVar input st tagLocationStart = Ret recognized /\
  (recognized = true ->
   match find input "}}}" (tagLocationStart + 3) with
   | None =>
       parse_step input st = Ret (Return, unclosed_tag st top' rest tagLocationStart)
   | Some tagLocationEnd =>
       let contents :=
         trim (substr input (tagLocationStart + 3)
                 (tagLocationEnd - (tagLocationStart + 3))) in
       (forall c, contents <> String "=" c) ->
       parse_step input st =
         Ret (Next,
              tag_appended st top' rest
                (mkTag contents Tag.UnescapedVariable None None)
                tagLocationStart (tagLocationEnd + 3))
   end) /\
  (isDefault delims = false ->
   tagIsUnescapedVar input st tagLocationStart = Ret false).
Proof.
  intros delims recognized top' Hsec Hbrace Hbegin.
  pose proof (tagIsUnescapedVar_eq input st tagLocationStart Hbrace Hbegin) as Hun.
  fold delims in Hun. fold recognized in Hun.
  split; [exact Hun | split].
  - intros Hrec.
    assert (D : isDefault delims = true).
    { unfold recognized in Hrec. destruct (isDefault delims); [reflexivity |].
      discriminate. }
    destruct (isDefault_true _ D) as [Hb _].
    rewrite (parse_step_tag input st top rest tagLocationStart Hsec Hbegin).
    fold top'. unfold parse_tag. rewrite Hun, Hrec. simpl bind. cbv iota.
    fold delims. rewrite Hb.
    replace (S (tagLocationStart + String.length "{{")) with (tagLocationStart + 3)
      by (simpl; lia).
    unfold braceDelimiterEndUnescaped.
    destruct (find input "}}}" (tagLocationStart + 3)) as [te|]; [| reflexivity].
    intros Hne. rewrite (match_not_equals_sign _ _ _ _ Hne). reflexivity.
  - intros D. rewrite Hun. unfold recognized. rewrite D. reflexivity.
Qed.

Lemma triple_mustache_form_witness :
  parse_step "{{{x}}}" (parse_init defaultDelimiterSet) =
    Ret (Next,
         tag_appended (parse_init defaultDelimiterSet) emptyComponent []
           (mkTag "x" Tag.UnescapedVariable None None) 0 7).
Proof.
  destruct (triple_mustache_form "{{{x}}}" (parse_init defaultDelimiterSet)
              emptyComponent [] 0 eq_refl eq_refl eq_refl) as (_ & H & _).
  apply (H eq_refl). intros c; discriminate.
Defined.

(** C5 as stated fails on a triple-mustache tag whose contents begin with
    '=': in "{{{=a b=}}}" the form is recognized and "}}}" ends the tag, yet
    the component is a SetDelimiter that installs "a" and "b", not an
    UnescapedVariable named "=a b=". *)
Lemma triple_mustache_set_delimiter_counterexample :
  tagIsUnescapedVar "{{{=a b=}}}" (parse_init defaultDelimiterSet) 0 = Ret true /\
  find "{{{=a b=}}}" braceDelimiterEndUnescaped 3 = Some 8 /\
  trim (substr "{{{=a b=}}}" 3 (8 - 3)) = "=a b=" /\
  parse_step "{{{=a b=}}}" (parse_init defaultDelimiterSet) =
    Ret (Next,
         set_delimiter_accepted (parse_init defaultDelimiterSet) emptyComponent []
           0 11 "a" "b") /\
  parse_step "{{{=a b=}}}" (parse_init defaultDelimiterSet) <>
    Ret (Next,
         tag_appended (parse_init defaultDelimiterSet) emptyComponent []
           (mkTag "=a b=" Tag.UnescapedVariable None None) 0 11).
Proof.
  repeat split; try reflexivity. vm_compute. discriminate.
Qed.

(** ** Parse errors *)

(** When the loop returned, [parse] reports the message of that iteration
    and does not run the check for unclosed sections. *)
Lemma parse_returned (input : string) (d : DelimiterSet) (st : ParseState) :
  parse_loop (String.length input) input (parse_init d) = Ret (true, st) ->
  parse input d =
    Ret (mkTemplate (ps_errorMessage st) (rootOf (sections st)), ps_delimiterSet st).
Proof. intros H. unfold parse. rewrite H. reflexivity. Qed.

(** C7: the three malformed templates of the specification give the stated
    messages with the offset of the offending tag, and the template is
    invalid; of several errors only the first is reported, and nothing after
    it enters the tree. *)
Theorem parse_error_messages :
  (exists tmpl,
      compile "abc{{unterminated" = Ret tmpl /\
      errorMessage tmpl = "Unclosed tag at 3" /\
      isValid tmpl = false /\
      types_of (children (rootComponent tmpl)) = [Tag.Invalid]) /\
  (exists tmpl,
      compile "{{#a}}x" = Ret tmpl /\
      errorMessage tmpl = "Unclosed section " ++ dquote ++ "a" ++ dquote ++ " at 0" /\
      contains (errorMessage tmpl) ("Unclosed section " ++ dquote ++ "a" ++ dquote) = true /\
      isValid tmpl = false) /\
  (exists tmpl,
      compile "{{/a}}" = Ret tmpl /\
      errorMessage tmpl = "Unopened section " ++ dquote ++ "a" ++ dquote ++ " at 0" /\
      contains (errorMessage tmpl) ("Unopened section " ++ dquote ++ "a" ++ dquote) = true /\
      isValid tmpl = false) /\
  (exists tmpl,
      compile "{{/a}}{{#b}}{{=x}}{{unterminated" = Ret tmpl /\
      errorMessage tmpl = "Unopened section " ++ dquote ++ "a" ++ dquote ++ " at 0" /\
      isValid tmpl = false /\
      types_of (children (rootComponent tmpl)) = [Tag.SectionEnd]).
Proof.
  repeat split; eexists; (split; [vm_compute; reflexivity | repeat split]).
Qed.

(** C3 fails on the code: after a successful parse of "{{#a}}x{{/a}}" the
    section still ends in its SectionEnd child.  The callback pops the child
    of the copy the walker handed it. *)
Theorem section_end_child_retained :
  exists tmpl section,
    compile "{{#a}}x{{/a}}" = Ret tmpl /\
    errorMessage tmpl = "" /\
    children (rootComponent tmpl) = [section] /\
    type (tag section) = Tag.SectionBegin /\
    types_of (children section) = [Tag.Invalid; Tag.SectionEnd].
Proof.
  do 2 eexists. split; [vm_compute; reflexivity |]. repeat split.
Qed.

(** The walk of [parse] leaves the tree as the loop built it, whatever the
    callback does to its copies. *)
Lemma parse_tree_is_loop_tree (input : string) (d : DelimiterSet)
    (returned : bool) (st : ParseState) (tmpl : Template) (d' : DelimiterSet) :
  parse_loop (String.length input) input (parse_init d) = Ret (returned, st) ->
  parse input d = Ret (tmpl, d') ->
  rootComponent tmpl = rootOf (sections st).
Proof.
  intros Hloop. unfold parse. rewrite Hloop. simpl bind.
  destruct returned.
  - intros H; inversion H; reflexivity.
  - destruct (walkChildren _ _ _ _); simpl; try discriminate.
    intros H; inversion H; reflexivity.
Qed.

(** ** Errors of partials and lambdas *)

(** C2 fails on the code.  At the top level a partial that does not parse
    stops the render; inside a section body the same failure sets the message
    and ends that walk of the body only, and the text after the section is
    still written.  The same holds for a lambda. *)
Theorem sub_template_error_inside_section (fuel : nat) :
  let broken := DPartial (fun _ => "{{") in
  compile_render (3 + fuel) "{{>p}}after" (DObject [("p", broken)])
    = Ret ("", "Unclosed tag at 0") /\
  compile_render (3 + fuel) "{{#s}}{{>p}}{{/s}}after"
      (DObject [("s", DTrue); ("p", broken)])
    = Ret ("after", "Unclosed tag at 0") /\
  compile_render (3 + fuel) "{{#s}}{{#l}}x{{/l}}{{/s}}after"
      (DObject [("s", DTrue); ("l", DLambda (fun _ => "{{"))])
    = Ret ("after", "Unclosed tag at 0") /\
  compile_render (3 + fuel) "{{#xs}}{{.}}{{>p}}{{/xs}}after"
      (DObject [("xs", DList [DString "1"; DString "2"]); ("p", broken)])
    = Ret ("12after", "Unclosed tag at 0").
Proof.
  repeat split; vm_compute; reflexivity.
Qed.

(** ** Escaping *)

Lemma escape_app (s t : string) : escape (s ++ t) = escape s ++ escape t.
Proof.
  induction s as [|c s IH]; simpl; [reflexivity |].
  rewrite IH. generalize (escape_char c) as e. clear.
  induction e as [|a e IHe]; simpl; [reflexivity | rewrite IHe; reflexivity].
Qed.

(** The replacement of one character, by character code. *)
Lemma escape_char_code (ch : ascii) :
  escape_char ch =
    match nat_of_ascii ch with
    | 38 => "&amp;"
    | 60 => "&lt;"
    | 62 => "&gt;"
    | 34 => "&quot;"
    | 39 => "&apos;"
    | _ => String ch EmptyString
    end.
Proof.
  destruct ch as [[] [] [] [] [] [] [] []]; reflexivity.
Qed.

(** C6: under the object {x: s}, "{{x}}" renders [escape s], "{{{x}}}" and
    "{{&x}}" render [s] itself, and [escape] replaces the five characters
    one by one and passes every other character through. *)
Theorem escaping_law (s : string) (fuel : nat) :
  let data := DObject [("x", DString s)] in
  compile_render (S fuel) "{{x}}" data = Ret (escape s, "") /\
  compile_render (S fuel) "{{{x}}}" data = Ret (s, "") /\
  compile_render (S fuel) "{{&x}}" data = compile_render (S fuel) "{{{x}}}" data /\
  escape "" = "" /\
  (forall ch rest,
      escape (String ch rest) =
        match nat_of_ascii ch with
        | 38 => "&amp;"
        | 60 => "&lt;"
        | 62 => "&gt;"
        | 34 => "&quot;"
        | 39 => "&apos;"
        | _ => String ch EmptyString
        end ++ escape rest) /\
  (forall a b, escape (a ++ b) = escape a ++ escape b).
Proof.
  repeat split.
  - intros ch rest. simpl. rewrite escape_char_code. reflexivity.
  - apply escape_app.
Qed.

(** ** Context lookup *)

Lemma getline_rest_shorter (s : string) (delim : ascii) (item rest : string) :
  getline s delim = (item, Some rest) -> String.length rest < String.length s.
Proof.
  revert item; induction s as [|c s IH]; intros item; simpl; [discriminate |].
  destruct (Ascii.eqb c delim).
  - intros H; inversion H; subst; lia.
  - destruct (getline s delim) as [item' [rest'|]] eqn:E; intros H; inversion H; subst.
    specialize (IH _ eq_refl). lia.
Qed.

(** [split] has fuel to spare: every [getline] that leaves a rest consumed a
    delimiter. *)
Lemma split_fuel_enough (fuel : nat) (s : string) (delim : ascii) :
  String.length s <= fuel -> split_fuel fuel s delim = split s delim.
Proof.
  unfold split. remember (String.length s) as n eqn:Hn.
  assert (Hle : String.length s <= n) by lia. clear Hn.
  revert s fuel Hle; induction n as [|n IH]; intros s fuel Hle Hfuel.
  - destruct s; [| simpl in Hle; lia]. destruct fuel; reflexivity.
  - destruct fuel as [|fuel]; [lia |]. simpl.
    destruct s as [|c s]; [reflexivity |].
    destruct (getline (String c s) delim) as [item [rest|]] eqn:E; [| reflexivity].
    apply getline_rest_shorter in E. f_equal.
    apply IH; simpl in *; lia.
Qed.

Lemma get_path_resolves (names : list string) (d v : Data) :
  get_path d names = Some v <-> resolves d names v.
Proof.
  revert d; induction names as [|n names IH]; intros d; simpl.
  - split.
    + intros H; inversion H; constructor.
    + intros H; inversion H; reflexivity.
  - split.
    + destruct (Data_get d n) as [d'|] eqn:E; [| discriminate].
      intros H. econstructor; [exact E | apply IH; exact H].
    + intros H; inversion H; subst.
      match goal with Hg : Data_get d n = Some _ |- _ => rewrite Hg end.
      apply IH; assumption.
Qed.

Lemma get_path_None (names : list string) (d : Data) :
  get_path d names = None <-> forall w, ~ resolves d names w.
Proof.
  split.
  - intros H w Hr. apply get_path_resolves in Hr. congruence.
  - intros H. destruct (get_path d names) as [w|] eqn:E; [| reflexivity].
    exfalso. apply (H w). apply get_path_resolves; exact E.
Qed.

Lemma get_frames_Some (items : list Data) (names : list string) (v : Data) :
  get_frames items names = Some v <-> first_frame_resolving items names v.
Proof.
  unfold first_frame_resolving. induction items as [|item items IH]; simpl.
  - split; [discriminate |].
    intros (pre & f & post & H & _). destruct pre; discriminate.
  - destruct (get_path item names) as [w|] eqn:E.
    + split.
      * intros H; inversion H; subst. exists [], item, items.
        split; [reflexivity | split; [constructor |]].
        apply get_path_resolves; exact E.
      * intros (pre & f & post & Heq & Hpre & Hf).
        destruct pre as [|g pre]; simpl in Heq; inversion Heq; subst.
        -- apply get_path_resolves in Hf. congruence.
        -- inversion Hpre; subst. exfalso.
           match goal with Hn : forall w, ~ resolves _ _ w |- _ => apply (Hn w) end.
           apply get_path_resolves; exact E.
    + rewrite IH. split.
      * intros (pre & f & post & Heq & Hpre & Hf). subst.
        exists (item :: pre), f, post.
        split; [reflexivity | split; [| exact Hf]].
        constructor; [apply get_path_None; exact E | exact Hpre].
      * intros (pre & f & post & Heq & Hpre & Hf).
        destruct pre as [|g pre]; simpl in Heq; inversion Heq; subst.
        -- apply get_path_resolves in Hf. congruence.
        -- inversion Hpre; subst. exists pre, f, post. auto.
Qed.

Lemma get_frames_None (items : list Data) (names : list string) :
  get_frames items names = None <-> no_frame_resolving items names.
Proof.
  unfold no_frame_resolving. induction items as [|item items IH]; simpl.
  - split; [constructor | reflexivity].
  - destruct (get_path item names) as [w|] eqn:E.
    + split; [discriminate |]. intros H; inversion H; subst. exfalso.
      match goal with Hn : forall w, ~ resolves _ _ w |- _ => apply (Hn w) end.
      apply get_path_resolves; exact E.
    + rewrite IH. split.
      * intros H. constructor; [apply get_path_None; exact E | exact H].
      * intros H; inversion H; assumption.
Qed.

(** The test of line 416 singles out the name ".". *)
Lemma is_dot_spec (name_ : string) :
  ((String.length name_ =? 1)%nat
   && match at_ name_ 0 with Some c => Ascii.eqb c "." | None => false end) = true
  <-> name_ = ".".
Proof.
  split.
  - destruct name_ as [|c [|c' r]]; simpl; try discriminate.
    destruct (Ascii.eqb c ".") eqn:E; [| discriminate].
    apply Ascii.eqb_eq in E; subst; reflexivity.
  - intros ->; reflexivity.
Qed.

Lemma Context_get_dotted (c : Context) (name_ : string) :
  name_ <> "." -> Context_get c name_ = get_frames (items_ c) (dotted_names name_).
Proof.
  intros H. unfold Context_get.
  destruct (_ && _) eqn:E; [| reflexivity].
  apply is_dot_spec in E. contradiction.
Qed.

(** C4: "." is the innermost frame; any other name is split at the dots and
    resolved frame by frame from the innermost outward, every frame starting
    at the first name again; the value comes from the first frame in which
    all names resolve through [Data::get], and there is none when no frame
    resolves them all.  The two renderings of the specification follow. *)
Theorem context_lookup (c : Context) (name_ : string) :
  name_ <> "." ->
  (forall frame items d, Context_get (mkContext (frame :: items) d) "." = Some frame) /\
  (forall v,
      Context_get c name_ = Some v
      <-> first_frame_resolving (items_ c) (dotted_names name_) v) /\
  (Context_get c name_ = None
   <-> no_frame_resolving (items_ c) (dotted_names name_)) /\
  dotted_names "a.b.c" = ["a"; "b"; "c"] /\
  (forall fuel,
      compile_render (S fuel) "{{a.b.c}}"
        (DObject [("a", DObject [("b", DObject [("c", DString "ok")])])])
      = Ret ("ok", "")) /\
  (forall fuel,
      compile_render (S fuel) "{{a.b}}" (DObject [("a", DString "x")]) = Ret ("", "")).
Proof.
  intros Hdot. split; [reflexivity |].
  split; [| split].
  - intros v. rewrite (Context_get_dotted _ _ Hdot). apply get_frames_Some.
  - rewrite (Context_get_dotted _ _ Hdot). apply get_frames_None.
  - repeat split.
Qed.

Lemma context_lookup_witness :
  Context_get
    (mkContext [DString "inner"; DObject [("a", DObject [("b", DString "v")])]]
       defaultDelimiterSet) "a.b" = Some (DString "v").
Proof.
  apply (proj1 (proj2 (context_lookup
                         (mkContext
                            [DString "inner";
                             DObject [("a", DObject [("b", DString "v")])]]
                            defaultDelimiterSet)
                         "a.b" ltac:(discriminate)))).
  exists [DString "inner"], (DObject [("a", DObject [("b", DString "v")])]), [].
  split; [reflexivity | split].
  - constructor; [| constructor]. intros w H. inversion H; subst. discriminate.
  - change (dotted_names "a.b") with ["a"; "b"].
    econstructor; [reflexivity |]. econstructor; [reflexivity |]. constructor.
Defined.

(** ** Inverted sections *)

Lemma dotted_names_nonempty (name_ : string) : dotted_names name_ <> [].
Proof. unfold dotted_names. destruct (split name_ "."); discriminate. Qed.

(** A frame that is not an object resolves no name, so it hides nothing
    but ".". *)
Lemma non_object_frame_get (c : Context) (v : Data) (name_ : string) :
  isObject v = false -> name_ <> "." ->
  Context_get (Context_push c v) name_ = Context_get c name_.
Proof.
  intros Hv Hdot. rewrite !Context_get_dotted by assumption. simpl.
  pose proof (dotted_names_nonempty name_) as Hne.
  destruct (dotted_names name_) as [|n names]; [contradiction |].
  simpl. destruct v; try discriminate; reflexivity.
Qed.

Lemma non_object_frame_get_partial (c : Context) (v : Data) (name_ : string) :
  isObject v = false ->
  Context_get_partial (Context_push c v) name_ = Context_get_partial c name_.
Proof.
  intros Hv. unfold Context_get_partial. simpl.
  destruct v; try discriminate; reflexivity.
Qed.

Lemma false_or_empty_not_object (v : Data) :
  isFalse v || isEmptyList v = true -> isObject v = false.
Proof. destruct v; simpl; try discriminate; reflexivity. Qed.

(** C1, as the code has it: the body of an inverted section is walked, once,
    exactly when the name is absent or resolves to False or to an empty List.
    When the name is absent no frame is pushed.  When it resolves to False or
    to an empty List, that value is pushed for the walk and popped after it:
    inside the body "." is that value, and every other name and every partial
    name resolves as outside. *)
Theorem inverted_section_render (fuel : nat) (comp : Component) (st : RenderState) :
  type (tag comp) = Tag.SectionBeginInverted ->
  let callback := renderCallback (renderComponent fuel) in
  match Context_get (ctx st) (name (tag comp)) with
  | None =>
      renderComponent (S fuel) comp st =
        (st' <- walkChildren fuel callback comp st ;; Ret (Skip, st'))
  | Some v =>
      if isFalse v || isEmptyList v then
        renderComponent (S fuel) comp st =
          (st' <- walkChildren fuel callback comp
                    (set_ctx st (Context_push (ctx st) v)) ;;
           Ret (Skip, set_ctx st' (Context_pop (ctx st')))) /\
        Context_get (Context_push (ctx st) v) "." = Some v /\
        (forall n, n <> "." ->
                   Context_get (Context_push (ctx st) v) n = Context_get (ctx st) n) /\
        (forall n, Context_get_partial (Context_push (ctx st) v) n
                   = Context_get_partial (ctx st) n)
      else renderComponent (S fuel) comp st = Ret (Skip, st)
  end.
Proof.
  intros Hty callback.
  assert (Htext : isText comp = false) by (unfold isText; rewrite Hty; reflexivity).
  simpl renderComponent. unfold renderComponent_body. rewrite Htext, Hty.
  destruct (Context_get (ctx st) (name (tag comp))) as [v|] eqn:G.
  - destruct (isFalse v || isEmptyList v) eqn:E.
    + pose proof (false_or_empty_not_object v E) as Hobj.
      split; [| split; [reflexivity | split]].
      * unfold renderSection.
        assert (Hnl : isNonEmptyList v = false)
          by (destruct v as [| |[|]| | | | |]; simpl in *; try discriminate; reflexivity).
        rewrite Hnl. fold callback.
        destruct (walkChildren fuel callback comp _); reflexivity.
      * intros n Hn. apply non_object_frame_get; assumption.
      * intros n. apply non_object_frame_get_partial; assumption.
    + reflexivity.
  - unfold renderSection. fold callback.
    destruct (walkChildren fuel callback comp st); reflexivity.
Qed.

Lemma inverted_section_render_witness :
  renderComponent 2 inverted_f_dot hello_over_f_false =
    (st' <- walkChildren 1 (renderCallback (renderComponent 1)) inverted_f_dot
              (set_ctx hello_over_f_false
                 (Context_push (ctx hello_over_f_false) DFalse)) ;;
     Ret (Skip, set_ctx st' (Context_pop (ctx st')))).
Proof.
  exact (proj1 (inverted_section_render 1 inverted_f_dot hello_over_f_false eq_refl)).
Defined.

(** C1 as stated fails where the name resolves to False: the body of
    "{{^f}}{{.}}{{/f}}" walked under the stack the section is met in writes
    "hello", the section itself writes nothing, because "." is then the
    pushed False. *)
Lemma inverted_section_pushes_frame_counterexample :
  compile "{{^f}}{{.}}{{/f}}"
    = Ret (mkTemplate "" (mkComponent "" defaultTag [inverted_f_dot] None)) /\
  Context_get (ctx hello_over_f_false) "f" = Some DFalse /\
  walkChildren 1 (renderCallback (renderComponent 1)) inverted_f_dot hello_over_f_false
    = Ret (mkRenderState "hello" (ctx hello_over_f_false) "") /\
  renderComponent 2 inverted_f_dot hello_over_f_false
    = Ret (Skip, hello_over_f_false) /\
  (forall fuel,
      compile_render (3 + fuel) "{{#s}}{{^f}}{{.}}{{/f}}{{/s}}"
        (DObject [("s", DString "hello"); ("f", DFalse)]) = Ret ("", "")) /\
  (forall fuel,
      compile_render (3 + fuel) "{{#s}}{{^g}}{{.}}{{/g}}{{/s}}"
        (DObject [("s", DString "hello"); ("f", DFalse)]) = Ret ("hello", "")).
Proof.
  repeat split.
Qed.

(** ** Sections and lambdas *)

Section SectionTags.

Variable input : string.
Variable st : ParseState.
Variables (top : Component) (rest : list Component).
Variables (tagLocationStart tagLocationEnd : nat).
Variable r : string.

Let delims := ps_delimiterSet st.
Let tagContentsLocation := tagLocationStart + String.length (begin_ delims).
Let next := tagLocationEnd + String.length (end_ delims).
Let top' := top_with_text input st top tagLocationStart.

Hypothesis Hbegin : find input (begin_ delims) (inputPosition st) = Some tagLocationStart.
Hypothesis Hplain : tagIsUnescapedVar input st tagLocationStart = Ret false.
Hypothesis Hend : find input (end_ delims) tagContentsLocation = Some tagLocationEnd.

(** A section-begin tag opens a section that starts right after the tag. *)
Lemma section_begin_step :
  sections st = top :: rest ->
  trim (substr input tagContentsLocation (tagLocationEnd - tagContentsLocation))
    = String "#" r ->
  parse_step input st =
    Ret (Next,
         section_opened st top' rest Tag.SectionBegin (trim r) tagLocationStart next).
Proof.
  intros Hsec Hc.
  rewrite (parse_step_tag input st top rest tagLocationStart Hsec Hbegin).
  unfold parse_tag. rewrite Hplain. simpl bind. cbv iota.
  fold delims. fold tagContentsLocation. rewrite Hend, Hc. reflexivity.
Qed.

(** A section-end tag gives the open section the input between its start
    and the start of this tag, as it stands, and closes it. *)
Lemma section_end_step (parent : Component) (rest' : list Component)
    (start : nat) (starts : list nat) :
  sections st = top :: parent :: rest' ->
  sectionStarts st = start :: starts ->
  trim (substr input tagContentsLocation (tagLocationEnd - tagContentsLocation))
    = String "/" r ->
  parse_step input st =
    Ret (Next,
         section_closed input st top' parent rest' start starts (trim r)
           tagLocationStart next).
Proof.
  intros Hsec Hstarts Hc.
  rewrite (parse_step_tag input st top (parent :: rest') tagLocationStart Hsec Hbegin).
  unfold parse_tag. rewrite Hplain. simpl bind. cbv iota.
  fold delims. fold tagContentsLocation. rewrite Hend, Hc.
  unfold parse_append, parse_sections. simpl. rewrite Hstarts. reflexivity.
Qed.

End SectionTags.

(** A section whose name is a lambda: the lambda gets the section text, and
    what it returns is parsed under the context's delimiters and rendered. *)
Lemma lambda_section_step (fuel : nat) (comp : Component) (st : RenderState)
    (lambda : string -> string) (text_ : string) :
  type (tag comp) = Tag.SectionBegin ->
  sectionText (tag comp) = Some text_ ->
  Context_get (ctx st) (name (tag comp)) = Some (DLambda lambda) ->
  renderComponent (S fuel) comp st = lambda_section_result fuel st (lambda text_).
Proof.
  intros Hty Htext Hget.
  assert (Hnt : isText comp = false) by (unfold isText; rewrite Hty; reflexivity).
  simpl renderComponent. unfold renderComponent_body.
  rewrite Hnt, Hty, Hget, Htext.
  unfold renderLambda, lambda_section_result, callLambda. cbv beta iota.
  destruct (parse (lambda text_) (ctx_delimiterSet (ctx st))) as [[tmpl d]| |];
    simpl; try reflexivity.
  destruct (isValid tmpl); simpl; [| reflexivity].
  destruct (render_template _ _ _ _ _) as [sub| |]; simpl; try reflexivity.
  destruct (empty (rs_errorMessage sub)); reflexivity.
Qed.

Lemma walkComponent_S {St : Type} (fuel : nat) (callback : WalkCallback St)
    (comp : Component) (s : St) :
  walkComponent (S fuel) callback comp s =
    '(control, comp', s') <- callback comp s ;;
    match control with
    | Stop => Ret (Stop, s')
    | Skip => Ret (Continue, s')
    | Continue =>
        walkComponent_loop (walkComponent fuel callback) (children comp') Continue s'
    end.
Proof. reflexivity. Qed.

(** A lambda section ends in [Skip] or in [Stop]. *)
Lemma lambda_section_result_control (fuel : nat) (st : RenderState)
    (lambdaResult : string) (control : WalkControl) (st' : RenderState) :
  lambda_section_result fuel st lambdaResult = Ret (control, st') ->
  control = Skip \/ control = Stop.
Proof.
  unfold lambda_section_result.
  destruct (parse _ _) as [[tmpl d]| |]; simpl; try discriminate.
  destruct (isValid tmpl).
  - destruct (render_template _ _ _ _ _) as [sub| |]; simpl; try discriminate.
    destruct (empty _); intros H; inversion H; auto.
  - intros H; inversion H; auto.
Qed.

(** C9: the parser stores as section text the input from the end of the
    section-begin tag to the start of the section-end tag, untouched; when the
    section's name resolves to a lambda the renderer calls it with that text,
    parses what it returns under the delimiters the context holds at that
    moment, renders it under the same context and writes the result without
    escaping it. *)
Theorem section_lambda_gets_verbatim_text (fuel : nat) (comp : Component) (st : RenderState)
    (lambda : string -> string) (text_ : string) :
  type (tag comp) = Tag.SectionBegin ->
  sectionText (tag comp) = Some text_ ->
  Context_get (ctx st) (name (tag comp)) = Some (DLambda lambda) ->
  renderComponent (S fuel) comp st = lambda_section_result fuel st (lambda text_) /\
  (forall input pst top rest ts te r,
      sections pst = top :: rest ->
      find input (begin_ (ps_delimiterSet pst)) (inputPosition pst) = Some ts ->
      tagIsUnescapedVar input pst ts = Ret false ->
      find input (end_ (ps_delimiterSet pst))
        (ts + String.length (begin_ (ps_delimiterSet pst))) = Some te ->
      trim (substr input (ts + String.length (begin_ (ps_delimiterSet pst)))
              (te - (ts + String.length (begin_ (ps_delimiterSet pst)))))
        = String "#" r ->
      parse_step input pst =
        Ret (Next,
             section_opened pst (top_with_text input pst top ts) rest
               Tag.SectionBegin (trim r) ts
               (te + String.length (end_ (ps_delimiterSet pst))))) /\
  (forall input pst top parent rest start starts ts te r,
      sections pst = top :: parent :: rest ->
      sectionStarts pst = start :: starts ->
      find input (begin_ (ps_delimiterSet pst)) (inputPosition pst) = Some ts ->
      tagIsUnescapedVar input pst ts = Ret false ->
      find input (end_ (ps_delimiterSet pst))
        (ts + String.length (begin_ (ps_delimiterSet pst))) = Some te ->
      trim (substr input (ts + String.length (begin_ (ps_delimiterSet pst)))
              (te - (ts + String.length (begin_ (ps_delimiterSet pst)))))
        = String "/" r ->
      parse_step input pst =
        Ret (Next,
             section_closed input pst (top_with_text input pst top ts) parent rest
               start starts (trim r) ts
               (te + String.length (end_ (ps_delimiterSet pst))))) /\
  (forall data,
      Data_get data "l" = Some (DLambda lambda) ->
      compile_render (S fuel) "{{#l}} hi {{n}} {{/l}}" data =
        '(_, st') <- lambda_section_result fuel
                       (mkRenderState "" (mkContext [data] defaultDelimiterSet) "")
                       (lambda " hi {{n}} ") ;;
        Ret (out st', rs_errorMessage st')).
Proof.
  intros Hty Htext Hget. split; [| split; [| split]].
  - apply lambda_section_step; assumption.
  - intros input pst top rest ts te r Hsec Hb Hp He Hc.
    apply (section_begin_step input pst top rest ts te r Hb Hp He Hsec Hc).
  - intros input pst top parent rest start starts ts te r Hsec Hst Hb Hp He Hc.
    apply (section_end_step input pst top ts te r Hb Hp He parent rest start starts
             Hsec Hst Hc).
  - intros data Hl. unfold compile_render.
    set (c := compile _). vm_compute in c. subst c. simpl bind.
    unfold render, render_template, walkChildren. simpl rootComponent.
    simpl children. unfold walkChildren_loop.
    match goal with
    | |- context [walkComponent (S fuel) ?cb ?c ?s] =>
        assert (Hw : walkComponent (S fuel) cb c s =
                       '(control, s') <- lambda_section_result fuel s (lambda " hi {{n}} ") ;;
                       match control with
                       | Stop => Ret (Stop, s')
                       | _ => Ret (Continue, s')
                       end)
    end.
    { rewrite walkComponent_S. unfold renderCallback at 1.
      rewrite (lambda_section_step fuel _ _ lambda " hi {{n}} ");
        [| reflexivity | reflexivity |].
      - destruct (lambda_section_result _ _ _) as [[[| |] s']| |] eqn:E;
          try reflexivity.
        destruct (lambda_section_result_control _ _ _ _ _ E); discriminate.
      - unfold Context_get. simpl. rewrite Hl. reflexivity. }
    rewrite Hw.
    destruct (lambda_section_result _ _ _) as [[[| |] s']| |]; reflexivity.
Qed.

Lemma section_lambda_gets_verbatim_text_witness :
  compile_render 2 "{{#l}} hi {{n}} {{/l}}"
    (DObject [("l", DLambda (fun t => "<" ++ t ++ ">")); ("n", DString "&")])
  = Ret ("< hi &amp; >", "").
Proof.
  rewrite (proj2 (proj2 (proj2
             (section_lambda_gets_verbatim_text 1
                (mkComponent "" (mkTag "l" Tag.SectionBegin (Some "x") None) [] (Some 0))
                (mkRenderState ""
                   (mkContext [DObject [("l", DLambda (fun t => "<" ++ t ++ ">"))]]
                      defaultDelimiterSet) "")
                (fun t => "<" ++ t ++ ">") "x" eq_refl eq_refl eq_refl)))
             (DObject [("l", DLambda (fun t => "<" ++ t ++ ">")); ("n", DString "&")])
             eq_refl).
  reflexivity.
Defined.

(** Custom delimiters in force carry into what the lambda returns: here
    "<%n%>" is a tag and "{{n}}" is text. *)
Lemma lambda_section_custom_delimiters (fuel : nat) :
  compile_render (2 + fuel) "{{=<% %>=}}<%#l%>x<%/l%>"
    (DObject [("n", DString "N"); ("l", DLambda (fun _ => "<%n%>{{n}}"))])
  = Ret ("N{{n}}", "").
Proof. vm_compute; reflexivity. Qed.

(** ** [parse] always returns *)

Lemma find_ge (s needle : string) (pos m : nat) :
  find s needle pos = Some m -> pos <= m.
Proof.
  unfold find. revert pos m; induction s as [|a s IH]; intros [|pos] m; simpl;
    try discriminate; try lia.
  destruct (index pos needle s) eqn:E; [| discriminate].
  intros H; inversion H; subst. apply IH in E. lia.
Qed.

Lemma length_nonempty (s : string) : s <> EmptyString -> 0 < String.length s.
Proof. destruct s; [contradiction | simpl; lia]. Qed.

Section ParseTotal.

Variable input : string.

Lemma parse_sections_inv (comp : Component) (ts : nat) (st : ParseState) :
  parse_inv input st ->
  exists control st',
    parse_sections input comp ts st = Ret (control, st') /\
    parse_inv input st' /\ inputPosition st' = inputPosition st.
Proof.
  intros (Hb & Hl & Hbe & Hen & Hp). unfold parse_sections.
  destruct (isSectionEnd (tag comp)).
  - destruct (sections st) as [|top [|parent rest]] eqn:Es; simpl in Hl.
    + discriminate.
    + do 2 eexists. split; [reflexivity |]. split; [| reflexivity].
      unfold parse_inv, brace_consistent; simpl. auto.
    + destruct (sectionStarts st) as [|start starts] eqn:Et; simpl in Hl;
        [discriminate |].
      do 2 eexists. split; [reflexivity |]. split; [| reflexivity].
      unfold parse_inv, brace_consistent; simpl. repeat split; auto; lia.
  - do 2 eexists. split; [reflexivity |]. split; [| reflexivity].
    unfold parse_inv; auto.
Qed.

Lemma parse_append_inv (st : ParseState) (top : Component) (rest : list Component)
    (delims : DelimiterSet) (brace : bool) (tag_ : Tag) (ts next : nat) :
  S (List.length (sectionStarts st)) = List.length (top :: rest) ->
  brace = isDefault delims ->
  begin_ delims <> EmptyString -> end_ delims <> EmptyString ->
  next <= String.length input ->
  exists control st',
    parse_append input st (top :: rest) delims brace tag_ ts next = Ret (control, st') /\
    parse_inv input st' /\ inputPosition st' = next.
Proof.
  intros Hl Hb Hbe Hen Hn. unfold parse_append.
  destruct (isSectionBegin tag_).
  - do 2 eexists. split; [reflexivity |]. split; [| reflexivity].
    unfold parse_inv, brace_consistent; simpl in *. repeat split; auto; lia.
  - simpl bind.
    match goal with
    | |- context [parse_sections input ?c ts ?s] =>
        destruct (parse_sections_inv c ts s) as (control & st' & H & Hi & Hp)
    end.
    + unfold parse_inv, brace_consistent; simpl in *. repeat split; auto.
    + exists control, st'. rewrite H. simpl in Hp. auto.
Qed.

(** An iteration returns, keeps the invariant, and moves forward when it
    reaches the end of the loop body. *)
Lemma parse_step_inv (st : ParseState) :
  parse_inv input st ->
  exists control st',
    parse_step input st = Ret (control, st') /\
    parse_inv input st' /\
    (control = Next -> inputPosition st < inputPosition st').
Proof.
  intros Hinv. pose proof Hinv as (Hb & Hl & Hbe & Hen & Hp).
  destruct (sections st) as [|top rest] eqn:Es; [simpl in Hl; discriminate |].
  destruct (find input (begin_ (ps_delimiterSet st)) (inputPosition st))
    as [ts|] eqn:Fb.
  - rewrite (parse_step_tag input st top rest ts Es Fb).
    set (top' := top_with_text input st top ts).
    unfold parse_tag.
    rewrite (tagIsUnescapedVar_eq input st ts Hb Fb). simpl bind.
    set (u := _ && _ && _).
    set (endMarker := if u then braceDelimiterEndUnescaped else end_ (ps_delimiterSet st)).
    set (tcs := if u then S (ts + String.length (begin_ (ps_delimiterSet st)))
                else ts + String.length (begin_ (ps_delimiterSet st))).
    pose proof (find_ge _ _ _ _ Fb) as Hge.
    pose proof (length_nonempty _ Hbe) as Hlb.
    assert (Htcs : inputPosition st < tcs) by (unfold tcs; destruct u; lia).
    destruct (find input endMarker tcs) as [te|] eqn:Fe.
    + pose proof (find_ge _ _ _ _ Fe) as Hte.
      pose proof (find_bound _ _ _ _ Fe) as Hbound.
      assert (Hshape : S (List.length (sectionStarts st)) = List.length (top' :: rest))
        by exact Hl.
      set (contents := trim _).
      destruct (equals_sign_dec contents) as [(r & Hr) | Hno].
      * rewrite Hr.
        destruct (parseSetDelimiterTag_spec (String "=" r) (ps_delimiterSet st))
          as [Hiff Hor].
        pose proof (parseSetDelimiterTag_no_fault (String "=" r) (ps_delimiterSet st))
          as Hnf.
        destruct (parseSetDelimiterTag (String "=" r) (ps_delimiterSet st))
          as [[[|] [b e]]| |] eqn:P; simpl bind; cbv iota.
        -- destruct (proj1 (Hiff b e) eq_refl)
             as (_ & _ & p & q & _ & _ & _ & _ & Nb & Ne & _ & _).
           destruct (parse_append_inv st top' rest (mkDelimiterSet b e)
                       (isDefault (mkDelimiterSet b e))
                       (mkTag "" Tag.SetDelimiter None (Some (mkDelimiterSet b e)))
                       ts (te + String.length endMarker) Hshape eq_refl Nb Ne Hbound)
             as (control & st' & H & Hi & Hpos).
           exists control, st'. simpl negb. cbv iota. rewrite H.
           split; [reflexivity | split; [exact Hi | intros _; lia]].
        -- do 2 eexists. split; [reflexivity |]. split; [| discriminate].
           unfold parse_inv, brace_consistent; simpl. repeat split; auto.
        -- exfalso. revert P. unfold parseSetDelimiterTag.
           repeat match goal with
                  | |- context [if ?c then _ else _] => destruct c
                  | |- context [match ?c with _ => _ end] => destruct c
                  end; discriminate.
        -- contradiction.
      * rewrite (match_not_equals_sign _ contents _ _ Hno).
        destruct (parse_append_inv st top' rest (ps_delimiterSet st)
                    (currentDelimiterIsBrace st)
                    (parseTagContents u contents defaultTag) ts
                    (te + String.length endMarker) Hshape Hb Hbe Hen Hbound)
          as (control & st' & H & Hi & Hpos).
        exists control, st'. rewrite H.
        split; [reflexivity | split; [exact Hi | intros _; lia]].
    + do 2 eexists. split; [reflexivity |]. split; [| discriminate].
      unfold parse_inv, brace_consistent; simpl. repeat split; auto.
  - unfold parse_step, parse_text. rewrite Fb, Es. simpl.
    do 2 eexists. split; [reflexivity |]. split; [| discriminate].
    unfold parse_inv, brace_consistent; simpl. repeat split; auto.
Qed.

(** The loop needs no more iterations than the input has bytes left. *)
Lemma parse_loop_total (fuel : nat) (st : ParseState) :
  parse_inv input st ->
  String.length input - inputPosition st <= fuel ->
  exists returned st', parse_loop fuel input st = Ret (returned, st').
Proof.
  revert st; induction fuel as [|fuel IH]; intros st Hinv Hfuel.
  - pose proof Hinv as (_ & _ & _ & _ & Hp). simpl.
    assert (E : (inputPosition st =? String.length input)%nat = true)
      by (apply Nat.eqb_eq; lia).
    rewrite E. eauto.
  - simpl. destruct (inputPosition st =? String.length input)%nat; [eauto |].
    destruct (parse_step_inv st Hinv) as (control & st' & H & Hi & Hprog).
    rewrite H. simpl. destruct control; eauto.
    apply IH; [exact Hi |]. specialize (Hprog eq_refl). lia.
Qed.

End ParseTotal.

Lemma In_removelast {A : Type} (x : A) (l : list A) :
  In x (removelast l) -> In x l.
Proof.
  induction l as [|a [|b l] IH]; simpl; auto.
  intros [H | H]; [left; exact H | right; apply IH; exact H].
Qed.

Lemma depth_eq (c : Component) : depth c = S (list_max (map depth (children c))).
Proof. destruct c; reflexivity. Qed.

Lemma depth_child (c ch : Component) : In ch (children c) -> depth ch < depth c.
Proof.
  intros Hin. rewrite (depth_eq c).
  assert (H : Forall (fun k => k <= list_max (map depth (children c)))
                (map depth (children c)))
    by (apply list_max_le; lia).
  rewrite Forall_forall in H. specialize (H (depth ch) (in_map depth _ _ Hin)). lia.
Qed.

Lemma checkSection_ret (comp : Component) (err : string) :
  exists control comp' err',
    checkSection comp err = Ret (control, comp', err') /\
    forall ch, In ch (children comp') -> In ch (children comp).
Proof.
  unfold checkSection. destruct (negb (isSectionBegin (tag comp))).
  - do 3 eexists. split; [reflexivity | auto].
  - destruct (rev (children comp)) as [|last_ l].
    + do 3 eexists. split; [reflexivity | auto].
    + destruct (_ || _).
      * do 3 eexists. split; [reflexivity | auto].
      * do 3 eexists. split; [reflexivity |]. simpl.
        intros ch; apply In_removelast.
Qed.

Section WalkTotal.

Context {St : Type}.
Variable visit : Component -> St -> result (WalkControl * St).

Lemma walkComponent_loop_total (cs : list Component) :
  (forall ch s, In ch cs -> exists control s', visit ch s = Ret (control, s')) ->
  forall control s,
  exists control' s', walkComponent_loop visit cs control s = Ret (control', s').
Proof.
  induction cs as [|c cs IH]; intros Hv control s; simpl; [eauto |].
  destruct (Hv c s (or_introl eq_refl)) as (k & s' & ->). simpl.
  destruct k; eauto. apply IH. intros ch s0 Hin. apply Hv. right; exact Hin.
Qed.

Lemma walkChildren_loop_total (cs : list Component) :
  (forall ch s, In ch cs -> exists control s', visit ch s = Ret (control, s')) ->
  forall s, exists s', walkChildren_loop visit cs s = Ret s'.
Proof.
  induction cs as [|c cs IH]; intros Hv s; simpl; [eauto |].
  destruct (Hv c s (or_introl eq_refl)) as (k & s' & ->). simpl.
  destruct k; eauto. apply IH. intros ch s0 Hin. apply Hv. right; exact Hin.
Qed.

End WalkTotal.

(** The check for unclosed sections descends no deeper than the tree. *)
Lemma walk_checkSection_total (fuel : nat) (c : Component) (err : string) :
  depth c <= fuel ->
  exists control err', walkComponent fuel checkSection c err = Ret (control, err').
Proof.
  revert c err; induction fuel as [|fuel IH]; intros c err Hd.
  - rewrite depth_eq in Hd; lia.
  - rewrite walkComponent_S.
    destruct (checkSection_ret c err) as (k & c' & err' & -> & Hsub). simpl bind.
    destruct k; eauto.
    apply walkComponent_loop_total. intros ch s Hin. apply IH.
    pose proof (depth_child c ch (Hsub ch Hin)). lia.
Qed.

(** [parse] returns a template for every input, whatever non-empty
    delimiters the context holds: the model's budgets are never exhausted and
    no assertion, [at()] or [back()] of [parse] goes wrong. *)
Theorem parse_total (input : string) (d : DelimiterSet) :
  begin_ d <> EmptyString -> end_ d <> EmptyString ->
  exists tmpl d', parse input d = Ret (tmpl, d').
Proof.
  intros Hb He. unfold parse.
  destruct (parse_loop_total input (String.length input) (parse_init d))
    as (returned & st & ->).
  - unfold parse_inv, parse_init, brace_consistent; simpl. repeat split; auto; lia.
  - simpl; lia.
  - simpl bind. destruct returned; [eauto |].
    destruct (walkChildren_loop_total
                (walkComponent (depth (rootOf (sections st))) checkSection)
                (children (rootOf (sections st))))
      with (s := ps_errorMessage st) as (err & Herr).
    + intros ch s Hin. apply walk_checkSection_total.
      pose proof (depth_child _ _ Hin). lia.
    + unfold walkChildren. rewrite Herr. simpl. eauto.
Qed.

Lemma parse_total_witness :
  exists tmpl d', parse "{{#a}}x{{/a}}" defaultDelimiterSet = Ret (tmpl, d').
Proof.
  apply (parse_total "{{#a}}x{{/a}}" defaultDelimiterSet); discriminate.
Defined.

Lemma compile_total (input : string) : exists tmpl, compile input = Ret tmpl.
Proof.
  unfold compile.
  destruct (parse_total input defaultDelimiterSet) as (tmpl & d' & ->);
    [discriminate | discriminate |]. simpl. eauto.
Qed.

(** ** The context stack is balanced *)

Section WalkPreserves.

Context {St : Type}.
Variable R : St -> St -> Prop.
Hypothesis R_refl : forall s, R s s.
Hypothesis R_trans : forall a b c, R a b -> R b c -> R a c.

Lemma walkComponent_loop_preserves
    (visit : Component -> St -> result (WalkControl * St)) (cs : list Component) :
  (forall c s k s', visit c s = Ret (k, s') -> R s s') ->
  forall k0 s k s', walkComponent_loop visit cs k0 s = Ret (k, s') -> R s s'.
Proof.
  intros Hv. induction cs as [|c cs IH]; intros k0 s k s'; simpl.
  - intros H; inversion H; subst; apply R_refl.
  - destruct (visit c s) as [[k1 s1]| |] eqn:E; simpl; try discriminate.
    apply Hv in E. destruct k1.
    + intros H. eapply R_trans; [exact E | eapply IH; exact H].
    + intros H; inversion H; subst; exact E.
    + intros H; inversion H; subst; exact E.
Qed.

Lemma walkChildren_loop_preserves
    (visit : Component -> St -> result (WalkControl * St)) (cs : list Component) :
  (forall c s k s', visit c s = Ret (k, s') -> R s s') ->
  forall s s', walkChildren_loop visit cs s = Ret s' -> R s s'.
Proof.
  intros Hv. induction cs as [|c cs IH]; intros s s'; simpl.
  - intros H; inversion H; subst; apply R_refl.
  - destruct (visit c s) as [[k1 s1]| |] eqn:E; simpl; try discriminate.
    apply Hv in E. destruct k1.
    + intros H. eapply R_trans; [exact E | eapply IH; exact H].
    + intros H; inversion H; subst; exact E.
    + intros H; inversion H; subst; exact E.
Qed.

Variable callback : WalkCallback St.
Hypothesis callback_preserves :
  forall c s k c' s', callback c s = Ret (k, c', s') -> R s s'.

Lemma walkComponent_preserves (fuel : nat) :
  forall c s k s', walkComponent fuel callback c s = Ret (k, s') -> R s s'.
Proof.
  induction fuel as [|fuel IH]; intros c s k s'; [discriminate |].
  rewrite walkComponent_S.
  destruct (callback c s) as [[[k1 c1] s1]| |] eqn:E; simpl; try discriminate.
  apply callback_preserves in E. destruct k1.
  - intros H. eapply R_trans; [exact E |].
    eapply walkComponent_loop_preserves; [exact IH | exact H].
  - intros H; inversion H; subst; exact E.
  - intros H; inversion H; subst; exact E.
Qed.

Lemma walkChildren_preserves (fuel : nat) (c : Component) (s s' : St) :
  walkChildren fuel callback c s = Ret s' -> R s s'.
Proof.
  unfold walkChildren. apply walkChildren_loop_preserves.
  apply walkComponent_preserves.
Qed.

End WalkPreserves.

Lemma same_items_refl (s : RenderState) : same_items s s.
Proof. reflexivity. Qed.

Lemma same_items_trans (a b c : RenderState) :
  same_items a b -> same_items b c -> same_items a c.
Proof. unfold same_items; congruence. Qed.

Section RenderBalanced.

Variable rec : Component -> RenderState -> result (WalkControl * RenderState).
Variable fuel : nat.
Hypothesis rec_balanced :
  forall comp st k st', rec comp st = Ret (k, st') -> same_items st st'.

Lemma renderCallback_balanced (c : Component) (s : RenderState) k c' s' :
  renderCallback rec c s = Ret (k, c', s') -> same_items s s'.
Proof.
  unfold renderCallback. destruct (rec c s) as [[k1 s1]| |] eqn:E; simpl;
    try discriminate.
  intros H; inversion H; subst. eapply rec_balanced; exact E.
Qed.

Lemma walk_balanced (c : Component) (s s' : RenderState) :
  walkChildren fuel (renderCallback rec) c s = Ret s' -> same_items s s'.
Proof.
  apply (walkChildren_preserves same_items same_items_refl same_items_trans).
  intros c0 s0 k c1 s1. apply renderCallback_balanced.
Qed.

Lemma render_template_balanced (tmpl : Template) (o : string) (c : Context)
    (sub : RenderState) :
  render_template rec fuel tmpl o c = Ret sub -> items_ (ctx sub) = items_ c.
Proof. unfold render_template. intros H. apply walk_balanced in H. exact H. Qed.

Lemma renderLambda_balanced (lambda : string -> string) (st : RenderState)
    (escaped : bool) (text_ : string) (same : bool) ok st' :
  renderLambda rec fuel lambda st escaped text_ same = Ret (ok, st') ->
  same_items st st'.
Proof.
  unfold renderLambda, callLambda, same_items. cbv beta iota.
  assert (Hc : forall r : result (Template * Context),
             (if same
              then '(t, d) <- parse (lambda text_) (ctx_delimiterSet (ctx st)) ;;
                   Ret (t, mkContext (items_ (ctx st)) d)
              else '(t, _) <- parse (lambda text_) defaultDelimiterSet ;;
                   Ret (t, ctx st)) = r ->
             forall t c, r = Ret (t, c) -> items_ c = items_ (ctx st)).
  { intros r <- t c. destruct same.
    - destruct (parse _ _) as [[t0 d0]| |]; simpl; try discriminate.
      intros H; inversion H; reflexivity.
    - destruct (parse _ _) as [[t0 d0]| |]; simpl; try discriminate.
      intros H; inversion H; reflexivity. }
  specialize (Hc _ eq_refl).
  destruct (if same then _ else _) as [[tmpl c]| |]; simpl; try discriminate.
  specialize (Hc tmpl c eq_refl).
  destruct (negb (isValid tmpl)).
  - intros H; inversion H; subst; simpl. exact Hc.
  - destruct (render_template rec fuel tmpl "" c) as [sub| |] eqn:E; simpl;
      try discriminate.
    apply render_template_balanced in E.
    destruct (negb _); intros H; inversion H; subst; simpl; congruence.
Qed.

Lemma renderSection_list_balanced (incomp : Component) (l : list Data) :
  forall st st', renderSection_list rec fuel incomp l st = Ret st' ->
                 same_items st st'.
Proof.
  induction l as [|item l IH]; intros st st'; simpl.
  - intros H; inversion H; reflexivity.
  - destruct (walkChildren _ _ _ _) as [s1| |] eqn:E; simpl; try discriminate.
    apply walk_balanced in E. intros H. apply IH in H.
    unfold same_items in *. simpl in *. rewrite H, E. reflexivity.
Qed.

Lemma renderSection_balanced (st : RenderState) (incomp : Component)
    (var : option Data) (st' : RenderState) :
  renderSection rec fuel st incomp var = Ret st' -> same_items st st'.
Proof.
  unfold renderSection. destruct var as [v|].
  - destruct (isNonEmptyList v).
    + destruct v; try discriminate. apply renderSection_list_balanced.
    + destruct (walkChildren _ _ _ _) as [s1| |] eqn:E; simpl; try discriminate.
      apply walk_balanced in E. intros H; inversion H; subst.
      unfold same_items in *. simpl in *. rewrite E. reflexivity.
  - apply walk_balanced.
Qed.

Lemma renderComponent_body_balanced (comp : Component) (st : RenderState) k st' :
  renderComponent_body rec fuel comp st = Ret (k, st') -> same_items st st'.
Proof.
  unfold renderComponent_body.
  destruct (isText comp); [intros H; inversion H; reflexivity |].
  destruct (type (tag comp)).
  - intros H; inversion H; reflexivity.
  - destruct (Context_get _ _) as [var|]; [| intros H; inversion H; reflexivity].
    unfold renderVariable. destruct var; simpl;
      try (intros H; inversion H; reflexivity).
    destruct (renderLambda _ _ _ _ _ _ _) as [[ok s1]| |] eqn:E; simpl;
      try discriminate.
    apply renderLambda_balanced in E.
    destruct ok; intros H; inversion H; subst; exact E.
  - destruct (Context_get _ _) as [var|]; [| intros H; inversion H; reflexivity].
    unfold renderVariable. destruct var; simpl;
      try (intros H; inversion H; reflexivity).
    destruct (renderLambda _ _ _ _ _ _ _) as [[ok s1]| |] eqn:E; simpl;
      try discriminate.
    apply renderLambda_balanced in E.
    destruct ok; intros H; inversion H; subst; exact E.
  - destruct (Context_get _ _) as [var|]; [| intros H; inversion H; reflexivity].
    assert (Hsec : forall v,
               (if negb (isFalse v) && negb (isEmptyList v)
                then st'0 <- renderSection rec fuel st comp (Some v) ;; Ret (Skip, st'0)
                else Ret (Skip, st)) = Ret (k, st') -> same_items st st').
    { intros v. destruct (_ && _).
      - destruct (renderSection _ _ _ _ _) as [s1| |] eqn:E; simpl; try discriminate.
        apply renderSection_balanced in E. intros H; inversion H; subst; exact E.
      - intros H; inversion H; reflexivity. }
    destruct var; try apply Hsec.
    destruct (sectionText (tag comp)); [| discriminate].
    destruct (renderLambda _ _ _ _ _ _ _) as [[ok s1]| |] eqn:E; simpl;
      try discriminate.
    apply renderLambda_balanced in E.
    destruct ok; intros H; inversion H; subst; exact E.
  - intros H; inversion H; reflexivity.
  - destruct (match Context_get _ _ with None => true | Some v => _ end).
    + destruct (renderSection _ _ _ _ _) as [s1| |] eqn:E; simpl; try discriminate.
      apply renderSection_balanced in E. intros H; inversion H; subst; exact E.
    + intros H; inversion H; reflexivity.
  - intros H; inversion H; reflexivity.
  - unfold renderPartial.
    destruct (Context_get_partial _ _) as [[| | | | |partial| |]|];
      try (intros H; inversion H; reflexivity).
    destruct (parse _ _) as [[tmpl d]| |]; simpl; try discriminate.
    destruct (negb (isValid tmpl)); [intros H; inversion H; reflexivity |].
    destruct (render_template _ _ _ _ _) as [sub| |] eqn:E; simpl; try discriminate.
    apply render_template_balanced in E.
    destruct (negb _); intros H; inversion H; subst; exact E.
  - destruct (delimiterSet (tag comp)); [| discriminate].
    intros H; inversion H; reflexivity.
Qed.

End RenderBalanced.

(** Every frame a component pushes it pops again: rendering a component
    leaves the stack of frames as it found it, so the stack never becomes
    empty below the root frame and [items_.front()] is always defined. *)
Lemma renderComponent_balanced (fuel : nat) :
  forall comp st k st',
    renderComponent fuel comp st = Ret (k, st') -> same_items st st'.
Proof.
  induction fuel as [|fuel IH]; intros comp st k st'; [discriminate |].
  simpl. apply renderComponent_body_balanced. exact IH.
Qed.

(** ** The first error wins *)

Lemma parse_loop_mono (input : string) (fuel fuel' : nat) (st : ParseState)
    (r : bool * ParseState) :
  parse_loop fuel input st = Ret r -> fuel <= fuel' ->
  parse_loop fuel' input st = Ret r.
Proof.
  revert fuel' st; induction fuel as [|fuel IH]; intros fuel' st; simpl.
  - destruct (inputPosition st =? String.length input)%nat eqn:E; [| discriminate].
    intros H _. destruct fuel'; simpl; rewrite E; exact H.
  - destruct (inputPosition st =? String.length input)%nat eqn:E.
    + intros H _. destruct fuel'; simpl; rewrite E; exact H.
    + intros H Hle. destruct fuel' as [|fuel']; [lia |]. simpl. rewrite E.
      destruct (parse_step input st) as [[control st']| |]; simpl in *;
        try discriminate.
      destruct control; try exact H. apply IH; [exact H | lia].
Qed.

Lemma reaches_parse_loop (input : string) (st st' : ParseState)
    (r : bool * ParseState) :
  reaches input st st' ->
  (exists fuel, parse_loop fuel input st' = Ret r) ->
  exists fuel, parse_loop fuel input st = Ret r.
Proof.
  induction 1 as [st | st st1 st2 Hpos Hstep Hreach IH]; [auto |].
  intros H. destruct (IH H) as (fuel & Hf). exists (S fuel). simpl.
  apply Nat.eqb_neq in Hpos. rewrite Hpos, Hstep. exact Hf.
Qed.

(** Whatever iteration returns first decides the outcome of [parse]: its
    message is the template's message, the tree is what was built up to
    there, and the check for unclosed sections is not run. *)
Theorem first_error_wins (input : string) (d : DelimiterSet) (st st' : ParseState) :
  begin_ d <> EmptyString -> end_ d <> EmptyString ->
  reaches input (parse_init d) st ->
  inputPosition st <> String.length input ->
  parse_step input st = Ret (Return, st') ->
  parse input d =
    Ret (mkTemplate (ps_errorMessage st') (rootOf (sections st')), ps_delimiterSet st').
Proof.
  intros Hb He Hreach Hpos Hstep.
  destruct (reaches_parse_loop input _ _ (true, st') Hreach) as (fuel & Hf).
  { exists 1. apply parse_loop_Return; assumption. }
  destruct (parse_loop_total input (String.length input) (parse_init d))
    as (returned & st0 & H0).
  - unfold parse_inv, parse_init, brace_consistent; simpl. repeat split; auto; lia.
  - simpl; lia.
  - pose proof (parse_loop_mono _ _ (Nat.max fuel (String.length input)) _ _ Hf
                  (Nat.le_max_l _ _)) as H1.
    pose proof (parse_loop_mono _ _ (Nat.max fuel (String.length input)) _ _ H0
                  (Nat.le_max_r _ _)) as H2.
    rewrite H1 in H2. inversion H2; subst.
    apply parse_returned. exact H0.
Qed.

Lemma first_error_wins_witness :
  parse "ab{{x}}{{/a}}{{" defaultDelimiterSet =
    Ret (mkTemplate ("Unopened section " ++ dquote ++ "a" ++ dquote ++ " at 7")
           (mkComponent "" defaultTag
              [ textComponent "ab" 0;
                mkComponent "" (mkTag "x" Tag.Variable_ None None) [] (Some 2);
                mkComponent "" (mkTag "a" Tag.SectionEnd None None) [] (Some 7) ]
              None),
         defaultDelimiterSet).
Proof.
  refine (first_error_wins "ab{{x}}{{/a}}{{" defaultDelimiterSet
            (tag_appended (parse_init defaultDelimiterSet)
               (push_back_child emptyComponent (textComponent "ab" 0)) []
               (mkTag "x" Tag.Variable_ None None) 2 7)
            _ ltac:(discriminate) ltac:(discriminate) _ ltac:(simpl; lia) eq_refl).
  eapply reaches_next; [simpl; lia | reflexivity | apply reaches_here].
Defined.

(** The triple-mustache form is out of use while other delimiters are set
    and back once a set-delimiter tag restores the default ones. *)
Lemma triple_mustache_after_set_delimiter (fuel : nat) :
  compile_render (S fuel) "{{=<% %>=}}<%{x}%>|{{{x}}}|<%={{ }}=%>{{{x}}}"
    (DObject [("x", DString "<"); ("{x}", DString "!")])
  = Ret ("!|{{{x}}}|<", "").
Proof. vm_compute; reflexivity. Qed.

(** ** More fuel changes no outcome *)

Lemma le_result_refl {A : Type} (r : result A) : le_result r r.
Proof. right; reflexivity. Qed.

Lemma le_result_bind {A B : Type} (m m' : result A) (k k' : A -> result B) :
  le_result m m' -> (forall a, le_result (k a) (k' a)) ->
  le_result (bind m k) (bind m' k').
Proof.
  intros [-> | <-] Hk; [left; reflexivity |].
  destruct m; simpl; [apply Hk | left; reflexivity | right; reflexivity].
Qed.

Section WalkMono.

Context {St : Type}.
Variables visit visit' : Component -> St -> result (WalkControl * St).
Hypothesis visit_le : forall c s, le_result (visit c s) (visit' c s).

Lemma walkComponent_loop_mono (cs : list Component) :
  forall k s,
    le_result (walkComponent_loop visit cs k s) (walkComponent_loop visit' cs k s).
Proof.
  induction cs as [|c cs IH]; intros k s; simpl; [apply le_result_refl |].
  apply le_result_bind; [apply visit_le |].
  intros [[| |] s']; first [apply IH | apply le_result_refl].
Qed.

Lemma walkChildren_loop_mono (cs : list Component) :
  forall s, le_result (walkChildren_loop visit cs s) (walkChildren_loop visit' cs s).
Proof.
  induction cs as [|c cs IH]; intros s; simpl; [apply le_result_refl |].
  apply le_result_bind; [apply visit_le |].
  intros [[| |] s']; first [apply IH | apply le_result_refl].
Qed.

End WalkMono.

Lemma walkComponent_mono {St : Type} (callback callback' : WalkCallback St) :
  (forall c s, le_result (callback c s) (callback' c s)) ->
  forall fuel fuel', fuel <= fuel' ->
  forall c s,
    le_result (walkComponent fuel callback c s) (walkComponent fuel' callback' c s).
Proof.
  intros Hcb. induction fuel as [|fuel IH]; intros fuel' Hle c s;
    [left; reflexivity |].
  destruct fuel' as [|fuel']; [lia |]. rewrite !walkComponent_S.
  apply le_result_bind; [apply Hcb |].
  intros [[[| |] c'] s']; try apply le_result_refl.
  apply walkComponent_loop_mono. apply IH. lia.
Qed.

Lemma walkChildren_mono {St : Type} (callback callback' : WalkCallback St) :
  (forall c s, le_result (callback c s) (callback' c s)) ->
  forall fuel fuel', fuel <= fuel' ->
  forall c s,
    le_result (walkChildren fuel callback c s) (walkChildren fuel' callback' c s).
Proof.
  intros Hcb fuel fuel' Hle c s. unfold walkChildren.
  apply walkChildren_loop_mono. apply walkComponent_mono; assumption.
Qed.

Section RenderMono.

Variables rec rec' : Component -> RenderState -> result (WalkControl * RenderState).
Variables fuel fuel' : nat.
Hypothesis rec_le : forall c s, le_result (rec c s) (rec' c s).
Hypothesis fuel_le : fuel <= fuel'.

Lemma renderCallback_mono (c : Component) (s : RenderState) :
  le_result (renderCallback rec c s) (renderCallback rec' c s).
Proof.
  unfold renderCallback. apply le_result_bind; [apply rec_le |].
  intros; apply le_result_refl.
Qed.

Lemma walk_mono (c : Component) (s : RenderState) :
  le_result (walkChildren fuel (renderCallback rec) c s)
            (walkChildren fuel' (renderCallback rec') c s).
Proof. apply walkChildren_mono; [apply renderCallback_mono | exact fuel_le]. Qed.

Lemma render_template_mono (tmpl : Template) (o : string) (c : Context) :
  le_result (render_template rec fuel tmpl o c) (render_template rec' fuel' tmpl o c).
Proof. apply walk_mono. Qed.

Lemma renderLambda_mono (lambda : string -> string) (st : RenderState)
    (escaped : bool) (text_ : string) (same : bool) :
  le_result (renderLambda rec fuel lambda st escaped text_ same)
            (renderLambda rec' fuel' lambda st escaped text_ same).
Proof.
  unfold renderLambda. destruct (callLambda lambda text_); try apply le_result_refl.
  apply le_result_bind; [apply le_result_refl |]. intros [tmpl c].
  destruct (negb (isValid tmpl)); [apply le_result_refl |].
  apply le_result_bind; [apply render_template_mono |].
  intros; apply le_result_refl.
Qed.

Lemma renderSection_list_mono (incomp : Component) (l : list Data) :
  forall st,
    le_result (renderSection_list rec fuel incomp l st)
              (renderSection_list rec' fuel' incomp l st).
Proof.
  induction l as [|item l IH]; intros st; simpl; [apply le_result_refl |].
  apply le_result_bind; [apply walk_mono | intros; apply IH].
Qed.

Lemma renderSection_mono (st : RenderState) (incomp : Component) (var : option Data) :
  le_result (renderSection rec fuel st incomp var)
            (renderSection rec' fuel' st incomp var).
Proof.
  unfold renderSection. destruct var as [v|]; [| apply walk_mono].
  destruct (isNonEmptyList v).
  - destruct v; try apply le_result_refl. apply renderSection_list_mono.
  - apply le_result_bind; [apply walk_mono | intros; apply le_result_refl].
Qed.

Lemma renderComponent_body_mono (comp : Component) (st : RenderState) :
  le_result (renderComponent_body rec fuel comp st)
            (renderComponent_body rec' fuel' comp st).
Proof.
  unfold renderComponent_body.
  destruct (isText comp); [apply le_result_refl |].
  destruct (type (tag comp)); try apply le_result_refl.
  - destruct (Context_get _ _) as [var|]; [| apply le_result_refl].
    apply le_result_bind; [| intros; apply le_result_refl].
    unfold renderVariable. destruct var; try apply le_result_refl.
    apply renderLambda_mono.
  - destruct (Context_get _ _) as [var|]; [| apply le_result_refl].
    apply le_result_bind; [| intros; apply le_result_refl].
    unfold renderVariable. destruct var; try apply le_result_refl.
    apply renderLambda_mono.
  - destruct (Context_get _ _) as [var|]; [| apply le_result_refl].
    destruct var;
      try (destruct (_ && _); [| apply le_result_refl];
           apply le_result_bind; [apply renderSection_mono |];
           intros; apply le_result_refl).
    destruct (sectionText (tag comp)); [| apply le_result_refl].
    apply le_result_bind; [apply renderLambda_mono | intros; apply le_result_refl].
  - destruct (match Context_get _ _ with None => true | Some v => _ end);
      [| apply le_result_refl].
    apply le_result_bind; [apply renderSection_mono | intros; apply le_result_refl].
  - unfold renderPartial.
    destruct (Context_get_partial _ _) as [[| | | | |partial| |]|];
      try apply le_result_refl.
    apply le_result_bind; [apply le_result_refl |]. intros [tmpl d].
    destruct (negb (isValid tmpl)); [apply le_result_refl |].
    apply le_result_bind; [apply render_template_mono |].
    intros; apply le_result_refl.
Qed.

End RenderMono.

Lemma renderComponent_mono (fuel : nat) :
  forall fuel', fuel <= fuel' ->
  forall comp st,
    le_result (renderComponent fuel comp st) (renderComponent fuel' comp st).
Proof.
  induction fuel as [|fuel IH]; intros fuel' Hle comp st; [left; reflexivity |].
  destruct fuel' as [|fuel']; [lia |]. simpl.
  apply renderComponent_body_mono; [| lia]. intros c s. apply IH. lia.
Qed.

(** A render that returns with some fuel returns the same with any more:
    the fuel is a budget of the model, not a parameter of the program. *)
Theorem render_fuel_irrelevant (fuel fuel' : nat) (tmpl : Template) (data : Data)
    (r : string * string) :
  fuel <= fuel' ->
  render fuel tmpl data = Ret r -> render fuel' tmpl data = Ret r.
Proof.
  intros Hle. unfold render.
  assert (H : le_result
                (render_template (renderComponent fuel) fuel tmpl ""
                   (mkContext [data] defaultDelimiterSet))
                (render_template (renderComponent fuel') fuel' tmpl ""
                   (mkContext [data] defaultDelimiterSet))).
  { apply render_template_mono; [| exact Hle].
    intros c s. apply renderComponent_mono. exact Hle. }
  destruct H as [-> | <-]; [discriminate | auto].
Qed.

Lemma render_fuel_irrelevant_witness :
  render 7 (mkTemplate "" (mkComponent "" defaultTag [textComponent "a" 0] None))
    DTrue = Ret ("a", "").
Proof.
  apply (render_fuel_irrelevant 1 7); [lia | reflexivity].
Defined.

(** ** The set-delimiter tag in the loop *)

(** C8: a tag whose trimmed contents begin with '=' is accepted exactly when
    the contents have the set-delimiter form; then the delimiters become the
    two markers of the form and a SetDelimiter component that carries them is
    appended; otherwise the loop returns at once with the message
    "Invalid set delimiter tag at <ts>" and the delimiters unchanged, and
    that message is the outcome of [parse]. *)
Theorem set_delimiter_tag_accepted_iff_form
    (input : string) (st : ParseState) (top : Component) (rest : list Component)
    (tagLocationStart tagLocationEnd : nat) (unescaped : bool) (c : string) :
  let delims := ps_delimiterSet st in
  let endMarker := if unescaped then braceDelimiterEndUnescaped else end_ delims in
  let tagContentsLocation :=
    if unescaped then S (tagLocationStart + String.length (begin_ delims))
    else tagLocationStart + String.length (begin_ delims) in
  let contents := String "=" c in
  let top' := top_with_text input st top tagLocationStart in
  sections st = top :: rest ->
  inputPosition st <> String.length input ->
  find input (begin_ delims) (inputPosition st) = Some tagLocationStart ->
  tagIsUnescapedVar input st tagLocationStart = Ret unescaped ->
  find input endMarker tagContentsLocation = Some tagLocationEnd ->
  trim (substr input tagContentsLocation (tagLocationEnd - tagContentsLocation))
    = contents ->
  (forall b e,
      set_delimiter_form contents b e <->
      parse_step input st =
        Ret (Next,
             set_delimiter_accepted st top' rest tagLocationStart
               (tagLocationEnd + String.length endMarker) b e)) /\
  (~ (exists b e, set_delimiter_form contents b e) <->
   parse_step input st =
     Ret (Return, set_delimiter_rejected st top' rest tagLocationStart)) /\
  (~ (exists b e, set_delimiter_form contents b e) ->
   forall d0,
     begin_ d0 <> EmptyString -> end_ d0 <> EmptyString ->
     reaches input (parse_init d0) st ->
     parse input d0 =
       Ret (mkTemplate ("Invalid set delimiter tag at " ++ dec tagLocationStart)
              (rootOf (top' :: rest)),
            delims)).
Proof.
  intros delims endMarker tagContentsLocation contents top'
         Hsec Hpos Hbegin Hun Hend Hcontents.
  assert (Hstep :
            parse_step input st =
              '(ok, delims') <- parseSetDelimiterTag contents delims ;;
              if negb ok
              then Ret (Return, set_delimiter_rejected st top' rest tagLocationStart)
              else
                Ret (Next,
                     set_delimiter_accepted st top' rest tagLocationStart
                       (tagLocationEnd + String.length endMarker)
                       (begin_ delims') (end_ delims'))).
  { rewrite (parse_step_tag input st top rest tagLocationStart Hsec Hbegin).
    unfold parse_tag. rewrite Hun. simpl bind.
    fold delims. fold endMarker. fold tagContentsLocation.
    rewrite Hend, Hcontents. unfold contents at 1.
    destruct (parseSetDelimiterTag contents delims) as [[[|] [b e]] | |];
      reflexivity. }
  destruct (parseSetDelimiterTag_spec contents delims) as [Hiff Hor].
  assert (H1 : forall b e,
             set_delimiter_form contents b e <->
             parse_step input st =
               Ret (Next,
                    set_delimiter_accepted st top' rest tagLocationStart
                      (tagLocationEnd + String.length endMarker) b e)).
  { intros b e. rewrite Hstep. split.
    - intros Hform. apply Hiff in Hform. rewrite Hform. reflexivity.
    - intros H. apply Hiff.
      destruct (parseSetDelimiterTag contents delims) as [[[|] [b' e']] | |];
        simpl in H; try discriminate.
      inversion H; subst. reflexivity. }
  assert (H2 : ~ (exists b e, set_delimiter_form contents b e) <->
               parse_step input st =
                 Ret (Return, set_delimiter_rejected st top' rest tagLocationStart)).
  { split.
    - intros Hno. destruct Hor as [Hyes | Hrej]; [contradiction |].
      rewrite Hstep, Hrej. reflexivity.
    - intros H (b & e & Hform). apply H1 in Hform. congruence. }
  split; [exact H1 | split; [exact H2 |]].
  intros Hno d0 Hb0 He0 Hreach.
  exact (first_error_wins input d0 st
           (set_delimiter_rejected st top' rest tagLocationStart)
           Hb0 He0 Hreach Hpos (proj1 H2 Hno)).
Qed.

Lemma set_delimiter_tag_accepted_iff_form_witness :
  parse_step "{{=<% %>=}}" (parse_init defaultDelimiterSet) =
    Ret (Next,
         set_delimiter_accepted (parse_init defaultDelimiterSet) emptyComponent []
           0 11 "<%" "%>") /\
  parse "a{{=x}}" defaultDelimiterSet =
    Ret (mkTemplate "Invalid set delimiter tag at 1"
           (mkComponent "" defaultTag [textComponent "a" 0] None),
         defaultDelimiterSet).
Proof.
  split.
  - apply (proj1 (set_delimiter_tag_accepted_iff_form
                    "{{=<% %>=}}" (parse_init defaultDelimiterSet) emptyComponent []
                    0 9 false "<% %>="
                    eq_refl ltac:(simpl; lia) eq_refl eq_refl eq_refl eq_refl)).
    apply (proj1 (parseSetDelimiterTag_spec "=<% %>=" defaultDelimiterSet)).
    reflexivity.
  - refine (proj2 (proj2 (set_delimiter_tag_accepted_iff_form
                            "a{{=x}}" (parse_init defaultDelimiterSet)
                            emptyComponent [] 1 5 false "x"
                            eq_refl ltac:(simpl; lia) eq_refl eq_refl eq_refl eq_refl))
                  _ defaultDelimiterSet ltac:(discriminate) ltac:(discriminate)
                  (reaches_here _ _)).
    intros (b & e & L & _). simpl in L. lia.
Defined.

(** * Further properties of the code *)

(** ** trim *)

Lemma string_forall_app (P : ascii -> bool) (a b : string) :
  string_forall P (a ++ b) = string_forall P a && string_forall P b.
Proof.
  induction a as [|c a IH]; simpl; [reflexivity |].
  rewrite IH, andb_assoc. reflexivity.
Qed.

Lemma append_nil_r (s : string) : s ++ "" = s.
Proof. induction s as [|c s IH]; simpl; [| rewrite IH]; reflexivity. Qed.

Lemma append_assoc (a b c : string) : (a ++ b) ++ c = a ++ b ++ c.
Proof. induction a as [|x a IH]; simpl; [| rewrite IH]; reflexivity. Qed.

Lemma ltrim_split (s : string) :
  exists l, s = l ++ ltrim s /\ string_forall isspace l = true.
Proof.
  induction s as [|c s (l & Hs & Hl)]; simpl.
  - exists ""; split; reflexivity.
  - destruct (isspace c) eqn:E.
    + exists (String c l). simpl. rewrite E, Hl, <- Hs. split; reflexivity.
    + exists ""; split; reflexivity.
Qed.

Lemma rtrim_split (s : string) :
  exists r, s = rtrim s ++ r /\ string_forall isspace r = true.
Proof.
  induction s as [|c s (r & Hs & Hr)]; simpl.
  - exists ""; split; reflexivity.
  - destruct (rtrim s) as [|a t] eqn:E.
    + simpl in Hs. subst r. destruct (isspace c) eqn:Ec.
      * exists (String c s). simpl. rewrite Ec, Hr. split; reflexivity.
      * exists s. split; [reflexivity | exact Hr].
    + exists r. simpl in *. rewrite <- Hs. split; [reflexivity | exact Hr].
Qed.

(** [rtrim] leaves alone a string that does not end in whitespace. *)
Lemma rtrim_fixed (s : string) :
  (s = "" \/ exists c, back s = Some c /\ isspace c = false) -> rtrim s = s.
Proof.
  induction s as [|a s IH]; intros H; [reflexivity |].
  destruct H as [H | (c & Hc & Hs)]; [discriminate |].
  simpl. destruct s as [|b s'].
  - simpl. unfold back in Hc. simpl in Hc. inversion Hc; subst. rewrite Hs. reflexivity.
  - rewrite IH; [reflexivity |]. right. exists c. split; [| exact Hs].
    unfold back in *. simpl in *. rewrite Nat.sub_0_r in *. exact Hc.
Qed.

Lemma ltrim_fixed (s : string) :
  match s with "" => True | String c _ => isspace c = false end -> ltrim s = s.
Proof. destruct s as [|c s]; simpl; [reflexivity |]. intros ->; reflexivity. Qed.

Lemma ltrim_all_space (s : string) :
  string_forall isspace s = true -> ltrim s = "".
Proof.
  induction s as [|c s IH]; simpl; [reflexivity |].
  destruct (isspace c); simpl; [exact IH | discriminate].
Qed.

(** X1: [trim] removes a run of whitespace from each end and nothing else;
    what it returns neither starts nor ends with whitespace, a string of
    whitespace becomes empty, and trimming twice changes nothing more. *)
Theorem trim_removes_outer_whitespace (s : string) :
  (exists l r,
      s = l ++ trim s ++ r /\
      string_forall isspace l = true /\ string_forall isspace r = true) /\
  match trim s with
  | "" => True
  | String c _ => isspace c = false
  end /\
  (trim s = "" \/ exists c, back (trim s) = Some c /\ isspace c = false) /\
  (string_forall isspace s = true <-> trim s = "") /\
  trim (trim s) = trim s.
Proof.
  assert (Hid : trim (trim s) = trim s).
  { unfold trim at 1. rewrite ltrim_fixed by apply trim_first.
    apply rtrim_fixed. apply trim_last. }
  destruct (ltrim_split s) as (l & Hl & Hls).
  destruct (rtrim_split (ltrim s)) as (r & Hr & Hrs).
  split; [| split; [apply trim_first | split; [apply trim_last | split; [| exact Hid]]]].
  - exists l, r. unfold trim. rewrite <- Hr. auto.
  - split.
    + intros H. unfold trim. rewrite (ltrim_all_space _ H). reflexivity.
    + intros H. rewrite Hl, Hr. fold (trim s). rewrite H. simpl.
      rewrite string_forall_app, Hls, Hrs. reflexivity.
Qed.

(** ** escape *)

Lemma escape_char_markup_free (c : ascii) :
  string_forall (fun x => negb (markup_char x)) (escape_char c) = true.
Proof. destruct c as [[] [] [] [] [] [] [] []]; reflexivity. Qed.

Lemma escape_char_plain (c : ascii) :
  escaped_char c = false -> escape_char c = String c "".
Proof. destruct c as [[] [] [] [] [] [] [] []]; simpl; try reflexivity; discriminate. Qed.

Lemma escape_char_length (c : ascii) : 1 <= String.length (escape_char c).
Proof. destruct c as [[] [] [] [] [] [] [] []]; simpl; lia. Qed.

Lemma length_append (a b : string) :
  String.length (a ++ b) = String.length a + String.length b.
Proof. induction a as [|c a IH]; simpl; [| rewrite IH]; reflexivity. Qed.

Lemma escape_length (s : string) : String.length s <= String.length (escape s).
Proof.
  induction s as [|c s IH]; simpl; [lia |].
  rewrite length_append. pose proof (escape_char_length c). lia.
Qed.

Lemma escape_char_special (c : ascii) :
  escaped_char c = true ->
  exists e, escape_char c = String "&" e /\ 3 <= String.length e.
Proof.
  destruct c as [[] [] [] [] [] [] [] []]; simpl; try discriminate;
    intros _; eexists; (split; [reflexivity | simpl; lia]).
Qed.

(** X2: what [escape] returns holds no angle bracket and no double or single
    quote, is never shorter than its argument, and is its argument exactly
    when the argument holds none of the five replaced characters. *)
Theorem escape_output_is_markup_free (s : string) :
  string_forall (fun c => negb (markup_char c)) (escape s) = true /\
  String.length s <= String.length (escape s) /\
  (escape s = s <-> string_forall (fun c => negb (escaped_char c)) s = true).
Proof.
  split; [| split; [apply escape_length |]].
  - induction s as [|c s IH]; simpl; [reflexivity |].
    rewrite string_forall_app, escape_char_markup_free, IH. reflexivity.
  - induction s as [|c s IH]; simpl; [split; reflexivity |].
    destruct (escaped_char c) eqn:E; simpl.
    + split; [| discriminate]. intros H.
      destruct (escape_char_special c E) as (e & He & Hlen).
      rewrite He in H. simpl in H. inversion H as [[Hc Hs]].
      pose proof (escape_length s) as Hl.
      apply (f_equal String.length) in Hs. rewrite length_append in Hs. lia.
    + rewrite (escape_char_plain c E). simpl. rewrite <- IH.
      split; [intros H; inversion H; congruence | intros ->; reflexivity].
Qed.

(** The replacement of a character starts with '&' exactly for the five
    replaced characters, and no replacement is the start of another. *)
Lemma escape_char_cases (c : ascii) :
  (escaped_char c = false /\ escape_char c = String c "") \/
  (c = "&"%char /\ escape_char c = "&amp;") \/
  (c = "<"%char /\ escape_char c = "&lt;") \/
  (c = ">"%char /\ escape_char c = "&gt;") \/
  (c = "034"%char /\ escape_char c = "&quot;") \/
  (c = "'"%char /\ escape_char c = "&apos;").
Proof.
  destruct c as [[] [] [] [] [] [] [] []];
    first [ left; split; reflexivity
          | right; left; split; reflexivity
          | right; right; left; split; reflexivity
          | right; right; right; left; split; reflexivity
          | right; right; right; right; left; split; reflexivity
          | right; right; right; right; right; split; reflexivity ].
Qed.

Lemma escape_head (c : ascii) (s : string) :
  escaped_char c = false -> escape (String c s) = String c (escape s).
Proof. intros H. simpl. rewrite (escape_char_plain c H). reflexivity. Qed.

(** X3: [escape] loses nothing: two strings with the same escaped form are
    the same string. *)
Theorem escape_injective (s t : string) : escape s = escape t -> s = t.
Proof.
  revert t; induction s as [|c s IH]; intros t.
  - destruct t as [|d t]; [reflexivity |]. simpl.
    pose proof (escape_char_length d) as L.
    destruct (escape_char d); [simpl in L; lia | discriminate].
  - destruct t as [|d t].
    + simpl. pose proof (escape_char_length c) as L.
      destruct (escape_char c); [simpl in L; lia | discriminate].
    + simpl.
      destruct (escape_char_cases c) as [[Hc Ec] | Hc];
        destruct (escape_char_cases d) as [[Hd Ed] | Hd].
      * rewrite Ec, Ed. simpl. intros H; inversion H; subst. f_equal; auto.
      * rewrite Ec. simpl. intros H. exfalso.
        destruct Hd as [[-> Ed] | [[-> Ed] | [[-> Ed] | [[-> Ed] | [-> Ed]]]]];
          simpl in H; inversion H; subst; discriminate.
      * rewrite Ed. simpl. intros H. exfalso.
        destruct Hc as [[-> Ec] | [[-> Ec] | [[-> Ec] | [[-> Ec] | [-> Ec]]]]];
          simpl in H; inversion H; subst; discriminate.
      * destruct Hc as [[-> Ec] | [[-> Ec] | [[-> Ec] | [[-> Ec] | [-> Ec]]]]];
          destruct Hd as [[-> Ed] | [[-> Ed] | [[-> Ed] | [[-> Ed] | [-> Ed]]]]];
          simpl; intros H; inversion H; f_equal; auto.
Qed.

Lemma escape_injective_witness : "a<b" = "a<b".
Proof. apply (escape_injective "a<b" "a<b"). reflexivity. Defined.

(** ** Data *)

Lemma obj_find_app (obj obj' : list (string * Data)) (k : string) :
  obj_find (obj ++ obj') k =
    match obj_find obj k with
    | Some v => Some v
    | None => obj_find obj' k
    end.
Proof.
  induction obj as [|[k0 v0] obj IH]; simpl; [reflexivity |].
  destruct (String.eqb k0 k); [reflexivity | exact IH].
Qed.

(** X4: [set] adds an entry only for a name the object does not have yet and
    never replaces one; [get] then finds the entry, and every other name is
    found as before.  On a value that is not an object [set] changes nothing
    and [get] finds nothing. *)
Theorem set_then_get (d : Data) (name_ key : string) (var : Data) :
  (isObject d = true ->
   Data_get (Data_set d name_ var) key =
     if String.eqb name_ key
     then match Data_get d name_ with
          | Some old => Some old
          | None => Some var
          end
     else Data_get d key) /\
  (isObject d = false ->
   Data_set d name_ var = d /\ Data_get d key = None) /\
  isObject (Data_set d name_ var) = isObject d /\
  Data_get (Data_named name_ var) key
    = (if String.eqb name_ key then Some var else None).
Proof.
  split; [| split; [| split]].
  - destruct d as [obj| | | | | | |]; try discriminate. intros _. simpl.
    destruct (String.eqb name_ key) eqn:E.
    + apply String.eqb_eq in E; subst key.
      destruct (obj_find obj name_) eqn:F; simpl; [exact F |].
      rewrite obj_find_app, F. simpl. rewrite String.eqb_refl. reflexivity.
    + destruct (obj_find obj name_) eqn:F; simpl; [reflexivity |].
      rewrite obj_find_app. simpl. rewrite E.
      destruct (obj_find obj key); reflexivity.
  - destruct d; try discriminate; intros _; split; reflexivity.
  - destruct d as [obj| | | | | | |]; try reflexivity.
    simpl. destruct (obj_find obj name_); reflexivity.
  - unfold Data_named. simpl. destruct (String.eqb name_ key); reflexivity.
Qed.

Lemma set_then_get_witness :
  Data_get (Data_set (DObject [("a", DTrue)]) "a" DFalse) "a" = Some DTrue.
Proof.
  exact (proj1 (set_then_get (DObject [("a", DTrue)]) "a" "a" DFalse) eq_refl).
Defined.

(** Distinct keys, as [unordered_map] keeps them. *)
Lemma obj_find_not_in (obj : list (string * Data)) (k : string) :
  obj_find obj k = None -> ~ In k (map fst obj).
Proof.
  induction obj as [|[k0 v0] obj IH]; simpl; [tauto |].
  destruct (String.eqb k0 k) eqn:E; [discriminate |].
  apply String.eqb_neq in E. intros F [H | H]; [contradiction | apply (IH F H)].
Qed.

(** X5: the subscript operator returns the value of a key that is there and
    leaves the object alone; for a key that is not there it adds an empty
    object under it and returns that; either way the key is there afterwards
    with the returned value, the other keys keep their values, and the keys
    stay distinct.  On a value that is not an object it dereferences a null
    pointer. *)
Theorem subscript_finds_or_adds (obj : list (string * Data)) (key : string) :
  exists d' v,
    Data_index (DObject obj) key = Ret (d', v) /\
    Data_get d' key = Some v /\
    (forall k, k <> key -> Data_get d' k = obj_find obj k) /\
    (forall old, obj_find obj key = Some old -> d' = DObject obj /\ v = old) /\
    (obj_find obj key = None -> v = Data_default) /\
    (forall obj', d' = DObject obj' -> NoDup (map fst obj) -> NoDup (map fst obj')) /\
    (forall d, isObject d = false -> Data_index d key = Fault).
Proof.
  assert (Hother : forall d, isObject d = false -> Data_index d key = Fault)
    by (intros d Hd; destruct d; try discriminate; reflexivity).
  unfold Data_index. destruct (obj_find obj key) as [old|] eqn:F.
  - exists (DObject obj), old.
    split; [reflexivity |]. split; [exact F |].
    split; [intros; reflexivity |].
    split; [intros o Ho; inversion Ho; auto |].
    split; [discriminate |].
    split; [intros obj' Ho; inversion Ho; subst; auto | exact Hother].
  - eexists _, _. split; [reflexivity |].
    split; [simpl; rewrite obj_find_app, F; simpl; rewrite String.eqb_refl;
            reflexivity |].
    split.
    { intros k Hk. simpl. rewrite obj_find_app. simpl.
      apply String.eqb_neq in Hk. rewrite String.eqb_sym, Hk.
      destruct (obj_find obj k); reflexivity. }
    split; [discriminate |]. split; [reflexivity |].
    split; [| exact Hother].
    intros obj' Ho Hnd. inversion Ho; subst. rewrite map_app. simpl.
    apply NoDup_app; [exact Hnd | repeat constructor; simpl; tauto |].
    intros x Hx [<- | []]. exact (obj_find_not_in _ _ F Hx).
Qed.

(** X6: [push_back] and [operator<<] append to a list, keeping the order, so
    a chain of them leaves the list followed by the values pushed; the list
    is then not empty.  A value that is not a list stays as it is, and
    [list()] on it dereferences a null pointer. *)
Theorem push_back_appends (l vars : list Data) (var : Data) :
  Data_list (fold_left Data_push_back vars (DList l)) = Ret (l ++ vars)%list /\
  Data_list (fold_left Data_push_back vars Data_List) = Ret vars /\
  isNonEmptyList (Data_push_back (DList l) var) = true /\
  isEmptyList (Data_push_back (DList l) var) = false /\
  (forall d, isList d = false ->
             Data_push_back d var = d /\ Data_list d = Fault).
Proof.
  assert (H : forall vs l0, fold_left Data_push_back vs (DList l0) = DList (l0 ++ vs)%list).
  { induction vs as [|v vs IH]; intros l0; simpl.
    - rewrite app_nil_r; reflexivity.
    - rewrite IH, <- app_assoc. reflexivity. }
  split; [rewrite H; reflexivity |].
  split; [unfold Data_List; rewrite H; reflexivity |].
  split; [simpl; destruct l; reflexivity |].
  split; [simpl; destruct l; reflexivity |].
  intros d Hd; destruct d; try discriminate; split; reflexivity.
Qed.

(** ** Context::split and the two lookups *)

Lemma getline_spec (s : string) (delim : ascii) :
  let '(item, rest) := getline s delim in
  string_forall (fun c => negb (Ascii.eqb c delim)) item = true /\
  match rest with
  | None => s = item
  | Some r => s = item ++ String delim r
  end.
Proof.
  induction s as [|c s IH]; simpl; [split; reflexivity |].
  destruct (Ascii.eqb c delim) eqn:E.
  - apply Ascii.eqb_eq in E; subst. split; reflexivity.
  - destruct (getline s delim) as [item rest]. destruct IH as [Hi Hr].
    simpl. rewrite E, Hi. split; [reflexivity |].
    destruct rest; subst; reflexivity.
Qed.

Lemma split_unfold (c : ascii) (s : string) (delim : ascii) :
  split (String c s) delim =
    match getline (String c s) delim with
    | (item, None) => [item]
    | (item, Some rest) => item :: split rest delim
    end.
Proof.
  unfold split at 1. simpl String.length. cbn [split_fuel].
  destruct (getline (String c s) delim) as [item [rest|]] eqn:E; [| reflexivity].
  f_equal. apply split_fuel_enough.
  apply getline_rest_shorter in E. simpl in E. lia.
Qed.

Lemma ends_with_cons (c : ascii) (s : string) (d : ascii) :
  s <> "" -> ends_with (String c s) d = ends_with s d.
Proof.
  intros H. destruct s as [|b s]; [contradiction |].
  unfold ends_with, back. simpl. rewrite Nat.sub_0_r. reflexivity.
Qed.

Lemma ends_with_app (a b : string) (d : ascii) :
  b <> "" -> ends_with (a ++ b) d = ends_with b d.
Proof.
  intros H. induction a as [|c a IH]; [reflexivity |].
  simpl. rewrite ends_with_cons; [exact IH |].
  destruct a; simpl; [exact H | discriminate].
Qed.

Lemma ends_with_no_delim (s : string) (d : ascii) :
  string_forall (fun c => negb (Ascii.eqb c d)) s = true -> ends_with s d = false.
Proof.
  induction s as [|c s IH]; [reflexivity |]. simpl.
  intros H. apply andb_prop in H as [Hc Hs].
  destruct s as [|b s].
  - unfold ends_with, back. simpl. apply negb_true_iff in Hc. exact Hc.
  - rewrite ends_with_cons by discriminate. apply IH; exact Hs.
Qed.

Lemma split_nonempty (s : string) (delim : ascii) : s <> "" -> split s delim <> [].
Proof.
  destruct s as [|c s]; [contradiction |]. intros _. rewrite split_unfold.
  destruct (getline (String c s) delim) as [item [rest|]]; discriminate.
Qed.

Lemma concat_cons (sep x : string) (l : list string) :
  l <> [] -> String.concat sep (x :: l) = x ++ sep ++ String.concat sep l.
Proof. destruct l; [contradiction | reflexivity]. Qed.

(** X7: [split] cuts a string at every delimiter: no item holds the
    delimiter, and the items joined by the delimiter give the string back,
    except that one delimiter at the very end of the string is dropped. *)
Theorem split_join (s : string) (delim : ascii) :
  Forall (fun item => string_forall (fun c => negb (Ascii.eqb c delim)) item = true)
    (split s delim) /\
  s = String.concat (String delim "") (split s delim)
      ++ (if ends_with s delim then String delim "" else "").
Proof.
  remember (String.length s) as n eqn:Hn.
  assert (Hle : String.length s <= n) by lia. clear Hn.
  revert s Hle; induction n as [|n IH]; intros s Hle.
  - destruct s; [| simpl in Hle; lia]. split; [constructor | reflexivity].
  - destruct s as [|c s]; [split; [constructor | reflexivity] |].
    rewrite split_unfold.
    pose proof (getline_spec (String c s) delim) as G.
    destruct (getline (String c s) delim) as [item [rest|]] eqn:E;
      destruct G as [Hitem Hs].
    + pose proof (getline_rest_shorter _ _ _ _ E) as Hlt.
      destruct (IH rest) as [Hall Hrest]; [simpl in *; lia |].
      split; [constructor; assumption |].
      rewrite Hs at 1. destruct rest as [|b rest'].
      * change (split "" delim) with (@nil string). simpl String.concat.
        rewrite Hs, ends_with_app by discriminate.
        unfold ends_with, back. simpl. rewrite Ascii.eqb_refl. reflexivity.
      * rewrite concat_cons by (apply split_nonempty; discriminate).
        rewrite Hs.
        replace (item ++ String delim (String b rest'))
          with ((item ++ String delim "") ++ String b rest')
          by (rewrite append_assoc; reflexivity).
        rewrite ends_with_app by discriminate.
        rewrite !append_assoc. simpl. f_equal. f_equal. exact Hrest.
    + split; [constructor; [assumption | constructor] |].
      rewrite Hs. simpl String.concat. rewrite (ends_with_no_delim _ _ Hitem).
      rewrite append_nil_r. reflexivity.
Qed.

Lemma split_no_delim (s : string) (delim : ascii) :
  s <> "" ->
  string_forall (fun c => negb (Ascii.eqb c delim)) s = true ->
  split s delim = [s].
Proof.
  intros Hne Hs. destruct s as [|c s]; [contradiction |].
  rewrite split_unfold.
  assert (G : getline (String c s) delim = (String c s, None)).
  { clear Hne. revert Hs. generalize (String c s) as u. clear.
    induction u as [|a u IH]; simpl; [reflexivity |].
    intros H. apply andb_prop in H as [Ha Hu].
    apply negb_true_iff in Ha. rewrite Ha, (IH Hu). reflexivity. }
  rewrite G. reflexivity.
Qed.

Lemma get_frames_single (items : list Data) (n : string) :
  get_frames items [n] = get_partial_frames items n.
Proof.
  induction items as [|item items IH]; simpl; [reflexivity |].
  destruct (Data_get item n); [reflexivity | exact IH].
Qed.

(** X8: for a name without a dot the dotted lookup of [get] is the plain
    lookup of [get_partial]: the value under that name in the innermost frame
    that has it; a frame without the name leaves the lookup to the frames
    below it. *)
Theorem get_is_get_partial_without_dots (c : Context) (name_ : string) :
  string_forall (fun ch => negb (Ascii.eqb ch ".")) name_ = true ->
  Context_get c name_ = Context_get_partial c name_ /\
  (forall v frame,
      Data_get frame name_ = Some v ->
      Context_get (Context_push c frame) name_ = Some v) /\
  (forall frame,
      Data_get frame name_ = None ->
      Context_get (Context_push c frame) name_ = Context_get c name_).
Proof.
  intros Hdots.
  assert (Hnames : dotted_names name_ = [name_]).
  { unfold dotted_names. destruct name_ as [|a r]; [reflexivity |].
    rewrite split_no_delim; [reflexivity | discriminate | exact Hdots]. }
  assert (Hdot : name_ <> ".") by (intros ->; discriminate).
  assert (Hget : forall c0, Context_get c0 name_ = Context_get_partial c0 name_).
  { intros c0. rewrite (Context_get_dotted _ _ Hdot), Hnames.
    apply get_frames_single. }
  split; [apply Hget | split].
  - intros v frame Hv. rewrite Hget. unfold Context_get_partial. simpl.
    rewrite Hv. reflexivity.
  - intros frame Hv. rewrite !Hget. unfold Context_get_partial. simpl.
    rewrite Hv. reflexivity.
Qed.

Lemma get_is_get_partial_without_dots_witness :
  Context_get (mkContext [DObject [("a", DTrue)]] defaultDelimiterSet) "a"
  = Context_get_partial (mkContext [DObject [("a", DTrue)]] defaultDelimiterSet) "a".
Proof.
  exact (proj1 (get_is_get_partial_without_dots
                  (mkContext [DObject [("a", DTrue)]] defaultDelimiterSet) "a" eq_refl)).
Defined.

(** ** parse: outcomes *)

Lemma parse_init_inv (input : string) (d : DelimiterSet) :
  begin_ d <> "" -> end_ d <> "" -> parse_inv input (parse_init d).
Proof.
  intros Hb He. unfold parse_inv, parse_init, brace_consistent; simpl.
  repeat split; auto; lia.
Qed.

Lemma reaches_inv (input : string) (st st' : ParseState) :
  reaches input st st' -> parse_inv input st -> parse_inv input st'.
Proof.
  induction 1 as [st | st st1 st2 Hpos Hstep Hreach IH]; [auto |].
  intros Hinv. apply IH.
  destruct (parse_step_inv input st Hinv) as (k & s & H & Hi & _).
  rewrite Hstep in H. inversion H; subst. exact Hi.
Qed.

Lemma parse_loop_inv (input : string) (fuel : nat) :
  forall st r st',
    parse_inv input st -> parse_loop fuel input st = Ret (r, st') ->
    parse_inv input st'.
Proof.
  induction fuel as [|fuel IH]; intros st r st' Hinv; simpl.
  - destruct (_ =? _)%nat; [| discriminate]. intros H; inversion H; subst; exact Hinv.
  - destruct (_ =? _)%nat; [intros H; inversion H; subst; exact Hinv |].
    destruct (parse_step_inv input st Hinv) as (k & s & Hs & Hi & _).
    rewrite Hs. simpl. destruct k.
    + apply IH; exact Hi.
    + intros H; inversion H; subst; exact Hi.
    + intros H; inversion H; subst; exact Hi.
Qed.

Lemma parse_delims (input : string) (d : DelimiterSet) (tmpl : Template)
    (d' : DelimiterSet) :
  begin_ d <> "" -> end_ d <> "" -> parse input d = Ret (tmpl, d') ->
  begin_ d' <> "" /\ end_ d' <> "".
Proof.
  intros Hb He. unfold parse.
  destruct (parse_loop _ _ _) as [[returned st]| |] eqn:L; simpl; try discriminate.
  pose proof (parse_loop_inv _ _ _ _ _ (parse_init_inv input d Hb He) L)
    as (_ & _ & Hb' & He' & _).
  destruct returned.
  - intros H; inversion H; subst; auto.
  - destruct (walkChildren _ _ _ _); simpl; try discriminate.
    intros H; inversion H; subst; auto.
Qed.

(** X9: under non-empty delimiters [parse] returns a template for every
    input: no [at()] or [back()] is out of range, the [assert] of the
    set-delimiter parser holds, and the delimiters left in the context are
    non-empty again, so the context can be parsed under once more. *)
Theorem parse_always_returns (input : string) (d : DelimiterSet) :
  begin_ d <> "" -> end_ d <> "" ->
  exists tmpl d',
    parse input d = Ret (tmpl, d') /\ begin_ d' <> "" /\ end_ d' <> "".
Proof.
  intros Hb He. destruct (parse_total input d Hb He) as (tmpl & d' & H).
  exists tmpl, d'. split; [exact H |]. exact (parse_delims _ _ _ _ Hb He H).
Qed.

Lemma parse_always_returns_witness :
  exists tmpl d',
    parse "{{=| |=}}|#a|x|/a|" defaultDelimiterSet = Ret (tmpl, d') /\
    begin_ d' <> "" /\ end_ d' <> "".
Proof.
  apply (parse_always_returns "{{=| |=}}|#a|x|/a|" defaultDelimiterSet);
    discriminate.
Defined.

Lemma substring_all (s : string) : substring 0 (String.length s) s = s.
Proof. induction s as [|c s IH]; simpl; [| rewrite IH]; reflexivity. Qed.

(** X10: an input without the begin delimiter is one text component, or no
    component when it is empty; the template is valid, the delimiters stay,
    and rendering gives the input back under any data. *)
Theorem text_only_template (input : string) (d : DelimiterSet) :
  find input (begin_ d) 0 = None ->
  parse input d =
    Ret (mkTemplate ""
           (mkComponent "" defaultTag
              (match input with "" => [] | _ => [textComponent input 0] end) None),
         d) /\
  (d = defaultDelimiterSet ->
   forall fuel data, compile_render (S fuel) input data = Ret (input, "")).
Proof.
  intros Hfind.
  assert (Hparse : parse input d =
            Ret (mkTemplate ""
                   (mkComponent "" defaultTag
                      (match input with "" => [] | _ => [textComponent input 0] end) None),
                 d)).
  { unfold parse. destruct input as [|c s].
    - destruct d; reflexivity.
    - remember (String c s) as input eqn:Hi.
      assert (Hloop : parse_loop (String.length input) input (parse_init d) =
                Ret (false,
                     mkParseState d (isDefault d)
                       [push_back_child emptyComponent (textComponent input 0)]
                       [] 0 "")).
      { rewrite Hi at 1. simpl String.length. cbn [parse_loop].
        assert (E : (inputPosition (parse_init d) =? String.length input)%nat = false)
          by (rewrite Hi; reflexivity).
        rewrite E. unfold parse_step, parse_text. simpl inputPosition.
        simpl ps_delimiterSet. rewrite Hfind. simpl.
        unfold substr. rewrite Nat.sub_0_r, substring_all. reflexivity. }
      rewrite Hloop. simpl bind. cbv iota.
      rewrite Hi. destruct d; reflexivity. }
  split; [exact Hparse |].
  intros -> fuel data. unfold compile_render, compile.
  rewrite Hparse. simpl bind.
  destruct input as [|c s]; reflexivity.
Qed.

Lemma text_only_template_witness :
  parse "no tags here" defaultDelimiterSet =
    Ret (mkTemplate ""
           (mkComponent "" defaultTag [textComponent "no tags here" 0] None),
         defaultDelimiterSet).
Proof.
  exact (proj1 (text_only_template "no tags here" defaultDelimiterSet eq_refl)).
Defined.

Lemma reaches_position (input : string) (d0 : DelimiterSet) (st : ParseState) (ts : nat) :
  begin_ d0 <> "" -> end_ d0 <> "" ->
  reaches input (parse_init d0) st ->
  find input (begin_ (ps_delimiterSet st)) (inputPosition st) = Some ts ->
  parse_inv input st /\ inputPosition st <> String.length input /\
  exists top rest, sections st = top :: rest.
Proof.
  intros Hb He Hreach Hfind.
  pose proof (reaches_inv _ _ _ Hreach (parse_init_inv input d0 Hb He)) as Hinv.
  split; [exact Hinv |]. destruct Hinv as (_ & Hl & Hbe & _ & _).
  split.
  - pose proof (find_ge _ _ _ _ Hfind). pose proof (find_bound _ _ _ _ Hfind).
    pose proof (length_nonempty _ Hbe). lia.
  - destruct (sections st) as [|top rest]; [simpl in Hl; discriminate | eauto].
Qed.

(** X11: a tag whose end marker does not occur after it makes [parse] return
    with "Unclosed tag at <ts>", [ts] being the offset of the tag's begin
    delimiter, wherever in the input the tag stands; the template is invalid
    and the delimiters are those in force at the tag. *)
Theorem unclosed_tag_is_reported
    (input : string) (d0 : DelimiterSet) (st : ParseState) (tagLocationStart : nat) :
  let delims := ps_delimiterSet st in
  let recognized :=
    isDefault delims
    && negb (tagLocationStart + 2 =? String.length input)%nat
    && match at_ input (tagLocationStart + String.length (begin_ delims)) with
       | Some c => Ascii.eqb c "{"
       | None => false
       end in
  begin_ d0 <> "" -> end_ d0 <> "" ->
  reaches input (parse_init d0) st ->
  find input (begin_ delims) (inputPosition st) = Some tagLocationStart ->
  find input (if recognized then braceDelimiterEndUnescaped else end_ delims)
    (if recognized then S (tagLocationStart + String.length (begin_ delims))
     else tagLocationStart + String.length (begin_ delims)) = None ->
  exists root,
    parse input d0 =
      Ret (mkTemplate ("Unclosed tag at " ++ dec tagLocationStart) root, delims) /\
    isValid (mkTemplate ("Unclosed tag at " ++ dec tagLocationStart) root) = false.
Proof.
  intros delims recognized Hb He Hreach Hfind Hend.
  destruct (reaches_position input d0 st _ Hb He Hreach Hfind)
    as (Hinv & Hpos & top & rest & Hsec).
  destruct Hinv as (Hbrace & _).
  eexists. split; [| reflexivity].
  refine (first_error_wins input d0 st
            (unclosed_tag st (top_with_text input st top tagLocationStart) rest
               tagLocationStart)
            Hb He Hreach Hpos _).
  rewrite (parse_step_tag input st top rest tagLocationStart Hsec Hfind).
  unfold parse_tag.
  rewrite (tagIsUnescapedVar_eq input st tagLocationStart Hbrace Hfind).
  simpl bind. fold delims. fold recognized. rewrite Hend. reflexivity.
Qed.

Lemma unclosed_tag_is_reported_witness :
  exists root,
    parse "ab{{x}}cd{{{y}}" defaultDelimiterSet =
      Ret (mkTemplate ("Unclosed tag at " ++ dec 9) root, defaultDelimiterSet) /\
    isValid (mkTemplate ("Unclosed tag at " ++ dec 9) root) = false.
Proof.
  refine (unclosed_tag_is_reported "ab{{x}}cd{{{y}}" defaultDelimiterSet
            (tag_appended (parse_init defaultDelimiterSet)
               (push_back_child emptyComponent (textComponent "ab" 0)) []
               (mkTag "x" Tag.Variable_ None None) 2 7)
            9 ltac:(discriminate) ltac:(discriminate) _ eq_refl eq_refl).
  eapply reaches_next; [simpl; lia | reflexivity | apply reaches_here].
Defined.

(** X12: a section-end tag met while no section is open makes [parse] return
    with "Unopened section <name> at <ts>", the name in double quotes and
    trimmed, [ts] the offset of the tag; the end tag is the last component of
    the tree and the template is invalid. *)
Theorem unopened_section_is_reported
    (input : string) (d0 : DelimiterSet) (st : ParseState) (root : Component)
    (tagLocationStart tagLocationEnd : nat) (r : string) :
  let delims := ps_delimiterSet st in
  let tagContentsLocation := tagLocationStart + String.length (begin_ delims) in
  begin_ d0 <> "" -> end_ d0 <> "" ->
  reaches input (parse_init d0) st ->
  sections st = [root] ->
  find input (begin_ delims) (inputPosition st) = Some tagLocationStart ->
  tagIsUnescapedVar input st tagLocationStart = Ret false ->
  find input (end_ delims) tagContentsLocation = Some tagLocationEnd ->
  trim (substr input tagContentsLocation (tagLocationEnd - tagContentsLocation))
    = String "/" r ->
  parse input d0 =
    Ret (mkTemplate
           ("Unopened section " ++ dquote ++ trim r ++ dquote ++ " at "
              ++ dec tagLocationStart)
           (push_back_child (top_with_text input st root tagLocationStart)
              (mkComponent "" (mkTag (trim r) Tag.SectionEnd None None) []
                 (Some tagLocationStart))),
         delims).
Proof.
  intros delims tcs Hb He Hreach Hsec Hfind Hplain Hend Hc.
  destruct (reaches_position input d0 st _ Hb He Hreach Hfind)
    as (_ & Hpos & _).
  refine (first_error_wins input d0 st
            (mkParseState delims (currentDelimiterIsBrace st)
               [push_back_child (top_with_text input st root tagLocationStart)
                  (mkComponent "" (mkTag (trim r) Tag.SectionEnd None None) []
                     (Some tagLocationStart))]
               (sectionStarts st)
               (tagLocationEnd + String.length (end_ delims))
               ("Unopened section " ++ dquote ++ trim r ++ dquote ++ " at "
                  ++ dec tagLocationStart))
            Hb He Hreach Hpos _).
  rewrite (parse_step_tag input st root [] tagLocationStart Hsec Hfind).
  unfold parse_tag. rewrite Hplain. simpl bind. cbv iota.
  fold delims. fold tcs. rewrite Hend, Hc. reflexivity.
Qed.

Lemma unopened_section_is_reported_witness :
  parse "a{{/ s }}" defaultDelimiterSet =
    Ret (mkTemplate
           ("Unopened section " ++ dquote ++ "s" ++ dquote ++ " at 1")
           (mkComponent "" defaultTag
              [ textComponent "a" 0;
                mkComponent "" (mkTag "s" Tag.SectionEnd None None) [] (Some 1) ]
              None),
         defaultDelimiterSet).
Proof.
  exact (unopened_section_is_reported "a{{/ s }}" defaultDelimiterSet
           (parse_init defaultDelimiterSet) emptyComponent 1 7 " s"
           ltac:(discriminate) ltac:(discriminate) (reaches_here _ _)
           eq_refl eq_refl eq_refl eq_refl eq_refl).
Defined.

(** ** parse: the delimiters it leaves *)

Lemma parse_sections_delims input comp ts st k st' :
  parse_sections input comp ts st = Ret (k, st') ->
  ps_delimiterSet st' = ps_delimiterSet st.
Proof.
  unfold parse_sections. destruct (isSectionEnd (tag comp)).
  - destruct (sections st) as [|top [|parent rest]]; try discriminate.
    + intros H; inversion H; reflexivity.
    + destruct (sectionStarts st); try discriminate.
      intros H; inversion H; reflexivity.
  - intros H; inversion H; reflexivity.
Qed.

Lemma parse_append_delims input st secs delims brace tag_ ts next k st' :
  parse_append input st secs delims brace tag_ ts next = Ret (k, st') ->
  ps_delimiterSet st' = delims.
Proof.
  unfold parse_append. destruct (isSectionBegin tag_).
  - destruct secs; try discriminate. intros H; inversion H; reflexivity.
  - destruct (push_back_top secs _) as [secs'| |]; simpl; try discriminate.
    intros H. apply parse_sections_delims in H. exact H.
Qed.

Lemma form_delimiters_valid (contents b e : string) :
  set_delimiter_form contents b e -> delimiters_valid (mkDelimiterSet b e) = true.
Proof.
  intros (_ & _ & p & q & _ & _ & _ & _ & Nb & Ne & Vb & Ve).
  unfold delimiters_valid. simpl.
  apply isSetDelimiterValid_spec in Vb, Ve. rewrite Vb, Ve.
  destruct b; [contradiction |]. destruct e; [contradiction |]. reflexivity.
Qed.

Lemma parse_step_delims (input : string) (st : ParseState) k st' :
  parse_step input st = Ret (k, st') ->
  ps_delimiterSet st' = ps_delimiterSet st \/
  delimiters_valid (ps_delimiterSet st') = true.
Proof.
  unfold parse_step.
  destruct (parse_text input st) as [[[ts|] secs]| |]; simpl; try discriminate.
  - unfold parse_tag.
    destruct (tagIsUnescapedVar input st ts) as [u| |]; simpl; try discriminate.
    destruct (find input _ _) as [te|].
    + set (contents := trim _).
      destruct (equals_sign_dec contents) as [(r & Hr) | Hno].
      * rewrite Hr.
        destruct (parseSetDelimiterTag_spec (String "=" r) (ps_delimiterSet st))
          as [Hiff _].
        destruct (parseSetDelimiterTag (String "=" r) (ps_delimiterSet st))
          as [[[|] [b e]]| |]; simpl; try discriminate.
        -- intros H. apply parse_append_delims in H. right. rewrite H.
           apply (form_delimiters_valid (String "=" r)). apply Hiff. reflexivity.
        -- unfold fail_with. intros H; inversion H; left; reflexivity.
      * rewrite (match_not_equals_sign _ contents _ _ Hno).
        intros H. apply parse_append_delims in H. left; exact H.
    + unfold fail_with. intros H; inversion H; left; reflexivity.
  - intros H; inversion H; left; reflexivity.
Qed.

Lemma parse_loop_delims (input : string) (fuel : nat) :
  forall st r st',
    parse_loop fuel input st = Ret (r, st') ->
    ps_delimiterSet st' = ps_delimiterSet st \/
    delimiters_valid (ps_delimiterSet st') = true.
Proof.
  induction fuel as [|fuel IH]; intros st r st'; simpl.
  - destruct (_ =? _)%nat; [| discriminate]. intros H; inversion H; left; reflexivity.
  - destruct (_ =? _)%nat; [intros H; inversion H; left; reflexivity |].
    destruct (parse_step input st) as [[k s]| |] eqn:Hs; simpl; try discriminate.
    apply parse_step_delims in Hs. destruct k.
    + intros H. apply IH in H. destruct H as [H | H]; [| right; exact H].
      rewrite H. exact Hs.
    + intros H; inversion H; subst; exact Hs.
    + intros H; inversion H; subst; exact Hs.
Qed.

(** X13: the delimiters [parse] leaves in the context are the ones it found
    there or the markers of a set-delimiter tag it accepted: non-empty and
    free of whitespace and of the equals sign.  Given such delimiters, or the
    default ones, it leaves such delimiters. *)
Theorem parse_leaves_valid_delimiters
    (input : string) (d : DelimiterSet) (tmpl : Template) (d' : DelimiterSet) :
  parse input d = Ret (tmpl, d') ->
  (d' = d \/ delimiters_valid d' = true) /\
  (delimiters_valid d = true -> delimiters_valid d' = true) /\
  delimiters_valid defaultDelimiterSet = true.
Proof.
  intros H.
  assert (Hor : d' = d \/ delimiters_valid d' = true).
  { revert H. unfold parse.
    destruct (parse_loop _ _ _) as [[returned st]| |] eqn:L; simpl; try discriminate.
    apply parse_loop_delims in L. simpl in L.
    destruct returned.
    - intros H; inversion H; subst; exact L.
    - destruct (walkChildren _ _ _ _); simpl; try discriminate.
      intros H; inversion H; subst; exact L. }
  split; [exact Hor | split; [| reflexivity]].
  intros Hd. destruct Hor as [-> | Hv]; assumption.
Qed.

Lemma parse_leaves_valid_delimiters_witness :
  delimiters_valid (mkDelimiterSet "<%" "%>") = true.
Proof.
  destruct (parse_leaves_valid_delimiters "{{=<% %>=}}" defaultDelimiterSet
              (mkTemplate ""
                 (mkComponent "" defaultTag
                    [mkComponent ""
                       (mkTag "" Tag.SetDelimiter None (Some (mkDelimiterSet "<%" "%>")))
                       [] (Some 0)] None))
              (mkDelimiterSet "<%" "%>") eq_refl) as (_ & H & _).
  apply H. reflexivity.
Defined.

(** ** The tree of a valid template *)

Lemma last_is_section_end_app (cs : list Component) (c : Component) :
  last_is_section_end (cs ++ [c]) = isSectionEnd (tag c).
Proof. unfold last_is_section_end. rewrite rev_app_distr. reflexivity. Qed.

Lemma section_begin_not_end (t : Tag) :
  isSectionBegin t = true -> isSectionEnd t = false.
Proof. unfold isSectionBegin, isSectionEnd. destruct (type t); simpl; congruence. Qed.

Lemma complete_leaf (named : bool) (t : Tag) (p : option nat) :
  isSectionBegin t = false -> type t <> Tag.SetDelimiter ->
  complete named (mkComponent "" t [] p) = true.
Proof.
  unfold isSectionBegin. simpl. destruct (type t); simpl; try reflexivity;
    try discriminate. intros _ H; contradiction.
Qed.

Lemma complete_text (named : bool) (s : string) (p : nat) :
  complete named (textComponent s p) = true.
Proof. reflexivity. Qed.

Lemma stack_inv_nonempty (secs : list Component) : stack_inv secs -> secs <> [].
Proof. destruct secs; [contradiction | discriminate]. Qed.

Lemma stack_inv_push_child (top : Component) (rest : list Component) (comp : Component) :
  stack_inv (top :: rest) ->
  complete false comp = true -> isSectionEnd (tag comp) = false ->
  stack_inv (push_back_child top comp :: rest).
Proof.
  simpl. intros [Hc Hrest] Hcomp Hne. split.
  - rewrite forallb_app, Hc. simpl. rewrite Hcomp. reflexivity.
  - destruct rest; [exact I |]. destruct Hrest as [[Hb Hl] Hr].
    split; [| exact Hr]. split; [exact Hb |].
    simpl. rewrite last_is_section_end_app. exact Hne.
Qed.

Lemma stack_inv_open (secs : list Component) (t : Tag) (p : option nat) :
  stack_inv secs -> isSectionBegin t = true ->
  stack_inv (mkComponent "" t [] p :: secs).
Proof.
  intros H Hb. pose proof (stack_inv_nonempty _ H) as Hne.
  simpl. split; [reflexivity |]. destruct secs; [contradiction |].
  split; [split; [exact Hb | reflexivity] | exact H].
Qed.

Lemma stack_inv_close (top parent : Component) (rest : list Component)
    (comp : Component) (t : string) :
  stack_inv (top :: parent :: rest) ->
  isSectionEnd (tag comp) = true -> complete false comp = true ->
  stack_inv
    (push_back_child parent (set_sectionText (push_back_child top comp) t) :: rest).
Proof.
  intros H He Hcomp. pose proof H as [Hc [[Hb Hl] Hrest]].
  apply stack_inv_push_child; [exact Hrest | |].
  - unfold isSectionBegin in Hb. destruct top as [tx [n ty st ds] cs p].
    simpl in *. rewrite last_is_section_end_app, He, forallb_app, Hc. simpl.
    rewrite Hcomp. destruct ty; simpl in Hb; try discriminate; reflexivity.
  - simpl. apply section_begin_not_end. exact Hb.
Qed.

Lemma parseTagContents_type (u : bool) (contents : string) :
  type (parseTagContents u contents defaultTag) <> Tag.SetDelimiter.
Proof.
  unfold parseTagContents. destruct u; [discriminate |].
  destruct contents as [|c r]; [discriminate |].
  unfold sigil_type.
  repeat match goal with
         | |- context [if ?b then _ else _] => destruct b
         end; simpl; discriminate.
Qed.

Lemma parse_sections_tree input comp ts top rest st k st' :
  sections st = push_back_child top comp :: rest ->
  stack_inv (top :: rest) -> ps_errorMessage st = "" ->
  complete false comp = true ->
  parse_sections input comp ts st = Ret (k, st') ->
  (k <> Return -> tree_inv st') /\ (k = Return -> ps_errorMessage st' <> "").
Proof.
  intros Hsec Hinv Herr Hcomp. unfold parse_sections.
  destruct (isSectionEnd (tag comp)) eqn:He.
  - rewrite Hsec. destruct rest as [|parent rest].
    + intros H; inversion H; subst. split; [congruence |]. intros _. discriminate.
    + destruct (sectionStarts st); try discriminate.
      intros H; inversion H; subst. split; [| discriminate]. intros _.
      split; [exact Herr |]. simpl sections.
      apply stack_inv_close; assumption.
  - intros H; inversion H; subst. split; [| discriminate]. intros _.
    split; [exact Herr |]. rewrite Hsec.
    apply stack_inv_push_child; assumption.
Qed.

Lemma parse_append_tree input st secs delims brace tag_ ts next k st' :
  stack_inv secs -> ps_errorMessage st = "" ->
  (isSectionBegin tag_ = false ->
   complete false (mkComponent "" tag_ [] (Some ts)) = true) ->
  parse_append input st secs delims brace tag_ ts next = Ret (k, st') ->
  (k <> Return -> tree_inv st') /\ (k = Return -> ps_errorMessage st' <> "").
Proof.
  intros Hinv Herr Hcomp. unfold parse_append.
  destruct (isSectionBegin tag_) eqn:Hb.
  - destruct secs as [|top rest] eqn:Es; [discriminate |].
    intros H; inversion H; subst. split; [| discriminate]. intros _.
    split; [exact Herr |]. simpl sections. apply stack_inv_open; assumption.
  - destruct secs as [|top rest]; [contradiction |]. simpl bind.
    apply (parse_sections_tree input _ ts top rest); auto.
Qed.

(** An iteration keeps the tree in shape, and returns only with a message. *)
Lemma parse_step_tree (input : string) (st : ParseState) k st' :
  tree_inv st -> parse_step input st = Ret (k, st') ->
  (k <> Return -> tree_inv st') /\ (k = Return -> ps_errorMessage st' <> "").
Proof.
  intros [Herr Hinv].
  destruct (sections st) as [|top rest] eqn:Es; [contradiction |].
  destruct (find input (begin_ (ps_delimiterSet st)) (inputPosition st)) as [ts|]
    eqn:Fb.
  - rewrite (parse_step_tag input st top rest ts Es Fb).
    assert (Hsecs : stack_inv (top_with_text input st top ts :: rest)).
    { unfold top_with_text. destruct (ts =? inputPosition st)%nat; [exact Hinv |].
      apply stack_inv_push_child; [exact Hinv | reflexivity | reflexivity]. }
    set (secs := top_with_text input st top ts :: rest) in *. clear Fb.
    unfold parse_tag.
    destruct (tagIsUnescapedVar input st ts) as [u| |]; simpl; try discriminate.
    destruct (find input _ _) as [te|].
    + set (contents := trim _).
      destruct (equals_sign_dec contents) as [(r & Hr) | Hno].
      * rewrite Hr.
        destruct (parseSetDelimiterTag_spec (String "=" r) (ps_delimiterSet st))
          as [Hiff _].
        destruct (parseSetDelimiterTag (String "=" r) (ps_delimiterSet st))
          as [[[|] [b e]]| |]; simpl; try discriminate.
        -- apply parse_append_tree; auto. intros _.
           destruct (proj1 (Hiff b e) eq_refl)
             as (_ & _ & p & q & _ & _ & _ & _ & Nb & Ne & _ & _).
           simpl. unfold nonempty_delims. simpl.
           destruct b; [contradiction |]. destruct e; [contradiction |]. reflexivity.
        -- unfold fail_with. intros H; inversion H; subst.
           split; [congruence | intros _; discriminate].
      * rewrite (match_not_equals_sign _ contents _ _ Hno).
        apply parse_append_tree; auto. intros Hb.
        apply complete_leaf; [exact Hb | apply parseTagContents_type].
    + unfold fail_with. intros H; inversion H; subst.
      split; [congruence | intros _; discriminate].
  - unfold parse_step, parse_text. rewrite Fb, Es. simpl.
    intros H; inversion H; subst. split; [| discriminate]. intros _.
    split; [exact Herr |]. simpl.
    apply stack_inv_push_child; [exact Hinv | reflexivity | reflexivity].
Qed.

Lemma parse_loop_tree (input : string) (fuel : nat) :
  forall st r st',
    tree_inv st -> parse_loop fuel input st = Ret (r, st') ->
    (r = false -> tree_inv st') /\ (r = true -> ps_errorMessage st' <> "").
Proof.
  induction fuel as [|fuel IH]; intros st r st' Hinv; simpl.
  - destruct (_ =? _)%nat; [| discriminate].
    intros H; inversion H; subst. split; [auto | discriminate].
  - destruct (_ =? _)%nat;
      [intros H; inversion H; subst; split; [auto | discriminate] |].
    destruct (parse_step input st) as [[k s]| |] eqn:Hs; simpl; try discriminate.
    destruct (parse_step_tree _ _ _ _ Hinv Hs) as [Hn Hr]. destruct k.
    + apply IH. apply Hn. discriminate.
    + intros H; inversion H; subst. split; [intros _; apply Hn | ]; discriminate.
    + intros H; inversion H; subst. split; [discriminate | intros _; auto].
Qed.

Lemma complete_named_weaken (c : Component) :
  complete true c = true -> complete false c = true.
Proof.
  remember (depth c) as n eqn:Hn. assert (Hle : depth c <= n) by lia. clear Hn.
  revert c Hle. induction n as [|n IH]; intros c Hle.
  - rewrite depth_eq in Hle; lia.
  - destruct c as [tx t cs p]. simpl.
    assert (Hcs : forallb (complete true) cs = true -> forallb (complete false) cs = true).
    { intros H. rewrite forallb_forall in *. intros x Hx. apply IH; [| apply H; exact Hx].
      pose proof (depth_child (mkComponent tx t cs p) x Hx). lia. }
    destruct (type t); auto.
    + destruct (sectionText t); simpl; [| discriminate].
      unfold last_closes, last_is_section_end. destruct (rev cs) as [|l r]; simpl;
        [discriminate |].
      destruct (isSectionEnd (tag l)); simpl; [| discriminate].
      destruct (String.eqb _ _); simpl; [exact Hcs | discriminate].
    + destruct (sectionText t); simpl; [| discriminate].
      unfold last_closes, last_is_section_end. destruct (rev cs) as [|l r]; simpl;
        [discriminate |].
      destruct (isSectionEnd (tag l)); simpl; [| discriminate].
      destruct (String.eqb _ _); simpl; [exact Hcs | discriminate].
Qed.

Lemma complete_children (named : bool) (c : Component) :
  complete named c = true -> forallb (complete named) (children c) = true.
Proof.
  destruct c as [tx t cs p]. simpl.
  destruct (type t); try (destruct cs; [reflexivity | discriminate]).
  - intros H. apply andb_prop in H as [_ H]. exact H.
  - intros H. apply andb_prop in H as [_ H]. exact H.
  - intros H. apply andb_prop in H as [_ H]. destruct cs; [reflexivity | discriminate].
Qed.

Lemma removelast_rev {A : Type} (l : list A) (x : A) (r : list A) :
  rev l = x :: r -> l = (removelast l ++ [x])%list /\ removelast l = rev r.
Proof.
  intros H. assert (Hl : l = (rev r ++ [x])%list).
  { rewrite <- (rev_involutive l), H. reflexivity. }
  rewrite Hl. rewrite removelast_last. auto.
Qed.

Section CheckWalk.

Variable visit : Component -> string -> result (WalkControl * string).
Hypothesis visit_complete :
  forall c err k err',
    complete false c = true -> visit c err = Ret (k, err') ->
    (k = Stop /\ err' <> "") \/
    (k = Continue /\ err' = err /\ complete true c = true).

Lemma check_loop_complete (cs : list Component) :
  forallb (complete false) cs = true ->
  forall k0 err k err',
    walkComponent_loop visit cs k0 err = Ret (k, err') ->
    (k = Stop /\ err' <> "") \/
    (k = k0 /\ err' = err /\ forallb (complete true) cs = true) \/
    (k = Continue /\ err' = err /\ forallb (complete true) cs = true).
Proof.
  induction cs as [|c cs IH]; intros Hall k0 err k err'; simpl.
  - intros H; inversion H; subst; auto.
  - simpl in Hall. apply andb_prop in Hall as [Hc Hcs].
    destruct (visit c err) as [[k1 e1]| |] eqn:V; simpl; try discriminate.
    destruct (visit_complete _ _ _ _ Hc V) as [[-> Hne] | (-> & -> & Hm)].
    + intros H; inversion H; subst; auto.
    + intros H. destruct (IH Hcs _ _ _ _ H) as [Hs | [(-> & -> & Hm') | (-> & -> & Hm')]];
        [auto | |]; right; right; rewrite Hm, Hm'; auto.
Qed.

Lemma check_children_complete (cs : list Component) :
  forallb (complete false) cs = true ->
  forall err err',
    walkChildren_loop visit cs err = Ret err' ->
    err' <> "" \/ (err' = err /\ forallb (complete true) cs = true).
Proof.
  induction cs as [|c cs IH]; intros Hall err err'; simpl.
  - intros H; inversion H; subst; auto.
  - simpl in Hall. apply andb_prop in Hall as [Hc Hcs].
    destruct (visit c err) as [[k1 e1]| |] eqn:V; simpl; try discriminate.
    destruct (visit_complete _ _ _ _ Hc V) as [[-> Hne] | (-> & -> & Hm)].
    + intros H; inversion H; subst; auto.
    + intros H. destruct (IH Hcs _ _ H) as [Hs | (-> & Hm')]; [auto |].
      right. rewrite Hm, Hm'. auto.
Qed.

End CheckWalk.

(** On a tree of complete components the check stops with a message or
    finds every section closed under its own name. *)
Lemma walk_check_complete (fuel : nat) :
  forall c err k err',
    complete false c = true ->
    walkComponent fuel checkSection c err = Ret (k, err') ->
    (k = Stop /\ err' <> "") \/
    (k = Continue /\ err' = err /\ complete true c = true).
Proof.
  induction fuel as [|fuel IH]; intros c err k err' Hc; [discriminate |].
  rewrite walkComponent_S. unfold checkSection at 1.
  destruct c as [tx t cs p]. simpl tag. simpl children. simpl position.
  destruct (isSectionBegin t) eqn:Hb; simpl negb; cbv iota.
  - assert (Hc' := Hc). simpl in Hc.
    assert (Hparts : match sectionText t with Some _ => true | None => false end = true /\
                     last_is_section_end cs = true /\
                     forallb (complete false) cs = true /\
                     forall b, complete b (mkComponent tx t cs p) =
                       match sectionText t with Some _ => true | None => false end
                       && (if b then last_closes (name t) cs else last_is_section_end cs)
                       && forallb (complete b) cs).
    { unfold isSectionBegin in Hb. simpl.
      destruct (type t); simpl in Hb; try discriminate;
        (apply andb_prop in Hc as [Hc H3]; apply andb_prop in Hc as [H1 H2]; auto). }
    destruct Hparts as (Hst & Hlast & Hall & Heq).
    unfold last_is_section_end in Hlast.
    destruct (rev cs) as [|l r] eqn:Er; [discriminate |].
    rewrite Hlast. simpl negb. simpl orb.
    destruct (String.eqb (name (tag l)) (name t)) eqn:En; simpl.
    + destruct (removelast_rev cs l r Er) as [Hcs Hrl].
      assert (Hall' : forallb (complete false) (removelast cs) = true).
      { rewrite Hcs, forallb_app in Hall. apply andb_prop in Hall as [H _]. exact H. }
      assert (Hl : complete true l = true).
      { rewrite Hcs, forallb_app in Hall. apply andb_prop in Hall as [_ H].
        simpl in H. rewrite andb_true_r in H.
        destruct l as [lx lt lcs lp]. unfold isSectionEnd in Hlast. simpl in *.
        destruct (type lt); simpl in Hlast; try discriminate. exact H. }
      assert (Hfinal : forallb (complete true) (removelast cs) = true ->
                       complete true (mkComponent tx t cs p) = true).
      { intros Hm. rewrite Heq, Hst. unfold last_closes. rewrite Er, Hlast, En.
        simpl. rewrite Hcs, forallb_app, Hm. simpl. rewrite Hl. reflexivity. }
      intros H.
      destruct (check_loop_complete _ IH _ Hall' _ _ _ _ H)
        as [Hs | [(-> & -> & Hm) | (-> & -> & Hm)]]; [auto | |];
        right; (split; [reflexivity | split; [reflexivity |]]);
        exact (Hfinal Hm).
    + intros H; inversion H; subst. left. split; [reflexivity | discriminate].
  - assert (Hcs : cs = [] /\ complete true (mkComponent tx t cs p) = true).
    { unfold isSectionBegin in Hb. simpl in *.
      destruct (type t); simpl in Hb; try discriminate;
        try (destruct cs; [auto | discriminate]).
      apply andb_prop in Hc as [H1 H2]. rewrite H1.
      destruct cs; [auto | discriminate]. }
    destruct Hcs as [-> Hm]. simpl.
    intros H; inversion H; subst. right. auto.
Qed.

Lemma walk_check_open (fuel : nat) (c : Component) (err : string) :
  open_section c ->
  exists msg, walkComponent (S fuel) checkSection c err = Ret (Stop, msg) /\ msg <> "".
Proof.
  intros [Hb Hl]. rewrite walkComponent_S. unfold checkSection. rewrite Hb. simpl negb.
  cbv iota. unfold last_is_section_end in Hl.
  destruct (rev (children c)) as [|l r].
  - eexists. split; [reflexivity | discriminate].
  - rewrite Hl. simpl. eexists. split; [reflexivity | discriminate].
Qed.

Lemma open_section_push (parent inner : Component) :
  isSectionBegin (tag parent) = true -> isSectionBegin (tag inner) = true ->
  open_section (push_back_child parent inner).
Proof.
  intros Hp Hi. split; [exact Hp |]. simpl.
  rewrite last_is_section_end_app. apply section_begin_not_end. exact Hi.
Qed.

(** With a section still open, the root's last child is an open section. *)
Lemma attach_open (rest : list Component) :
  forall inner,
    rest <> [] -> open_section inner -> stack_inv rest ->
    exists cs X,
      children (attach inner rest) = (cs ++ [X])%list /\
      forallb (complete false) cs = true /\ open_section X.
Proof.
  induction rest as [|parent rest IH]; intros inner Hne Ho Hinv; [contradiction |].
  simpl in Hinv. destruct Hinv as [Hc Hrest]. simpl attach.
  destruct rest as [|p2 rest'].
  - simpl. exists (children parent), inner. auto.
  - destruct Hrest as [[Hb Hl] Hrest]. apply IH; [discriminate | | exact Hrest].
    apply open_section_push; [exact Hb | apply Ho].
Qed.

Lemma check_children_open (fuel : nat) (cs : list Component) (X : Component) :
  forallb (complete false) cs = true -> open_section X ->
  forall err err',
    walkChildren_loop (walkComponent (S fuel) checkSection) (cs ++ [X]) err = Ret err' ->
    err' <> "".
Proof.
  intros Hall Ho. induction cs as [|c cs IH]; intros err err'.
  - simpl app. cbn [walkChildren_loop].
    destruct (walk_check_open fuel X err Ho) as (msg & -> & Hmsg). simpl.
    intros H; inversion H; subst; exact Hmsg.
  - simpl in Hall. apply andb_prop in Hall as [Hc Hcs].
    simpl app. cbn [walkChildren_loop].
    destruct (walkComponent (S fuel) checkSection c err) as [[k1 e1]| |] eqn:V;
      simpl; try discriminate.
    destruct (walk_check_complete _ _ _ _ _ Hc V) as [[-> Hne] | (-> & -> & _)].
    + intros H; inversion H; subst; exact Hne.
    + apply IH; exact Hcs.
Qed.

Lemma empty_true (s : string) : empty s = true <-> s = "".
Proof. destruct s; simpl; split; congruence. Qed.

Lemma parse_init_tree (d : DelimiterSet) : tree_inv (parse_init d).
Proof. split; [reflexivity |]. simpl. auto. Qed.

(** A parse that ends without a message leaves complete components, every
    section closed under its own name. *)
Lemma valid_parse_complete (input : string) (d : DelimiterSet) (tmpl : Template)
    (d' : DelimiterSet) :
  parse input d = Ret (tmpl, d') -> isValid tmpl = true ->
  forallb (complete true) (children (rootComponent tmpl)) = true.
Proof.
  unfold parse.
  destruct (parse_loop _ _ _) as [[returned st]| |] eqn:L; simpl; try discriminate.
  destruct (parse_loop_tree _ _ _ _ _ (parse_init_tree d) L) as [Hf Ht].
  destruct returned.
  - intros H; inversion H; subst. unfold isValid. simpl. intros Hv.
    apply empty_true in Hv. exfalso. exact (Ht eq_refl Hv).
  - destruct (Hf eq_refl) as [Herr Hinv]. clear Hf Ht.
    destruct (walkChildren _ _ _ _) as [err| |] eqn:W; simpl; try discriminate.
    intros H; inversion H; subst. unfold isValid. simpl. intros Hv.
    apply empty_true in Hv. subst err.
    unfold walkChildren in W. rewrite Herr in W.
    destruct (sections st) as [|top rest]; [contradiction |].
    destruct rest as [|parent rest].
    + simpl in *. destruct Hinv as [Hc _].
      destruct (check_children_complete _ (walk_check_complete _) _ Hc _ _ W)
        as [Hne | [_ Hm]]; [contradiction | exact Hm].
    + exfalso.
      change (rootOf (top :: parent :: rest)) with (attach top (parent :: rest)) in W.
      destruct Hinv as [Hc [Ho Hrest]].
      destruct (attach_open (parent :: rest) top ltac:(discriminate) Ho Hrest)
        as (cs & X & Hcs & Hall & HX).
      rewrite Hcs in W. rewrite depth_eq in W.
      exact (check_children_open _ _ _ Hall HX _ _ W eq_refl).
Qed.

(** X14: in a template that parsed without error every section component
    has its section text and ends with the end tag of its own name, at every
    depth; every set-delimiter component carries non-empty delimiters; and no
    other component has children. *)
Theorem valid_template_is_complete (input : string) (d : DelimiterSet)
    (tmpl : Template) (d' : DelimiterSet) :
  parse input d = Ret (tmpl, d') -> isValid tmpl = true ->
  forallb (complete true) (children (rootComponent tmpl)) = true.
Proof. apply valid_parse_complete. Qed.

Lemma valid_template_is_complete_witness :
  forallb (complete true)
    [ mkComponent ""
        (mkTag "a" Tag.SectionBegin (Some "{{^b}}x{{/b}}") None)
        [ mkComponent ""
            (mkTag "b" Tag.SectionBeginInverted (Some "x") None)
            [ textComponent "x" 12;
              mkComponent "" (mkTag "b" Tag.SectionEnd None None) [] (Some 13) ]
            (Some 6);
          mkComponent "" (mkTag "a" Tag.SectionEnd None None) [] (Some 19) ]
        (Some 0) ] = true.
Proof.
  exact (valid_template_is_complete "{{#a}}{{^b}}x{{/b}}{{/a}}" defaultDelimiterSet
           _ _ eq_refl eq_refl).
Defined.

(** ** Rendering a valid template *)

Lemma safe_bind {A B : Type} (I : A -> Prop) (J : B -> Prop)
    (m : result A) (k : A -> result B) :
  safe I m -> (forall a, I a -> safe J (k a)) -> safe J (bind m k).
Proof. destruct m; simpl; auto. Qed.

Lemma safe_weaken {A : Type} (I J : A -> Prop) (r : result A) :
  (forall a, I a -> J a) -> safe I r -> safe J r.
Proof. destruct r; simpl; auto. Qed.

Section WalkSafe.

Context {St : Type}.
Variable I : St -> Prop.
Variable P : Component -> bool.
Hypothesis P_children : forall c, P c = true -> forallb P (children c) = true.

Lemma walkComponent_loop_safe
    (visit : Component -> St -> result (WalkControl * St)) (cs : list Component) :
  (forall c s, P c = true -> I s -> safe (fun p => I (snd p)) (visit c s)) ->
  forallb P cs = true ->
  forall k s, I s -> safe (fun p => I (snd p)) (walkComponent_loop visit cs k s).
Proof.
  intros Hv. induction cs as [|c cs IH]; intros Hall k s Hs; simpl; [exact Hs |].
  simpl in Hall. apply andb_prop in Hall as [Hc Hcs].
  eapply safe_bind; [apply Hv; assumption |].
  intros [k1 s1] H1. simpl in H1. destruct k1; simpl; auto.
Qed.

Lemma walkChildren_loop_safe
    (visit : Component -> St -> result (WalkControl * St)) (cs : list Component) :
  (forall c s, P c = true -> I s -> safe (fun p => I (snd p)) (visit c s)) ->
  forallb P cs = true ->
  forall s, I s -> safe I (walkChildren_loop visit cs s).
Proof.
  intros Hv. induction cs as [|c cs IH]; intros Hall s Hs; simpl; [exact Hs |].
  simpl in Hall. apply andb_prop in Hall as [Hc Hcs].
  eapply safe_bind; [apply Hv; assumption |].
  intros [k1 s1] H1. simpl in H1. destruct k1; simpl; auto.
Qed.

Variable callback : WalkCallback St.
Hypothesis callback_safe :
  forall c s, P c = true -> I s ->
              safe (fun r => I (snd r) /\ snd (fst r) = c) (callback c s).

Lemma walkComponent_safe (fuel : nat) :
  forall c s, P c = true -> I s ->
              safe (fun p => I (snd p)) (walkComponent fuel callback c s).
Proof.
  induction fuel as [|fuel IH]; intros c s Hc Hs; [exact Logic.I |].
  rewrite walkComponent_S.
  eapply safe_bind; [apply callback_safe; assumption |].
  intros [[k c'] s'] [Hs' Hc']. simpl in *. subst c'.
  destruct k; simpl; auto.
  apply walkComponent_loop_safe; auto.
Qed.

Lemma walkChildren_safe (fuel : nat) (c : Component) (s : St) :
  forallb P (children c) = true -> I s -> safe I (walkChildren fuel callback c s).
Proof.
  intros Hc Hs. unfold walkChildren.
  apply walkChildren_loop_safe; auto. apply walkComponent_safe.
Qed.

End WalkSafe.

Lemma nonempty_delims_spec (d : DelimiterSet) :
  nonempty_delims d = true <-> begin_ d <> "" /\ end_ d <> "".
Proof.
  unfold nonempty_delims. destruct (begin_ d), (end_ d); simpl;
    split; try discriminate; try (intros [H1 H2]; congruence); auto;
    split; discriminate.
Qed.

Lemma forallb_complete_weaken (cs : list Component) :
  forallb (complete true) cs = true -> forallb (complete false) cs = true.
Proof.
  rewrite !forallb_forall. intros H x Hx. apply complete_named_weaken. auto.
Qed.

(** A parse under non-empty delimiters returns, leaves non-empty delimiters,
    and leaves complete components when the template is valid. *)
Lemma parse_safe (input : string) (d : DelimiterSet) :
  nonempty_delims d = true ->
  exists tmpl d',
    parse input d = Ret (tmpl, d') /\ nonempty_delims d' = true /\
    (isValid tmpl = true ->
     forallb (complete false) (children (rootComponent tmpl)) = true).
Proof.
  intros Hd. apply nonempty_delims_spec in Hd as [Hb He].
  destruct (parse_total input d Hb He) as (tmpl & d' & H).
  exists tmpl, d'. split; [exact H |]. split.
  - apply nonempty_delims_spec. exact (parse_delims _ _ _ _ Hb He H).
  - intros Hv. apply forallb_complete_weaken.
    exact (valid_parse_complete _ _ _ _ H Hv).
Qed.

Section RenderSafe.

Variable rec : Component -> RenderState -> result (WalkControl * RenderState).
Variable fuel : nat.
Hypothesis rec_safe :
  forall comp st, complete false comp = true -> ctx_ok st ->
                  safe (fun p => ctx_ok (snd p)) (rec comp st).

Lemma renderCallback_safe (c : Component) (s : RenderState) :
  complete false c = true -> ctx_ok s ->
  safe (fun r => ctx_ok (snd r) /\ snd (fst r) = c) (renderCallback rec c s).
Proof.
  intros Hc Hs. unfold renderCallback.
  eapply safe_bind; [apply rec_safe; assumption |].
  intros [k s'] H. simpl in *. auto.
Qed.

Lemma walk_safe (c : Component) (s : RenderState) :
  forallb (complete false) (children c) = true -> ctx_ok s ->
  safe ctx_ok (walkChildren fuel (renderCallback rec) c s).
Proof.
  apply (walkChildren_safe ctx_ok (complete false) (complete_children false)).
  apply renderCallback_safe.
Qed.

Lemma render_template_safe (tmpl : Template) (o : string) (c : Context) :
  forallb (complete false) (children (rootComponent tmpl)) = true ->
  nonempty_delims (ctx_delimiterSet c) = true ->
  safe ctx_ok (render_template rec fuel tmpl o c).
Proof. intros Ht Hc. unfold render_template. apply walk_safe; assumption. Qed.

Lemma renderLambda_safe (lambda : string -> string) (st : RenderState)
    (escaped : bool) (text_ : string) (same : bool) :
  ctx_ok st ->
  safe (fun p => ctx_ok (snd p)) (renderLambda rec fuel lambda st escaped text_ same).
Proof.
  intros Hs. unfold renderLambda, callLambda. cbv beta iota.
  assert (Hp : safe (fun p : Template * Context =>
                       nonempty_delims (ctx_delimiterSet (snd p)) = true /\
                       (isValid (fst p) = true ->
                        forallb (complete false) (children (rootComponent (fst p)))
                        = true))
                 (if same
                  then '(t, d) <- parse (lambda text_) (ctx_delimiterSet (ctx st)) ;;
                       Ret (t, mkContext (items_ (ctx st)) d)
                  else '(t, _) <- parse (lambda text_) defaultDelimiterSet ;;
                       Ret (t, ctx st))).
  { destruct same.
    - destruct (parse_safe (lambda text_) (ctx_delimiterSet (ctx st)) Hs)
        as (tmpl & d' & -> & Hd & Hv). simpl. auto.
    - destruct (parse_safe (lambda text_) defaultDelimiterSet eq_refl)
        as (tmpl & d' & -> & Hd & Hv). simpl. auto. }
  eapply safe_bind; [exact Hp |]. intros [tmpl c] [Hc Hv]. simpl in Hc, Hv.
  destruct (isValid tmpl) eqn:V; simpl; [| exact Hc].
  eapply safe_bind; [apply render_template_safe; auto |].
  intros sub Hsub. destruct (negb _); exact Hsub.
Qed.

Lemma renderSection_list_safe (incomp : Component) (l : list Data) :
  forallb (complete false) (children incomp) = true ->
  forall st, ctx_ok st -> safe ctx_ok (renderSection_list rec fuel incomp l st).
Proof.
  intros Hc. induction l as [|item l IH]; intros st Hs; simpl; [exact Hs |].
  eapply safe_bind; [apply walk_safe; [exact Hc | exact Hs] |].
  intros s1 H1. apply IH. exact H1.
Qed.

Lemma renderSection_safe (st : RenderState) (incomp : Component) (var : option Data) :
  forallb (complete false) (children incomp) = true -> ctx_ok st ->
  safe ctx_ok (renderSection rec fuel st incomp var).
Proof.
  intros Hc Hs. unfold renderSection. destruct var as [v|]; [| apply walk_safe; auto].
  destruct (isNonEmptyList v) eqn:E.
  - destruct v; try discriminate. apply renderSection_list_safe; auto.
  - eapply safe_bind; [apply walk_safe; [exact Hc | exact Hs] |].
    intros s1 H1. exact H1.
Qed.

Lemma renderComponent_body_safe (comp : Component) (st : RenderState) :
  complete false comp = true -> ctx_ok st ->
  safe (fun p => ctx_ok (snd p)) (renderComponent_body rec fuel comp st).
Proof.
  intros Hc Hs. pose proof (complete_children false comp Hc) as Hch.
  unfold renderComponent_body.
  destruct (isText comp); [exact Hs |].
  destruct comp as [tx t cs p]. simpl tag. simpl in Hc.
  destruct (type t) eqn:Ty; try exact Hs.
  - destruct (Context_get _ _) as [var|]; [| exact Hs].
    eapply safe_bind with (I := fun p => ctx_ok (snd p)).
    + unfold renderVariable. destruct var; try exact Hs.
      apply renderLambda_safe; exact Hs.
    + intros [ok s1] H1. destruct ok; exact H1.
  - destruct (Context_get _ _) as [var|]; [| exact Hs].
    eapply safe_bind with (I := fun p => ctx_ok (snd p)).
    + unfold renderVariable. destruct var; try exact Hs.
      apply renderLambda_safe; exact Hs.
    + intros [ok s1] H1. destruct ok; exact H1.
  - destruct (Context_get _ _) as [var|]; [| exact Hs].
    assert (Hsec : forall v b,
               safe (fun p => ctx_ok (snd p))
                 (if (b : bool)
                  then st' <- renderSection rec fuel st (mkComponent tx t cs p) (Some v) ;;
                       Ret (Skip, st')
                  else Ret (Skip, st))).
    { intros v [|]; [| exact Hs].
      eapply safe_bind; [apply renderSection_safe; [exact Hch | exact Hs] |].
      intros s1 H1; exact H1. }
    destruct var; try apply Hsec.
    destruct (sectionText t); [| simpl in Hc; discriminate].
    eapply safe_bind with (I := fun p => ctx_ok (snd p));
      [apply renderLambda_safe; exact Hs |].
    intros [ok s1] H1. destruct ok; exact H1.
  - destruct (match Context_get _ _ with None => true | Some v => _ end);
      [| exact Hs].
    eapply safe_bind; [apply renderSection_safe; [exact Hch | exact Hs] |].
    intros s1 H1; exact H1.
  - unfold renderPartial.
    destruct (Context_get_partial _ _) as [[| | | | |partial| |]|]; try exact Hs.
    destruct (parse_safe (partial tt) defaultDelimiterSet eq_refl)
      as (tmpl & d' & -> & Hd & Hv). simpl bind. cbv iota.
    destruct (isValid tmpl) eqn:V; simpl; [| exact Hs].
    eapply safe_bind; [apply render_template_safe; [auto | exact Hs] |].
    intros sub Hsub. destruct (negb _); exact Hsub.
  - destruct (delimiterSet t) as [d|]; [| simpl in Hc; discriminate].
    apply andb_prop in Hc as [Hd _]. exact Hd.
Qed.

End RenderSafe.

Lemma renderComponent_safe (fuel : nat) :
  forall comp st, complete false comp = true -> ctx_ok st ->
                  safe (fun p => ctx_ok (snd p)) (renderComponent fuel comp st).
Proof.
  induction fuel as [|fuel IH]; intros comp st Hc Hs; [exact I |].
  simpl. apply renderComponent_body_safe; assumption.
Qed.



(** ** Rendering over data without lambdas and partials *)

Lemma plain_obj_find (obj : list (string * Data)) (n : string) (v : Data) :
  forallb (fun p => plain (snd p)) obj = true -> obj_find obj n = Some v ->
  plain v = true.
Proof.
  induction obj as [|[k w] obj IH]; simpl; [discriminate |].
  intros H. apply andb_prop in H as [Hw Hobj].
  destruct (String.eqb k n); [intros E; inversion E; subst; exact Hw | auto].
Qed.

Lemma plain_Data_get (d : Data) (n : string) (v : Data) :
  plain d = true -> Data_get d n = Some v -> plain v = true.
Proof. destruct d; simpl; try discriminate. apply plain_obj_find. Qed.

Lemma plain_get_path (names : list string) :
  forall d v, plain d = true -> get_path d names = Some v -> plain v = true.
Proof.
  induction names as [|n names IH]; intros d v Hd; simpl.
  - intros E; inversion E; subst; exact Hd.
  - destruct (Data_get d n) as [d'|] eqn:E; [| discriminate].
    apply IH. exact (plain_Data_get _ _ _ Hd E).
Qed.

Lemma plain_get_frames (items : list Data) (names : list string) (v : Data) :
  forallb plain items = true -> get_frames items names = Some v -> plain v = true.
Proof.
  induction items as [|d items IH]; simpl; [discriminate |].
  intros H. apply andb_prop in H as [Hd Hi].
  destruct (get_path d names) as [w|] eqn:E; [| auto].
  intros E'; inversion E'; subst. exact (plain_get_path _ _ _ Hd E).
Qed.

Lemma plain_Context_get (c : Context) (n : string) (v : Data) :
  forallb plain (items_ c) = true -> Context_get c n = Some v -> plain v = true.
Proof.
  intros H. unfold Context_get. destruct (_ && _).
  - destruct (items_ c) as [|d items]; simpl; [discriminate |].
    simpl in H. apply andb_prop in H as [Hd _].
    intros E; inversion E; subst; exact Hd.
  - apply plain_get_frames. exact H.
Qed.

Lemma plain_Context_get_partial (c : Context) (n : string) (v : Data) :
  forallb plain (items_ c) = true -> Context_get_partial c n = Some v ->
  plain v = true.
Proof.
  unfold Context_get_partial. induction (items_ c) as [|d items IH]; simpl;
    [discriminate |].
  intros H. apply andb_prop in H as [Hd Hi].
  destruct (Data_get d n) as [w|] eqn:E; [| auto].
  intros E'; inversion E'; subst. exact (plain_Data_get _ _ _ Hd E).
Qed.

Lemma forallb_tl {A : Type} (f : A -> bool) (l : list A) :
  forallb f l = true -> forallb f (tl l) = true.
Proof.
  destruct l; simpl; [auto |]. intros H. apply andb_prop in H as [_ H]. exact H.
Qed.

Section WalkReturns.

Context {St : Type}.
Variable I : St -> Prop.
Variable P : Component -> bool.
Hypothesis P_children : forall c, P c = true -> forallb P (children c) = true.

Lemma walkComponent_loop_returns
    (visit : Component -> St -> result (WalkControl * St)) (cs : list Component) :
  (forall c s, In c cs -> I s ->
               exists k s', visit c s = Ret (k, s') /\ I s') ->
  forall k s, I s ->
              exists k' s', walkComponent_loop visit cs k s = Ret (k', s') /\ I s'.
Proof.
  induction cs as [|c cs IH]; intros Hv k s Hs; simpl; [eauto |].
  destruct (Hv c s (or_introl eq_refl) Hs) as (k1 & s1 & -> & H1). simpl.
  destruct k1; eauto. apply IH; auto. intros c0 s0 Hin. apply Hv. right; exact Hin.
Qed.

Lemma walkChildren_loop_returns
    (visit : Component -> St -> result (WalkControl * St)) (cs : list Component) :
  (forall c s, In c cs -> I s ->
               exists k s', visit c s = Ret (k, s') /\ I s') ->
  forall s, I s -> exists s', walkChildren_loop visit cs s = Ret s' /\ I s'.
Proof.
  induction cs as [|c cs IH]; intros Hv s Hs; simpl; [eauto |].
  destruct (Hv c s (or_introl eq_refl) Hs) as (k1 & s1 & -> & H1). simpl.
  destruct k1; eauto. apply IH; auto. intros c0 s0 Hin. apply Hv. right; exact Hin.
Qed.

Variable n : nat.
Variable callback : WalkCallback St.
Hypothesis callback_returns :
  forall c s, P c = true -> depth c <= n -> I s ->
              exists k s', callback c s = Ret (k, c, s') /\ I s'.

Lemma walkComponent_returns (fuel : nat) :
  forall c s, P c = true -> depth c <= fuel -> depth c <= n -> I s ->
              exists k s', walkComponent fuel callback c s = Ret (k, s') /\ I s'.
Proof.
  induction fuel as [|fuel IH]; intros c s Hc Hf Hn Hs.
  - rewrite (depth_eq c) in Hf. lia.
  - rewrite walkComponent_S.
    destruct (callback_returns c s Hc Hn Hs) as (k & s' & -> & Hs'). simpl.
    destruct k; eauto.
    apply walkComponent_loop_returns; [| exact Hs'].
    intros c0 s0 Hin H0. pose proof (depth_child c c0 Hin) as Hd.
    apply IH; try lia; [| exact H0].
    pose proof (P_children c Hc) as Hall. rewrite forallb_forall in Hall. auto.
Qed.

Lemma walkChildren_returns (fuel : nat) (c : Component) (s : St) :
  forallb P (children c) = true -> depth c <= S fuel -> depth c <= S n -> I s ->
  exists s', walkChildren fuel callback c s = Ret s' /\ I s'.
Proof.
  intros Hc Hf Hn Hs. unfold walkChildren.
  apply walkChildren_loop_returns; [| exact Hs].
  intros c0 s0 Hin H0. pose proof (depth_child c c0 Hin) as Hd.
  rewrite forallb_forall in Hc.
  apply walkComponent_returns; auto; lia.
Qed.

End WalkReturns.

Section RenderPlain.

Variable rec : Component -> RenderState -> result (WalkControl * RenderState).
Variable fuel : nat.
Variable e : string.
Hypothesis rec_returns :
  forall comp st, complete false comp = true -> depth comp <= fuel ->
                  plain_state e st ->
                  exists k st', rec comp st = Ret (k, st') /\ plain_state e st'.

Lemma renderCallback_returns (c : Component) (s : RenderState) :
  complete false c = true -> depth c <= fuel -> plain_state e s ->
  exists k s', renderCallback rec c s = Ret (k, c, s') /\ plain_state e s'.
Proof.
  intros Hc Hd Hs. unfold renderCallback.
  destruct (rec_returns c s Hc Hd Hs) as (k & s' & -> & Hs'). simpl. eauto.
Qed.

Lemma walk_plain_returns (c : Component) (s : RenderState) :
  forallb (complete false) (children c) = true -> depth c <= S fuel ->
  plain_state e s ->
  exists s', walkChildren fuel (renderCallback rec) c s = Ret s' /\ plain_state e s'.
Proof.
  intros Hc Hd Hs.
  apply (walkChildren_returns (plain_state e) (complete false)
           (complete_children false) fuel (renderCallback rec)
           renderCallback_returns); auto.
Qed.

Lemma plain_state_push (st : RenderState) (v : Data) :
  plain_state e st -> plain v = true ->
  plain_state e (set_ctx st (Context_push (ctx st) v)).
Proof. intros [H1 H2] Hv. split; simpl; [rewrite Hv; exact H1 | exact H2]. Qed.

Lemma plain_state_pop (st : RenderState) :
  plain_state e st -> plain_state e (set_ctx st (Context_pop (ctx st))).
Proof. intros [H1 H2]. split; simpl; [apply forallb_tl; exact H1 | exact H2]. Qed.

Lemma renderSection_list_returns (incomp : Component) (l : list Data) :
  forallb (complete false) (children incomp) = true -> depth incomp <= S fuel ->
  forallb plain l = true ->
  forall st, plain_state e st ->
             exists st', renderSection_list rec fuel incomp l st = Ret st' /\
                         plain_state e st'.
Proof.
  intros Hc Hd. induction l as [|item l IH]; intros Hl st Hs; simpl; [eauto |].
  simpl in Hl. apply andb_prop in Hl as [Hi Hl].
  destruct (walk_plain_returns incomp _ Hc Hd (plain_state_push st item Hs Hi))
    as (s1 & -> & H1). simpl.
  apply IH; [exact Hl |]. apply plain_state_pop. exact H1.
Qed.

Lemma renderSection_returns (st : RenderState) (incomp : Component) (var : option Data) :
  forallb (complete false) (children incomp) = true -> depth incomp <= S fuel ->
  plain_state e st ->
  match var with Some v => plain v = true | None => True end ->
  exists st', renderSection rec fuel st incomp var = Ret st' /\ plain_state e st'.
Proof.
  intros Hc Hd Hs Hv. unfold renderSection.
  destruct var as [v|]; [| apply walk_plain_returns; auto].
  destruct (isNonEmptyList v) eqn:E.
  - destruct v; try discriminate. apply renderSection_list_returns; auto.
  - destruct (walk_plain_returns incomp _ Hc Hd (plain_state_push st v Hs Hv))
      as (s1 & -> & H1). simpl.
    eexists. split; [reflexivity |]. apply plain_state_pop. exact H1.
Qed.

Lemma renderComponent_body_returns (comp : Component) (st : RenderState) :
  complete false comp = true -> depth comp <= S fuel -> plain_state e st ->
  exists k st', renderComponent_body rec fuel comp st = Ret (k, st') /\
                plain_state e st'.
Proof.
  intros Hc Hd Hs. pose proof (complete_children false comp Hc) as Hch.
  pose proof Hs as [Hitems Herr].
  unfold renderComponent_body.
  destruct (isText comp); [eexists _, _; split; [reflexivity | exact Hs] |].
  destruct comp as [tx t cs p]. simpl tag. simpl in Hc.
  destruct (type t) eqn:Ty; try (eexists _, _; split; [reflexivity | exact Hs]).
  - destruct (Context_get _ _) as [var|] eqn:G;
      [| eexists _, _; split; [reflexivity | exact Hs]].
    pose proof (plain_Context_get _ _ _ Hitems G) as Hv.
    destruct var; try discriminate; simpl;
      eexists _, _; (split; [reflexivity | exact Hs]).
  - destruct (Context_get _ _) as [var|] eqn:G;
      [| eexists _, _; split; [reflexivity | exact Hs]].
    pose proof (plain_Context_get _ _ _ Hitems G) as Hv.
    destruct var; try discriminate; simpl;
      eexists _, _; (split; [reflexivity | exact Hs]).
  - destruct (Context_get _ _) as [var|] eqn:G;
      [| eexists _, _; split; [reflexivity | exact Hs]].
    pose proof (plain_Context_get _ _ _ Hitems G) as Hv.
    assert (Hsec : forall b : bool,
               exists k st',
                 (if b
                  then st' <- renderSection rec fuel st (mkComponent tx t cs p)
                                (Some var) ;;
                       Ret (Skip, st')
                  else Ret (Skip, st)) = Ret (k, st') /\ plain_state e st').
    { intros [|]; [| eexists _, _; split; [reflexivity | exact Hs]].
      destruct (renderSection_returns st (mkComponent tx t cs p) (Some var)
                  Hch Hd Hs Hv) as (s1 & -> & H1).
      simpl. eauto. }
    destruct var; try discriminate; apply Hsec.
  - destruct (Context_get _ _) as [var|] eqn:G.
    + pose proof (plain_Context_get _ _ _ Hitems G) as Hv.
      destruct (isFalse var || isEmptyList var);
        [| eexists _, _; split; [reflexivity | exact Hs]].
      destruct (renderSection_returns st (mkComponent tx t cs p) (Some var)
                  Hch Hd Hs Hv) as (s1 & -> & H1).
      simpl. eauto.
    + destruct (renderSection_returns st (mkComponent tx t cs p) None
                  Hch Hd Hs Logic.I) as (s1 & -> & H1).
      simpl. eauto.
  - unfold renderPartial.
    destruct (Context_get_partial _ _) as [var|] eqn:G;
      [| eexists _, _; split; [reflexivity | exact Hs]].
    pose proof (plain_Context_get_partial _ _ _ Hitems G) as Hv.
    destruct var; try discriminate; eexists _, _; (split; [reflexivity | exact Hs]).
  - destruct (delimiterSet t) as [d|]; [| simpl in Hc; discriminate].
    eexists _, _; split; [reflexivity |]. split; [exact Hitems | exact Herr].
Qed.

End RenderPlain.

Lemma renderComponent_returns (e : string) (fuel : nat) :
  forall comp st, complete false comp = true -> depth comp <= fuel ->
                  plain_state e st ->
                  exists k st', renderComponent fuel comp st = Ret (k, st') /\
                                plain_state e st'.
Proof.
  induction fuel as [|fuel IH]; intros comp st Hc Hd Hs.
  - rewrite (depth_eq comp) in Hd. lia.
  - simpl. apply renderComponent_body_returns; auto.
Qed.

(** The partial of [self_partial] under a stack that starts with it. *)
Lemma self_partial_diverges (fuel : nat) :
  forall o (c : Context) (err : string) rest,
    items_ c = self_partial :: rest ->
    renderComponent fuel
      (mkComponent "" (mkTag "p" Tag.Partial None None) [] (Some 0))
      (mkRenderState o c err) = OutOfFuel.
Proof.
  induction fuel as [|fuel IH]; intros o c err rest Hc; [reflexivity |].
  change (renderComponent (S fuel) ?c ?s)
    with (renderComponent_body (renderComponent fuel) fuel c s).
  unfold renderComponent_body, renderPartial.
  cbn [isText tag type name Tag.eqb ctx].
  unfold Context_get_partial. rewrite Hc.
  cbn [get_partial_frames Data_get self_partial obj_find].
  change ("p" =? "p") with true. cbv iota beta.
  replace (parse "{{>p}}" defaultDelimiterSet)
    with (Ret (mkTemplate ""
                 (mkComponent "" defaultTag
                    [mkComponent "" (mkTag "p" Tag.Partial None None) [] (Some 0)]
                    None), defaultDelimiterSet)) by (vm_compute; reflexivity).
  cbn [bind isValid errorMessage empty negb].
  unfold render_template, walkChildren.
  cbn [rootComponent children walkChildren_loop errorMessage out].
  destruct fuel as [|fuel']; [reflexivity |].
  rewrite walkComponent_S. unfold renderCallback.
  rewrite (IH o c "" rest Hc). reflexivity.
Qed.

(** X16: over data that holds no lambda and no partial, rendering a template
    that parsed without error always finishes and reports no error: the
    recursion goes no deeper than the template's tree.  Without the
    restriction it need not finish: a partial that names itself is expanded
    again and again. *)
Theorem render_plain_data_returns (input : string) (d : DelimiterSet)
    (tmpl : Template) (d' : DelimiterSet) (data : Data) (fuel : nat) :
  parse input d = Ret (tmpl, d') -> isValid tmpl = true -> plain data = true ->
  depth (rootComponent tmpl) <= fuel ->
  (exists o, render fuel tmpl data = Ret (o, "")) /\
  (forall n, compile_render n "{{>p}}" self_partial = OutOfFuel).
Proof.
  intros Hp Hv Hd Hf. split.
  - unfold render.
    pose proof (forallb_complete_weaken _ (valid_parse_complete _ _ _ _ Hp Hv)) as Hc.
    assert (He : errorMessage tmpl = "").
    { unfold isValid in Hv. destruct (errorMessage tmpl); [reflexivity | discriminate]. }
    destruct (walk_plain_returns (renderComponent fuel) fuel ""
                (renderComponent_returns "" fuel) (rootComponent tmpl)
                (mkRenderState "" (mkContext [data] defaultDelimiterSet)
                   (errorMessage tmpl)) Hc)
      as (s' & Hs' & _ & He'); [lia | |].
    { split; simpl; [rewrite Hd; reflexivity | exact He]. }
    unfold render_template. rewrite Hs'. simpl. rewrite He'. eauto.
  - intros n. unfold compile_render.
    replace (compile "{{>p}}")
      with (Ret (mkTemplate ""
                   (mkComponent "" defaultTag
                      [mkComponent "" (mkTag "p" Tag.Partial None None) [] (Some 0)]
                      None))) by (vm_compute; reflexivity).
    cbn [bind]. unfold render, render_template, walkChildren.
    cbn [rootComponent children walkChildren_loop errorMessage].
    destruct n as [|n]; [reflexivity |].
    rewrite walkComponent_S. unfold renderCallback.
    rewrite (self_partial_diverges (S n) ""
               (mkContext [self_partial] defaultDelimiterSet) "" [] eq_refl).
    reflexivity.
Qed.

Lemma render_plain_data_returns_witness :
  exists o,
    render 3
      (mkTemplate ""
         (mkComponent "" defaultTag
            [ mkComponent "" (mkTag "l" Tag.SectionBegin (Some "x") None)
                [ textComponent "x" 6;
                  mkComponent "" (mkTag "l" Tag.SectionEnd None None) [] (Some 7) ]
                (Some 0) ] None))
      (DObject [("l", DList [DTrue; DString "a"])]) = Ret (o, "").
Proof.
  refine (proj1 (render_plain_data_returns "{{#l}}x{{/l}}" defaultDelimiterSet
                   _ _ (DObject [("l", DList [DTrue; DString "a"])]) 3
                   eq_refl eq_refl eq_refl _)).
  vm_compute. lia.
Defined.

(** ** The context stack across a render *)

(** X17: a render hands the context back with the frames it was given: every
    frame a section pushes is popped again, whatever the walk below it did,
    in the templates of partials and lambdas too.  The delimiters of the
    context are not restored: a set-delimiter tag that was rendered leaves
    its markers there. *)
Theorem render_restores_context_stack (fuel : nat) (tmpl : Template) (o : string)
    (c : Context) (sub : RenderState) :
  render_template (renderComponent fuel) fuel tmpl o c = Ret sub ->
  items_ (ctx sub) = items_ c /\
  (exists t,
      compile "{{=<% %>=}}" = Ret t /\
      render_template (renderComponent 1) 1 t "" (mkContext [DTrue] defaultDelimiterSet)
      = Ret (mkRenderState "" (mkContext [DTrue] (mkDelimiterSet "<%" "%>")) "")).
Proof.
  intros H. split.
  - exact (render_template_balanced (renderComponent fuel) fuel
             (renderComponent_balanced fuel) tmpl o c sub H).
  - eexists. split; [vm_compute; reflexivity | reflexivity].
Qed.

Lemma render_restores_context_stack_witness :
  let tmpl :=
    mkTemplate ""
      (mkComponent "" defaultTag
         [ mkComponent "" (mkTag "." Tag.SectionBegin (Some "a") None)
             [ textComponent "a" 6;
               mkComponent "" (mkTag "." Tag.SectionEnd None None) [] (Some 7) ]
             (Some 0) ] None) in
  let c := mkContext [DTrue] defaultDelimiterSet in
  render_template (renderComponent 2) 2 tmpl "" c = Ret (mkRenderState "a" c "") /\
  items_ (ctx (mkRenderState "a" c "")) = items_ c.
Proof.
  intros tmpl c. split; [reflexivity |].
  exact (proj1 (render_restores_context_stack 2 tmpl "" c _ eq_refl)).
Defined.

(** ** Laws of rendering *)

Lemma concat_empty_cons (x : string) (xs : list string) :
  String.concat "" (x :: xs) = x ++ String.concat "" xs.
Proof. destruct xs; simpl; [rewrite append_nil_r |]; reflexivity. Qed.

(** The walk of a component without children that renders with [Continue]. *)
Lemma walk_render_leaf
    (rec : Component -> RenderState -> result (WalkControl * RenderState))
    (fuel : nat) (c : Component) (s s' : RenderState) :
  children c = [] -> rec c s = Ret (Continue, s') ->
  walkComponent (S fuel) (renderCallback rec) c s = Ret (Continue, s').
Proof.
  intros Hc H. rewrite walkComponent_S. unfold renderCallback. rewrite H.
  cbn [bind]. rewrite Hc. reflexivity.
Qed.

(** The loop of [renderSection] over the implicit iterator and the tag that
    ends the section, for items that are Strings. *)
Lemma iterate_strings (fuel : nat) (sec : Component) (n : string) (p q : option nat)
    (ss : list string) :
  children sec =
    [ mkComponent "" (mkTag "." Tag.Variable_ None None) [] p;
      mkComponent "" (mkTag n Tag.SectionEnd None None) [] q ] ->
  forall o items d e,
    renderSection_list (renderComponent (S fuel)) (S fuel) sec (map DString ss)
      (mkRenderState o (mkContext items d) e)
    = Ret (mkRenderState (o ++ String.concat "" (map escape ss)) (mkContext items d) e).
Proof.
  intros Hc. induction ss as [|s ss IH]; intros o items d e.
  - simpl. rewrite append_nil_r. reflexivity.
  - cbn [map renderSection_list]. unfold walkChildren. rewrite Hc.
    cbn [walkChildren_loop].
    erewrite (walk_render_leaf (renderComponent (S fuel)) fuel _ _
                (mkRenderState (o ++ escape s) (mkContext (DString s :: items) d) e));
      [| reflexivity | reflexivity].
    cbn [bind].
    erewrite (walk_render_leaf (renderComponent (S fuel)) fuel _ _
                (mkRenderState (o ++ escape s) (mkContext (DString s :: items) d) e));
      [| reflexivity | reflexivity].
    cbn [bind set_ctx Context_pop ctx items_ tl ctx_delimiterSet out rs_errorMessage].
    unfold set_ctx, Context_pop. cbn [out ctx items_ tl ctx_delimiterSet rs_errorMessage].
    rewrite IH. rewrite concat_empty_cons, append_assoc. reflexivity.
Qed.

(** X18: a section over a list of strings whose body is the implicit
    iterator renders the items in their order, each one escaped, and nothing
    for the empty list. *)
Theorem section_iterates_list (ss : list string) (rest : list (string * Data))
    (fuel : nat) :
  compile_render (S (S fuel)) "{{#l}}{{.}}{{/l}}"
    (DObject (("l", DList (map DString ss)) :: rest))
  = Ret (String.concat "" (map escape ss), "").
Proof.
  unfold compile_render.
  replace (compile "{{#l}}{{.}}{{/l}}")
    with (Ret (mkTemplate ""
                 (mkComponent "" defaultTag
                    [ mkComponent "" (mkTag "l" Tag.SectionBegin (Some "{{.}}") None)
                        [ mkComponent "" (mkTag "." Tag.Variable_ None None) [] (Some 6);
                          mkComponent "" (mkTag "l" Tag.SectionEnd None None) []
                            (Some 11) ]
                        (Some 0) ] None))) by (vm_compute; reflexivity).
  cbn [bind]. unfold render, render_template, walkChildren.
  cbn [rootComponent children walkChildren_loop errorMessage].
  rewrite walkComponent_S. unfold renderCallback.
  change (renderComponent (S (S fuel)) ?c ?s)
    with (renderComponent_body (renderComponent (S fuel)) (S fuel) c s).
  unfold renderComponent_body.
  cbn [isText tag type name Tag.eqb ctx].
  change (Context_get _ "l") with (Some (DList (map DString ss))).
  cbv iota. destruct ss as [|s ss]; [reflexivity |].
  cbn [map isFalse isEmptyList negb andb]. unfold renderSection.
  cbn [isNonEmptyList].
  change (DString s :: map DString ss) with (map DString (s :: ss)).
  erewrite (iterate_strings fuel _ "l" (Some 6) (Some 11) (s :: ss));
    [| reflexivity].
  reflexivity.
Qed.

Lemma compile_parse (input : string) (tmpl : Template) :
  compile input = Ret tmpl ->
  exists d', parse input defaultDelimiterSet = Ret (tmpl, d').
Proof.
  unfold compile. destruct (parse input defaultDelimiterSet) as [[t d']| |];
    simpl; try discriminate.
  intros H; inversion H; subst. eauto.
Qed.

Lemma empty_eq (s : string) : empty s = true -> s = "".
Proof. destruct s; [reflexivity | discriminate]. Qed.

(** X19: a partial renders as the template it produces would render over the
    same data: the same text, the same error, and no escaping on the way. *)
Theorem partial_renders_as_its_template (partial : unit -> string)
    (rest : list (string * Data)) (tmpl : Template) (fuel : nat) :
  compile (partial tt) = Ret tmpl -> isValid tmpl = true ->
  compile_render (S fuel) "{{>p}}" (DObject (("p", DPartial partial) :: rest))
  = render fuel tmpl (DObject (("p", DPartial partial) :: rest)).
Proof.
  intros Hc Hv. destruct (compile_parse _ _ Hc) as [d' Hp].
  unfold compile_render.
  replace (compile "{{>p}}")
    with (Ret (mkTemplate ""
                 (mkComponent "" defaultTag
                    [mkComponent "" (mkTag "p" Tag.Partial None None) [] (Some 0)]
                    None))) by (vm_compute; reflexivity).
  cbn [bind]. unfold render at 1. unfold render_template at 1. unfold walkChildren.
  cbn [rootComponent children walkChildren_loop errorMessage].
  rewrite walkComponent_S. unfold renderCallback.
  change (renderComponent (S fuel) ?c ?s)
    with (renderComponent_body (renderComponent fuel) fuel c s).
  unfold renderComponent_body, renderPartial.
  cbn [isText tag type name Tag.eqb ctx].
  change (Context_get_partial _ "p") with (Some (DPartial partial)).
  cbv iota. rewrite Hp. cbn [bind]. rewrite Hv. cbn [negb out ctx rs_errorMessage].
  unfold render.
  destruct (render_template (renderComponent fuel) fuel tmpl ""
              (mkContext [DObject (("p", DPartial partial) :: rest)]
                 defaultDelimiterSet)) as [sub| |]; [| reflexivity | reflexivity].
  cbn [bind]. destruct (empty (rs_errorMessage sub)) eqn:E; [| reflexivity].
  apply empty_eq in E. cbn [negb bind children walkComponent_loop out rs_errorMessage].
  rewrite E. reflexivity.
Qed.

Lemma partial_renders_as_its_template_witness :
  compile_render 3 "{{>p}}" (DObject [("p", DPartial (fun _ => "<{{x}}>")); ("x", DString "&")])
  = Ret ("<&amp;>", "").
Proof.
  rewrite (partial_renders_as_its_template (fun _ => "<{{x}}>")
             [("x", DString "&")]
             (mkTemplate ""
                (mkComponent "" defaultTag
                   [ textComponent "<" 0;
                     mkComponent "" (mkTag "x" Tag.Variable_ None None) [] (Some 1);
                     textComponent ">" 6 ] None))
             2 eq_refl eq_refl).
  reflexivity.
Defined.

(** X20: a variable whose value is a lambda calls it with the empty string,
    parses what it returns under the default delimiters and renders that over
    the same data; "{{x}}" writes the whole result escaped, "{{{x}}}" as it
    is; an error of the inner render is taken over and nothing is written. *)
Theorem variable_lambda_renders_its_result (lambda : string -> string)
    (rest : list (string * Data)) (tmpl : Template) (fuel : nat) (o e : string) :
  compile (lambda "") = Ret tmpl -> isValid tmpl = true ->
  render fuel tmpl (DObject (("x", DLambda lambda) :: rest)) = Ret (o, e) ->
  compile_render (S fuel) "{{x}}" (DObject (("x", DLambda lambda) :: rest))
  = Ret (if empty e then escape o else "", e) /\
  compile_render (S fuel) "{{{x}}}" (DObject (("x", DLambda lambda) :: rest))
  = Ret (if empty e then o else "", e).
Proof.
  intros Hc Hv Hr. destruct (compile_parse _ _ Hc) as [d' Hp].
  unfold render in Hr.
  destruct (render_template (renderComponent fuel) fuel tmpl ""
              (mkContext [DObject (("x", DLambda lambda) :: rest)]
                 defaultDelimiterSet)) as [sub| |] eqn:Hs; try discriminate.
  simpl in Hr. inversion Hr; subst o e. clear Hr.
  unfold compile_render. split.
  - replace (compile "{{x}}")
      with (Ret (mkTemplate ""
                   (mkComponent "" defaultTag
                      [mkComponent "" (mkTag "x" Tag.Variable_ None None) [] (Some 0)]
                      None))) by (vm_compute; reflexivity).
    cbn [bind]. unfold render, render_template, walkChildren.
    cbn [rootComponent children walkChildren_loop errorMessage].
    rewrite walkComponent_S. unfold renderCallback.
    change (renderComponent (S fuel) ?c ?s)
      with (renderComponent_body (renderComponent fuel) fuel c s).
    unfold renderComponent_body.
    cbn [isText tag type name Tag.eqb ctx].
    change (Context_get _ "x") with (Some (DLambda lambda)).
    cbv iota. unfold renderVariable, renderLambda, callLambda. cbv iota beta.
    rewrite Hp. cbn [bind]. rewrite Hv. cbn [negb out ctx rs_errorMessage].
    rewrite Hs. cbn [bind].
    destruct (empty (rs_errorMessage sub)) eqn:E; [| reflexivity].
    apply empty_eq in E.
    cbn [negb bind children walkComponent_loop out rs_errorMessage append].
    rewrite E. reflexivity.
  - replace (compile "{{{x}}}")
      with (Ret (mkTemplate ""
                   (mkComponent "" defaultTag
                      [mkComponent "" (mkTag "x" Tag.UnescapedVariable None None) []
                         (Some 0)]
                      None))) by (vm_compute; reflexivity).
    cbn [bind]. unfold render, render_template, walkChildren.
    cbn [rootComponent children walkChildren_loop errorMessage].
    rewrite walkComponent_S. unfold renderCallback.
    change (renderComponent (S fuel) ?c ?s)
      with (renderComponent_body (renderComponent fuel) fuel c s).
    unfold renderComponent_body.
    cbn [isText tag type name Tag.eqb ctx].
    change (Context_get _ "x") with (Some (DLambda lambda)).
    cbv iota. unfold renderVariable, renderLambda, callLambda. cbv iota beta.
    rewrite Hp. cbn [bind]. rewrite Hv. cbn [negb out ctx rs_errorMessage].
    rewrite Hs. cbn [bind].
    destruct (empty (rs_errorMessage sub)) eqn:E; [| reflexivity].
    apply empty_eq in E.
    cbn [negb bind children walkComponent_loop out rs_errorMessage append].
    rewrite E. reflexivity.
Qed.

Lemma variable_lambda_renders_its_result_witness :
  compile_render 3 "{{x}}"
    (DObject [("x", DLambda (fun t => "<{{y}}>" ++ t)); ("y", DString "&")])
  = Ret ("&lt;&amp;amp;&gt;", "") /\
  compile_render 3 "{{{x}}}"
    (DObject [("x", DLambda (fun t => "<{{y}}>" ++ t)); ("y", DString "&")])
  = Ret ("<&amp;>", "").
Proof.
  exact (variable_lambda_renders_its_result (fun t => "<{{y}}>" ++ t)
           [("y", DString "&")]
           (mkTemplate ""
              (mkComponent "" defaultTag
                 [ textComponent "<" 0;
                   mkComponent "" (mkTag "y" Tag.Variable_ None None) [] (Some 1);
                   textComponent ">" 6 ] None))
           2 "<&amp;>" "" eq_refl eq_refl eq_refl).
Defined.
